(** * meta_planner: time-varying A* and RRT planners

    A shallow embedding of
      - ros/src/meta_planner/src/time_varying_a_star.cpp
      - ros/src/meta_planner/src/time_varying_rrt.cpp
      - ros/src/meta_planner/include/meta_planner/probabilistic_box.h
    together with the properties of the planners that the specification
    states about them.

    Conventions of the embedding.
      - A C++ [double] is a binary64 primitive float; the C++ operators
        are the IEEE operations of [PrimFloat].  [a > b] is written
        [b <? a].
      - A [std::shared_ptr<Node>] is an index into a node store that only
        grows; [nullptr] is [None].  Writing through a reference to a
        member of a node is an update of the store at that index.
      - A loop whose trip count depends on floating-point data takes a
        fuel argument and answers [None] when the fuel runs out; every
        statement that the code returns something is proved with an
        explicit amount of fuel that suffices.
      - The collaborators the planners only call (the environment, the
        dynamics, the clock, the kd-tree, the random sampler) are
        variables of the sections below. *)

From Stdlib Require Import ZArith List Bool Lia PeanoNat Sorted.
From Stdlib Require String.
From Stdlib Require Import Floats.
Import ListNotations.

Set Warnings "-inexact-float,-register-all,-notation-for-abbreviation".

(* ------------------------------------------------------------------ *)
(** ** Eigen: the fixed-size vectors the planners compute with *)

Module Eigen.

Local Open Scope float_scope.

Record Vector3d : Set := Vec3 { vx : float; vy : float; vz : float }.

Definition Zero : Vector3d := Vec3 0 0 0.

Definition vadd (a b : Vector3d) : Vector3d :=
  Vec3 (vx a + vx b) (vy a + vy b) (vz a + vz b).

Definition vsub (a b : Vector3d) : Vector3d :=
  Vec3 (vx a - vx b) (vy a - vy b) (vz a - vz b).

(** [s * v] *)
Definition vscale (s : float) (v : Vector3d) : Vector3d :=
  Vec3 (s * vx v) (s * vy v) (s * vz v).

(** [v / s] *)
Definition vdiv (v : Vector3d) (s : float) : Vector3d :=
  Vec3 (vx v / s) (vy v / s) (vz v / s).

(** [v.squaredNorm()]: the sum of the squared coefficients; the
    unrolled reduction of a 3-vector adds the first coefficient to the
    sum of the other two. *)
Definition squaredNorm (v : Vector3d) : float :=
  vx v * vx v + (vy v * vy v + vz v * vz v).

(** [v.norm()] *)
Definition norm (v : Vector3d) : float := sqrt (squaredNorm v).

(** [numext::mini] *)
Definition mini (a b : float) : float := if b <? a then b else a.

(** [a.isApprox(b, prec)]:
    [|a - b|^2 <= prec^2 * min(|a|^2, |b|^2)]. *)
Definition isApprox (a b : Vector3d) (prec : float) : bool :=
  squaredNorm (vsub a b) <=? prec * prec * mini (squaredNorm a) (squaredNorm b).

End Eigen.

Import Eigen.

(** [ValueFunctionId]: an opaque token the planners only pass along. *)
Definition ValueFunctionId : Set := N.

(** [VectorXd]: a lifted state. *)
Definition VectorXd : Set := list float.

(** The object built by [Trajectory::Create(times, states, values,
    values)]: its four arguments. *)
Record Trajectory : Set := mkTrajectory {
  times_ : list float;
  states_ : list VectorXd;
  incoming_values_ : list ValueFunctionId;
  outgoing_values_ : list ValueFunctionId
}.

(* ------------------------------------------------------------------ *)
(** ** std::multiset as a list kept in comparator order *)

Module Multiset.
Section Ordered.

Variable A : Type.
(** the comparator: [lt a b] is [comp(a, b)] *)
Variable lt : A -> A -> bool.

(** [insert]: the new element goes at the upper bound of the range of
  elements equivalent to it. *)
Fixpoint insert (x : A) (l : list A) : list A :=
match l with
| [] => [x]
| y :: l' => if lt x y then x :: l else y :: insert x l'
end.

(** [lower_bound]: position of the first element that is not less
  than the key. *)
Fixpoint lower_bound (x : A) (l : list A) : nat :=
match l with
| [] => 0
| y :: l' => if lt y x then S (lower_bound x l') else 0
end.

(** [find]: the lower bound, unless the key is less than the element
  found there; [None] is [end()]. *)
Definition find (x : A) (l : list A) : option nat :=
let j := lower_bound x l in
match nth_error l j with
| None => None
| Some y => if lt x y then None else Some j
end.

(** [erase(iterator)] *)
Fixpoint erase (j : nat) (l : list A) : list A :=
match l, j with
| [], _ => []
| _ :: l', 0 => l'
| y :: l', S j' => y :: erase j' l'
end.

End Ordered.

Arguments insert {A} lt x l.
Arguments lower_bound {A} lt x l.
Arguments find {A} lt x l.
Arguments erase {A} j l.

End Multiset.

(* ------------------------------------------------------------------ *)
(** ** TimeVaryingAStar *)

Module TimeVaryingAStar.

Local Open Scope float_scope.

(** A [Node::Ptr]: the index of the node in the store. *)
Notation NodePtr := nat (only parsing).

(** Modelled from the spec: the [Node] struct of
    meta_planner/time_varying_a_star.h, which is not part of the
    sources embedded here.  Its members are the ones the planner reads
    ([point_], [parent_], [time_], [cost_to_come_], [heuristic_],
    [priority_], [collision_prob_]); section 3 of the specification
    gives their meaning. *)
Record Node : Set := mkNode {
  point_ : Vector3d;
  parent_ : option NodePtr;
  time_ : float;
  cost_to_come_ : float;
  heuristic_ : float;
  priority_ : float;
  collision_prob_ : float
}.

Definition Store : Set := list Node.

(** What a pointer that was never allocated would read. *)
Definition dangling : Node :=
  mkNode (Vec3 nan nan nan) None nan nan nan nan nan.

(** [ptr->...] *)
Definition get (st : Store) (p : NodePtr) : Node := nth p st dangling.

(** Modelled from the spec: [Node::Create(point, parent, time,
    cost_to_come, heuristic)] from the same header.  The priority is
    [cost_to_come + heuristic]; the collision probability, a running
    maximum of probabilities over the incoming edge, starts at zero. *)
Definition Node_Create (st : Store) (point : Vector3d)
    (parent : option NodePtr) (time cost_to_come heuristic : float)
    : Store * NodePtr :=
  (st ++ [mkNode point parent time cost_to_come heuristic
                 (cost_to_come + heuristic) 0],
   length st).

(** Assignment to [ptr->collision_prob_]. *)
Definition set_collision_prob (n : Node) (p : float) : Node :=
  mkNode (point_ n) (parent_ n) (time_ n) (cost_to_come_ n)
         (heuristic_ n) (priority_ n) p.

Fixpoint update (st : Store) (p : NodePtr) (f : Node -> Node) : Store :=
  match st, p with
  | [], _ => []
  | n :: st', 0 => f n :: st'
  | n :: st', S p' => n :: update st' p' f
  end.

(** Modelled from the spec: [Node::NodeComparitor], the ordering of
    the open multiset, from the same header: strict ordering by
    priority (sections 3 and 4.2). *)
Definition NodeComparitor (st : Store) (a b : NodePtr) : bool :=
  priority_ (get st a) <? priority_ (get st b).

(** One query of the environment: where and when. *)
Definition Query : Set := (Vector3d * float)%type.

(** The running-maximum update of [CollisionCheck]:
    [if (collision_prob > max_collision_prob) max_collision_prob =
    collision_prob;] *)
Definition raise_max (max_collision_prob collision_prob : float) : float :=
  if max_collision_prob <? collision_prob then collision_prob
  else max_collision_prob.

(** The search state of one [Plan] call, and the environment queries
    made so far. *)
Record PlanState : Set := mkState {
  store : Store;
  open : list NodePtr;
  closed : list NodePtr;
  queries : list Query
}.

Section Planner.

(** Members of the planner object. *)
Variable incoming_value_ outgoing_value_ : ValueFunctionId.
Variable grid_resolution_ collision_check_resolution_ : float.

(** [space_->IsValid(position, incoming, outgoing, collision_prob,
    time)] of ProbabilisticBox: the validity of the position at that
    time and the probability written to [collision_prob]. *)
Variable IsValid :
  Vector3d -> ValueFunctionId -> ValueFunctionId -> float -> bool * float.

(** [BestPossibleTime(from, to)] of the Planner base class. *)
Variable BestPossibleTime : Vector3d -> Vector3d -> float.

(** [dynamics_->LiftGeometricTrajectory(positions, times)]. *)
Variable LiftGeometricTrajectory :
  list Vector3d -> list float -> list VectorXd.

(** [(ros::Time::now() - plan_start_time).toSec()] at the [k]-th
    evaluation of the loop condition of [Plan]. *)
Variable elapsed : nat -> float.

(** The key equality of the closed [std::unordered_set]: the
    declaration names the hasher only, so the keys are compared with
    the equality of the pointers ([pointer_equal] below); the search
    is defined, and its properties proved, for any equality. *)
Variable closed_equal : Store -> NodePtr -> NodePtr -> bool.

Definition kStayPutTime : float := 1.

(** [ComputeHeuristic] *)
Definition ComputeHeuristic (point stop : Vector3d) : float :=
  BestPossibleTime point stop.

(** [ComputeCostToCome] *)
Definition ComputeCostToCome (st : Store) (parent : option NodePtr)
    (point : Vector3d) (dt : float) : float :=
  match parent with
  | None => infinity
  | Some p =>
      let dt' :=
        if dt <? 0 then BestPossibleTime (point_ (get st p)) point
        else dt in
      cost_to_come_ (get st p) + norm (vsub (point_ (get st p)) point)
  end.

(** [for (double x = lo; x < hi; x += step)]: the values [x] takes. *)
Fixpoint axis (fuel : nat) (x hi step : float) : option (list float) :=
  if x <? hi then
    match fuel with
    | 0%nat => None
    | S fuel' =>
        match axis fuel' (x + step) hi step with
        | None => None
        | Some xs => Some (x :: xs)
        end
    end
  else Some [].

(** A loop body run for each element in turn, each run producing
    more of the output vector, any of them possibly running out of
    fuel. *)
Fixpoint for_each {A B : Type} (f : A -> option (list B)) (l : list A)
    : option (list B) :=
  match l with
  | [] => Some []
  | a :: l' =>
      match f a with
      | None => None
      | Some bs =>
          match for_each f l' with
          | None => None
          | Some rest => Some (bs ++ rest)
          end
      end
  end.

Definition axis_of (fuel : nat) (c : float) : option (list float) :=
  axis fuel (c - grid_resolution_)
       (c + grid_resolution_ + 1e-8) grid_resolution_.

(** [Neighbors] *)
Definition Neighbors (fuel : nat) (point : Vector3d)
    : option (list Vector3d) :=
  match axis_of fuel (vx point) with
  | None => None
  | Some xs =>
      for_each (fun x =>
        match axis_of fuel (vy point) with
        | None => None
        | Some ys =>
            for_each (fun y =>
              match axis_of fuel (vz point) with
              | None => None
              | Some zs => Some (map (fun z => Vec3 x y z) zs)
              end) ys
        end) xs
  end.

(** The loop of [CollisionCheck]: [query] and [time] are the loop
    variables, [max_collision_prob] the referenced double, [qs] the
    queries made so far.  The answer is the returned flag, the final
    value of the referenced double and the queries. *)
Fixpoint walk_segment (fuel : nat) (direction : Vector3d)
    (dt stop_time : float) (query : Vector3d) (time : float)
    (max_collision_prob : float) (qs : list Query)
    : option (bool * float * list Query) :=
  if time <? stop_time then
    match fuel with
    | 0%nat => None
    | S fuel' =>
        let (valid_pt, collision_prob) :=
          IsValid query incoming_value_ outgoing_value_ time in
        let max' := raise_max max_collision_prob collision_prob in
        let qs' := qs ++ [(query, time)] in
        if negb valid_pt then Some (false, max', qs')
        else
          walk_segment fuel' direction dt stop_time
            (vadd query (vscale collision_check_resolution_ direction))
            (time + dt) max' qs'
    end
  else Some (true, max_collision_prob, qs).

Definition segment_direction (start stop : Vector3d) : Vector3d :=
  if isApprox start stop 1e-8 then Zero
  else vdiv (vsub stop start) (norm (vsub stop start)).

Definition segment_dt (start stop : Vector3d)
    (start_time stop_time : float) : float :=
  if isApprox start stop 1e-8 then (stop_time - start_time) * 0.1
  else (stop_time - start_time) * collision_check_resolution_
       / norm (vsub stop start).

(** [CollisionCheck(start, stop, start_time, stop_time,
    max_collision_prob)]: the third argument of the result lists
    the queries of this call. *)
Definition CollisionCheck (fuel : nat) (start stop : Vector3d)
    (start_time stop_time : float) (max_collision_prob : float)
    : option (bool * float * list Query) :=
  walk_segment fuel (segment_direction start stop)
    (segment_dt start stop start_time stop_time) stop_time
    start start_time max_collision_prob [].

(** The walk of [GenerateTrajectory] from a node to the root:
    [for (n = node; n != nullptr; n = n->parent_)]. *)
Fixpoint parent_chain (fuel : nat) (st : Store) (n : option NodePtr)
    : option (list Node) :=
  match n with
  | None => Some []
  | Some p =>
      match fuel with
      | 0%nat => None
      | S fuel' =>
          match parent_chain fuel' st (parent_ (get st p)) with
          | None => None
          | Some ns => Some (get st p :: ns)
          end
      end
  end.

(** [GenerateTrajectory] *)
Definition GenerateTrajectory (fuel : nat) (st : Store) (node : NodePtr)
    : option Trajectory :=
  match parent_chain fuel st (Some node) with
  | None => None
  | Some ns =>
      let positions := rev (map point_ ns) in
      let times := rev (map time_ ns) in
      let states := LiftGeometricTrajectory positions times in
      let values := repeat incoming_value_ (length states) in
      Some (mkTrajectory times states values values)
  end.

(** The goal test of [Plan]: within half a grid cell of [stop] on
    every axis. *)
Definition at_goal (p stop : Vector3d) : bool :=
  (abs (vx p - vx stop) <? grid_resolution_ / 2)
  && (abs (vy p - vy stop) <? grid_resolution_ / 2)
  && (abs (vz p - vz stop) <? grid_resolution_ / 2).

(** [closed.count(node) > 0] *)
Definition closed_count (st : Store) (cl : list NodePtr) (node : NodePtr)
    : bool :=
  existsb (fun c => closed_equal st c node) cl.

(** [closed.insert(node)]: a set keeps one element per key. *)
Definition closed_insert (st : Store) (cl : list NodePtr) (node : NodePtr)
    : list NodePtr :=
  if closed_count st cl node then cl else cl ++ [node].

(** The goal branch of [Plan] (the body of the [if] at "Check if
    this guy is the goal"): the terminus is created in the store and
    the trajectory generated from it. *)
Definition connect_goal (st : Store) (next : NodePtr) (stop : Vector3d)
    : Store * NodePtr :=
  let parent_node :=
    match parent_ (get st next) with
    | None => next
    | Some p => p
    end in
  let best_time := BestPossibleTime (point_ (get st parent_node)) stop in
  let terminus_time := time_ (get st parent_node) + best_time in
  let terminus_cost :=
    ComputeCostToCome st (Some parent_node) stop best_time in
  let terminus_heuristic := 0 in
  Node_Create st stop (Some parent_node) terminus_time terminus_cost
              terminus_heuristic.

(** The first half of the body of the loop over the neighbours: the
    candidate node is created. *)
Definition create_neighbor (st : Store) (next : NodePtr)
    (neighbor stop : Vector3d) : Store * NodePtr :=
  let best_neigh_time :=
    if isApprox neighbor (point_ (get st next)) 1e-8 then kStayPutTime
    else BestPossibleTime (point_ (get st next)) neighbor in
  let neighbor_time := time_ (get st next) + best_neigh_time in
  let neighbor_cost :=
    ComputeCostToCome st (Some next) neighbor best_neigh_time in
  let neighbor_heuristic := ComputeHeuristic neighbor stop in
  Node_Create st neighbor (Some next) neighbor_time neighbor_cost
              neighbor_heuristic.

(** The last part of that body, from "Check if we're in the open
    set": what becomes of the open set. *)
Definition offer (st : Store) (op : list NodePtr) (neighbor_node : NodePtr)
    : list NodePtr :=
  match Multiset.find (NodeComparitor st) neighbor_node op with
  | Some m =>
      if priority_ (get st neighbor_node)
           <? priority_ (get st (nth m op neighbor_node))
      then Multiset.insert (NodeComparitor st) neighbor_node
             (Multiset.erase m op)
      else op
  | None => Multiset.insert (NodeComparitor st) neighbor_node op
  end.

(** The second half of the body: the closed-list test, the collision
    check that writes the candidate's [collision_prob_], and the
    open-set update. *)
Definition check_neighbor (fuel : nat) (s : PlanState) (next : NodePtr)
    (neighbor : Vector3d) (neighbor_node : NodePtr) : option PlanState :=
  if closed_count (store s) (closed s) neighbor_node then Some s
  else
    match CollisionCheck fuel (point_ (get (store s) next)) neighbor
            (time_ (get (store s) next))
            (time_ (get (store s) neighbor_node))
            (collision_prob_ (get (store s) neighbor_node)) with
    | None => None
    | Some (free, max_collision_prob, qs) =>
        let st' :=
          update (store s) neighbor_node
                 (fun n => set_collision_prob n max_collision_prob) in
        if negb free
        then Some (mkState st' (open s) (closed s) (queries s ++ qs))
        else Some (mkState st' (offer st' (open s) neighbor_node)
                           (closed s) (queries s ++ qs))
    end.

(** The whole body for one neighbour. *)
Definition visit_neighbor (fuel : nat) (next : NodePtr) (stop : Vector3d)
    (s : PlanState) (neighbor : Vector3d) : option PlanState :=
  let (st1, neighbor_node) :=
    create_neighbor (store s) next neighbor stop in
  check_neighbor fuel (mkState st1 (open s) (closed s) (queries s))
                 next neighbor neighbor_node.

(** [for (const Vector3d& neighbor : Neighbors(next->point_))] *)
Fixpoint visit_all (fuel : nat) (next : NodePtr) (stop : Vector3d)
    (s : PlanState) (neighbors : list Vector3d) : option PlanState :=
  match neighbors with
  | [] => Some s
  | neighbor :: rest =>
      match visit_neighbor fuel next stop s neighbor with
      | None => None
      | Some s' => visit_all fuel next stop s' rest
      end
  end.

(** What one pass through the body of [while (true)] ends with. *)
Inductive Pass : Set :=
| Return (result : option Trajectory) (s : PlanState)
| Continue (s : PlanState).

(** One pass through the body of the main loop, at its [k]-th
    evaluation of the clock. *)
Definition pass (fuel : nat) (stop : Vector3d) (budget : float)
    (k : nat) (s : PlanState) : option Pass :=
  if budget <? elapsed k then Some (Return None s)
  else
    match open s with
    | [] => Some (Return None s)
    | next :: open' =>
        if at_goal (point_ (get (store s) next)) stop then
          let (st', terminus) := connect_goal (store s) next stop in
          match GenerateTrajectory fuel st' terminus with
          | None => None
          | Some t =>
              Some (Return (Some t)
                      (mkState st' open' (closed s) (queries s)))
          end
        else
          let s1 :=
            mkState (store s) open' (closed_insert (store s) (closed s) next)
                    (queries s) in
          match Neighbors fuel (point_ (get (store s) next)) with
          | None => None
          | Some neighbors =>
              match visit_all fuel next stop s1 neighbors with
              | None => None
              | Some s' => Some (Continue s')
              end
          end
    end.

(** [while (true)] *)
Fixpoint main_loop (fuel : nat) (stop : Vector3d) (budget : float)
    (k : nat) (s : PlanState) : option (option Trajectory * PlanState) :=
  match fuel with
  | 0%nat => None
  | S fuel' =>
      match pass fuel' stop budget k s with
      | None => None
      | Some (Return result s') => Some (result, s')
      | Some (Continue s') => main_loop fuel' stop budget (S k) s'
      end
  end.

(** The state [Plan] enters its loop with: the start node, alone in
    the open set. *)
Definition initial (start stop : Vector3d) (start_time : float)
    : PlanState :=
  let start_cost := 0 in
  let start_heuristic := ComputeHeuristic start stop in
  let (st, start_node) :=
    Node_Create [] start None start_time start_cost start_heuristic in
  mkState st (Multiset.insert (NodeComparitor st) start_node []) [] [].

(** [Plan(start, stop, start_time, budget)]: the returned trajectory
    ([None] is [nullptr]) and the state the search ended in. *)
Definition Plan (fuel : nat) (start stop : Vector3d)
    (start_time budget : float)
    : option (option Trajectory * PlanState) :=
  main_loop fuel stop budget 0 (initial start stop start_time).


(** *** The samples of a segment walk

    The notions the statements about [CollisionCheck] are phrased
    with: the points and times the loop visits, in order, and the
    running maximum of a list of probabilities. *)

Definition step_point (direction q : Vector3d) : Vector3d :=
  vadd q (vscale collision_check_resolution_ direction).

Definition step_time (dt t : float) : float := t + dt.

(** The [k]-th sample of a walk that starts at [(q, t)]. *)
Definition sample (direction : Vector3d) (dt : float)
    (q : Vector3d) (t : float) (k : nat) : Query :=
  (Nat.iter k (step_point direction) q, Nat.iter k (step_time dt) t).

(** The first [n] samples. *)
Definition samples (direction : Vector3d) (dt : float)
    (q : Vector3d) (t : float) (n : nat) : list Query :=
  map (sample direction dt q t) (seq 0 n).

(** What the environment answers at a sample. *)
Definition sample_valid (s : Query) : bool :=
  fst (IsValid (fst s) incoming_value_ outgoing_value_ (snd s)).

Definition sample_prob (s : Query) : float :=
  snd (IsValid (fst s) incoming_value_ outgoing_value_ (snd s)).

(** The loop condition [time < stop_time] at a sample. *)
Definition in_window (stop_time : float) (s : Query) : bool :=
  snd s <? stop_time.

(** The running maximum of the probabilities [ps], from the value
    [m] the referenced double holds at the call. *)
Definition running_max (m : float) (ps : list float) : float :=
  fold_left raise_max ps m.

(** The samples of [CollisionCheck(start, stop, start_time,
    stop_time, _)]. *)
Definition check_sample (start stop : Vector3d)
    (start_time stop_time : float) (k : nat) : Query :=
  sample (segment_direction start stop)
         (segment_dt start stop start_time stop_time) start start_time k.

Definition check_samples (start stop : Vector3d)
    (start_time stop_time : float) (n : nat) : list Query :=
  samples (segment_direction start stop)
          (segment_dt start stop start_time stop_time) start start_time n.

(** *** The search as a sequence of passes

    The notions the statements about [Plan] are phrased with. *)

(** The trajectory [GenerateTrajectory] builds from the nodes of a
    walk, terminal node first. *)
Definition trajectory_through (ns : list Node) : Trajectory :=
  let positions := rev (map point_ ns) in
  let times := rev (map time_ ns) in
  let states := LiftGeometricTrajectory positions times in
  let values := repeat incoming_value_ (length states) in
  mkTrajectory times states values values.

(** The node [create_neighbor] builds, as [Node::Create] leaves
    it. *)
Definition candidate (st : Store) (next : NodePtr)
    (neighbor stop : Vector3d) : Node :=
  get (fst (create_neighbor st next neighbor stop)) (length st).

(** The node [connect_goal] builds. *)
Definition terminus_node (st : Store) (next : NodePtr) (stop : Vector3d)
    : Node :=
  get (fst (connect_goal st next stop)) (length st).

(** [Chain st n ns]: [ns] are the nodes on the parent chain of
    [n], from [n] to the root. *)
Inductive Chain (st : Store) : option NodePtr -> list Node -> Prop :=
| Chain_root : Chain st None []
| Chain_step (p : NodePtr) (ns : list Node) :
    Chain st (parent_ (get st p)) ns ->
    Chain st (Some p) (get st p :: ns).

(** [Reaches start stop start_time budget k s]: the main loop of
    [Plan(start, stop, start_time, budget)] begins its [k]-th pass
    in state [s]. *)
Inductive Reaches (start stop : Vector3d) (start_time budget : float)
    : nat -> PlanState -> Prop :=
| Reaches_initial :
    Reaches start stop start_time budget 0
            (initial start stop start_time)
| Reaches_pass (k fuel : nat) (s s' : PlanState) :
    Reaches start stop start_time budget k s ->
    pass fuel stop budget k s = Some (Continue s') ->
    Reaches start stop start_time budget (S k) s'.

(** A store is well founded when every parent pointer points to a
    node allocated earlier. *)
Definition wf_store (st : Store) : Prop :=
  forall p q, p < length st -> parent_ (get st p) = Some q -> q < p.

(** The node the terminus is parented to. *)
Definition goal_parent (st : Store) (next : NodePtr) : NodePtr :=
  match parent_ (get st next) with
  | None => next
  | Some p => p
  end.

(** The nodes a pass allocates while it expands [next]: candidates
    for neighbours of [next], with some value written to their
    [collision_prob_]. *)
Definition child_of (st : Store) (next : NodePtr) (stop : Vector3d)
    (n : Node) : Prop :=
  exists neighbor m,
    n = set_collision_prob (candidate st next neighbor stop) m.

(** The state of a search is well formed when its store is well
    founded and the open set holds allocated nodes only. *)
Definition wf_state (s : PlanState) : Prop :=
  wf_store (store s)
  /\ forall p, In p (open s) -> p < length (store s).

(** Arrival times along the parent pointers of a store: every node
    with a parent arrives no earlier than its parent. *)
Definition monotone_store (st : Store) : Prop :=
  forall p q, (p < length st)%nat -> parent_ (get st p) = Some q ->
    (time_ (get st q) <=? time_ (get st p)) = true.

(** Every arrival time of a store is a number above minus infinity. *)
Definition timed_store (st : Store) : Prop :=
  forall p, (p < length st)%nat -> (neg_infinity <? time_ (get st p)) = true.

(** The three together. *)
Definition sound_store (st : Store) : Prop :=
  wf_store st /\ timed_store st /\ monotone_store st.

(** A sequence of times that never decreases from one element to the
    next. *)
Definition non_decreasing (ts : list float) : Prop :=
  Sorted (fun a b => (a <=? b) = true) ts.

(** The store of a search from [start] at [start_time]: its first node
    is the start node, the one node without a parent. *)
Definition rooted_store (start : Vector3d) (start_time : float)
    (st : Store) : Prop :=
  (0 < length st)%nat
  /\ point_ (get st 0) = start
  /\ time_ (get st 0) = start_time
  /\ cost_to_come_ (get st 0) = 0
  /\ parent_ (get st 0) = None
  /\ forall p, (0 < p < length st)%nat -> parent_ (get st p) <> None.

(** Costs along the parent pointers of a store: the cost to come of a
    node is that of its parent plus the length of the segment between
    them, and its priority is its cost to come plus its heuristic. *)
Definition priced_store (st : Store) : Prop :=
  forall p, (p < length st)%nat ->
    priority_ (get st p) = cost_to_come_ (get st p) + heuristic_ (get st p)
    /\ forall q, parent_ (get st p) = Some q ->
         cost_to_come_ (get st p)
         = cost_to_come_ (get st q)
           + norm (vsub (point_ (get st q)) (point_ (get st p))).

(** The open set and the closed list as sets of pointers: no pointer
    is open twice, none is both open and closed, all are allocated. *)
Definition tidy_state (s : PlanState) : Prop :=
  NoDup (open s)
  /\ (forall p, In p (open s) -> (p < length (store s))%nat)
  /\ (forall p, In p (closed s) -> (p < length (store s))%nat)
  /\ (forall p, In p (open s) -> ~ In p (closed s)).

(** The length of a path through the given points, summed segment by
    segment from its first point, as the costs to come add it up. *)
Fixpoint path_length_from (acc : float) (p : Vector3d)
    (rest : list Vector3d) : float :=
  match rest with
  | [] => acc
  | q :: rest' => path_length_from (acc + norm (vsub p q)) q rest'
  end.

Definition path_length (ps : list Vector3d) : float :=
  match ps with
  | [] => 0
  | p :: rest => path_length_from 0 p rest
  end.

(** *** Checked edges

    [Vetted st p]: the node [p] is the start node, or hangs off a
    vetted node by an edge for which [CollisionCheck], called as [Plan]
    calls it on a fresh node, answered [true] and left the node's
    [collision_prob_]. *)
Inductive Vetted (st : Store) : NodePtr -> Prop :=
| Vetted_root : (0 < length st)%nat -> Vetted st 0%nat
| Vetted_edge (p q : NodePtr) (fuel : nat) (qs : list Query) :
    (p < length st)%nat ->
    parent_ (get st p) = Some q ->
    Vetted st q ->
    CollisionCheck fuel (point_ (get st q)) (point_ (get st p))
                   (time_ (get st q)) (time_ (get st p)) 0
    = Some (true, collision_prob_ (get st p), qs) ->
    Vetted st p.

(** The same of the nodes of a walk towards the root: each but the
    last hangs off the next by a checked edge. *)
Fixpoint checked_path (ns : list Node) : Prop :=
  match ns with
  | n :: rest =>
      match rest with
      | q :: _ =>
          (exists fuel qs,
             CollisionCheck fuel (point_ q) (point_ n) (time_ q) (time_ n) 0
             = Some (true, collision_prob_ n, qs))
          /\ checked_path rest
      | [] => True
      end
  | [] => True
  end.

(** The open set in the order of its comparator: no element is less
    than one before it. *)
Definition by_priority (st : Store) (op : list NodePtr) : Prop :=
  StronglySorted (fun a b => NodeComparitor st b a = false) op.

(** *** The grid of [Neighbors] *)

(** The value of the loop variable of [for (x = lo; ...; x += step)]
    after [i] increments. *)
Definition axis_value (lo step : float) (i : nat) : float :=
  Nat.iter i (fun x => x + step) lo.

Definition axis_values (lo step : float) (n : nat) : list float :=
  map (axis_value lo step) (seq 0 n).

(** The loop condition [x < hi] holds of the first [n] values and
    fails of the next. *)
Definition axis_stops_after (lo hi step : float) (n : nat) : bool :=
  forallb (fun i => axis_value lo step i <? hi) (seq 0 n)
  && negb (axis_value lo step n <? hi).

(** The loop of [Neighbors] along one coordinate [c] makes [n]
    rounds. *)
Definition rounds (c : float) (n : nat) : bool :=
  axis_stops_after (c - grid_resolution_)
                   (c + grid_resolution_ + 1e-8) grid_resolution_ n.

Definition round_values (c : float) (n : nat) : list float :=
  axis_values (c - grid_resolution_) grid_resolution_ n.

(** The points pushed by three nested loops over [xs], [ys], [zs]. *)
Definition grid (xs ys zs : list float) : list Vector3d :=
  flat_map (fun x => flat_map (fun y => map (fun z => Vec3 x y z) zs) ys) xs.

End Planner.

(** Two key equalities for the closed set: the equality of the
    pointers themselves, which [std::unordered_set<Node::Ptr,
    NodeHasher>] compares its keys with when the pointers are given no
    equality of their own, and the equality that never holds. *)
Definition pointer_equal (st : Store) (a b : NodePtr) : bool :=
  Nat.eqb a b.

Definition never_equal (st : Store) (a b : NodePtr) : bool :=
  false.

End TimeVaryingAStar.

(* ------------------------------------------------------------------ *)
(** ** TimeVaryingRrt *)

Module TimeVaryingRrt.

Local Open Scope float_scope.

(** Modelled from the spec: the node of the tree, from
    meta_planner/time_varying_rrt.h, which is not part of the sources
    at hand; [Plan] builds it with [Node::Create(point, parent, time)]
    and reads [point_] and [time_].  The nodes are held through
    pointers to const, so a node is a value here. *)
Inductive Node : Set :=
| Node_Create (point : Vector3d) (parent : option Node) (time : float).

Definition point_ (n : Node) : Vector3d :=
  match n with Node_Create p _ _ => p end.

Definition parent_ (n : Node) : option Node :=
  match n with Node_Create _ q _ => q end.

Definition time_ (n : Node) : float :=
  match n with Node_Create _ _ t => t end.

(** The texts [Plan] logs. *)
Module Messages.
Import String.
Local Open Scope string_scope.
Definition start_invalid : string :=
  "TimeVaryingRrt: Start point was in collision or out of bounds.".
Definition stop_invalid : string :=
  "TimeVaryingRrt: Stop point was in collision or out of bounds.".
Definition wrong_neighbors : string :=
  "TimeVaryingRrt: KnnSearch found the wrong number of neighbors.".
End Messages.

(** What [Plan] hands to the logger. *)
Inductive Event : Set :=
| WARN_THROTTLE (period : float) (message : String.string)
| ERROR (message : String.string).

(** What a call of [Plan] leaves behind: the returned pointer ([None]
    is [nullptr]), the kd-tree, the log, and how many times the
    sampler and the clock of the loop condition were used. *)
Record Outcome : Set := mkOutcome {
  result : option Trajectory;
  kdtree : list Node;
  log : list Event;
  samples : nat;
  clock_reads : nat
}.

Section Planner.

Variable incoming_value_ outgoing_value_ : ValueFunctionId.

(** [space_->IsValid(position, incoming, outgoing)] of Box: validity
    with no time argument. *)
Variable IsValid : Vector3d -> ValueFunctionId -> ValueFunctionId -> bool.

(** [space_.Sample()]: the [k]-th point drawn. *)
Variable Sample : nat -> Vector3d.

(** [kdtree_.KnnSearch(query, k)] on a tree holding the given
    nodes. *)
Variable KnnSearch : list Node -> Vector3d -> nat -> list Node.

(** [BestPossibleTime(from, to)] of the Planner base class. *)
Variable BestPossibleTime : Vector3d -> Vector3d -> float.

(** [(ros::Time::now() - begin).toSec()] at the [k]-th evaluation of
    the loop condition. *)
Variable elapsed : nat -> float.

(** Whether the sources are compiled with [ENABLE_DEBUG_MESSAGES]. *)
Variable ENABLE_DEBUG_MESSAGES : bool.

(** [CollisionCheck(start, stop, start_time)]; the calls in [Plan]
    pass the arrival time as well, for which the definition has no
    parameter. *)
Definition CollisionCheck (start stop : Vector3d) (start_time : float)
    : bool :=
  false.

Definition kNumNeigbhbors : nat := 1.

(** [while ((ros::Time::now() - begin).toSec() < budget)], followed
    by the [return nullptr] after it.  [None] when the fuel runs out
    or when [neighbors[0]] is read from an empty vector. *)
Fixpoint sampling_loop (fuel : nat) (stop : Vector3d) (budget : float)
    (k : nat) (tree : list Node) : option Outcome :=
  if elapsed k <? budget then
    match fuel with
    | 0%nat => None
    | S fuel' =>
        let sample := Sample k in
        let neighbors := KnnSearch tree sample kNumNeigbhbors in
        if ENABLE_DEBUG_MESSAGES
           && negb (Nat.eqb (length neighbors) kNumNeigbhbors)
        then
          Some (mkOutcome None tree
                  [ERROR Messages.wrong_neighbors]
                  (S k) (S k))
        else
          match neighbors with
          | [] => None
          | nearest :: _ =>
              let sample_time :=
                time_ nearest
                + BestPossibleTime (point_ nearest) sample in
              if negb (CollisionCheck (point_ nearest) sample
                                      (time_ nearest))
              then sampling_loop fuel' stop budget (S k) tree
              else
                let sample_node :=
                  Node_Create sample (Some nearest) sample_time in
                let tree' := tree ++ [sample_node] in
                let stop_time :=
                  sample_time + BestPossibleTime sample stop in
                if negb (CollisionCheck sample stop sample_time)
                then sampling_loop fuel' stop budget (S k) tree'
                else sampling_loop fuel' stop budget (S k) tree'
          end
    end
  else Some (mkOutcome None tree [] k (S k)).

(** [Plan(start, stop, start_time, budget)], on a planner whose
    kd-tree holds [tree]. *)
Definition Plan (fuel : nat) (tree : list Node) (start stop : Vector3d)
    (start_time budget : float) : option Outcome :=
  if negb (IsValid start incoming_value_ outgoing_value_) then
    Some (mkOutcome None tree
            [WARN_THROTTLE 1 Messages.start_invalid]
            0 0)
  else if negb (IsValid stop incoming_value_ outgoing_value_) then
    Some (mkOutcome None tree
            [WARN_THROTTLE 1 Messages.stop_invalid]
            0 0)
  else
    let root := Node_Create start None start_time in
    sampling_loop fuel stop budget 0 (tree ++ [root]).

(** The root a call of [Plan] inserts into the kd-tree: none when an
    endpoint is invalid. *)
Definition planted (start stop : Vector3d) (start_time : float)
    : list Node :=
  if IsValid start incoming_value_ outgoing_value_
     && IsValid stop incoming_value_ outgoing_value_
  then [Node_Create start None start_time]
  else [].

End Planner.

End TimeVaryingRrt.

(* ------------------------------------------------------------------ *)
(** ** A small world to run the planners in *)

Module Example.

Import TimeVaryingAStar.
Local Open Scope float_scope.

Definition incoming : ValueFunctionId := 1%N.
Definition outgoing : ValueFunctionId := 2%N.

(** Free space: every position is valid at every time, with collision
    probability a quarter. *)
Definition free_space (p : Vector3d) (i o : ValueFunctionId) (t : float)
    : bool * float :=
  (true, 0.25).

(** A wall: the positions with [x >= 0.75] are invalid; the collision
    probability at a position is its [x]. *)
Definition wall (p : Vector3d) (i o : ValueFunctionId) (t : float)
    : bool * float :=
  (vx p <? 0.75, vx p).

(** Dynamics that move at unit speed along straight lines: the time is
    the distance, and infinite where the distance is not a number. *)
Definition unit_speed (p q : Vector3d) : float :=
  let d := norm (vsub q p) in
  if 0 <=? d then d else infinity.

(** A lift that keeps the coordinates. *)
Definition coordinates (ps : list Vector3d) (ts : list float)
    : list VectorXd :=
  map (fun p => [vx p; vy p; vz p]) ps.

(** A clock that stands still, as a simulated clock does between two
    ticks, and a clock that has advanced by a millisecond at each
    reading. *)
Definition frozen_clock (k : nat) : float := 0.
Definition running_clock (k : nat) : float :=
  0.0009765625 * of_uint63 (Uint63.of_Z (Z.of_nat (S k))).

(** The key equality of the closed set: [Plan] declares it as
    [std::unordered_set<Node::Ptr, typename Node::NodeHasher>], with
    no equality of its own, so its keys are compared as pointers. *)
Definition same_pointer (st : Store) (a b : NodePtr) : bool :=
  Nat.eqb a b.

(** The planner of the examples: grid cells of side 1, collision
    checks every half. *)
Definition Plan (clock : nat -> float)
    (closed_equal : Store -> NodePtr -> NodePtr -> bool) :=
  TimeVaryingAStar.Plan incoming outgoing 1 0.5 free_space unit_speed
    coordinates clock closed_equal.

Definition pass (clock : nat -> float)
    (closed_equal : Store -> NodePtr -> NodePtr -> bool) :=
  TimeVaryingAStar.pass incoming outgoing 1 0.5 free_space unit_speed
    coordinates clock closed_equal.

Definition origin : Vector3d := Vec3 0 0 0.
Definition two_cells_east : Vector3d := Vec3 2 0 0.
Definition one_cell_east : Vector3d := Vec3 1 0 0.
Definition near_origin : Vector3d := Vec3 0.25 0 0.

(** The collision check of the examples: against the wall, a sample
    every quarter. *)
Definition CollisionCheck :=
  TimeVaryingAStar.CollisionCheck incoming outgoing 0.25 wall.

(** The state in which the first pass of
    [Plan(origin, two_cells_east, 0, _)] visits its neighbours: the
    start node popped and closed. *)
Definition start_popped : PlanState :=
  mkState (store (initial unit_speed origin two_cells_east 0)) [] [0%nat] [].

(** For the RRT: an environment in which the positions with
    [x >= 0.75] are invalid, a sampler that draws the origin, a kd-tree
    that answers with the first nodes it holds. *)
Definition west_of_wall (p : Vector3d) (i o : ValueFunctionId) : bool :=
  vx p <? 0.75.
Definition open_field (p : Vector3d) (i o : ValueFunctionId) : bool := true.
Definition draw_origin (k : nat) : Vector3d := origin.
Definition first_nodes (tree : list TimeVaryingRrt.Node) (q : Vector3d)
    (k : nat) : list TimeVaryingRrt.Node :=
  firstn k tree.

Definition RrtPlan (valid : Vector3d -> ValueFunctionId -> ValueFunctionId -> bool) :=
  TimeVaryingRrt.Plan incoming outgoing valid draw_origin first_nodes
    unit_speed running_clock false.

(** Dynamics that move at half the speed: the time is twice the
    distance, and infinite where that is not a number.  The planner of the examples with them: its heuristic
    weighs the way still to go twice. *)
Definition half_speed (p q : Vector3d) : float :=
  let t := 2 * norm (vsub q p) in
  if 0 <=? t then t else infinity.

Definition PlanSlow (clock : nat -> float)
    (closed_equal : Store -> NodePtr -> NodePtr -> bool) :=
  TimeVaryingAStar.Plan incoming outgoing 1 0.5 free_space half_speed
    coordinates clock closed_equal.

(** An environment with no valid position at all, and the planner of
    the examples in it. *)
Definition blocked (p : Vector3d) (i o : ValueFunctionId) (t : float)
    : bool * float :=
  (false, 1).

Definition PlanBlocked (clock : nat -> float)
    (closed_equal : Store -> NodePtr -> NodePtr -> bool) :=
  TimeVaryingAStar.Plan incoming outgoing 1 0.5 blocked unit_speed
    coordinates clock closed_equal.

(** A point so far east that a hundred-millionth is lost when added to
    its first coordinate. *)
Definition far_east : Vector3d := Vec3 1073741824 0 0.

(** For the RRT: a kd-tree that finds no neighbour, and the planners
    compiled with the debug messages and without. *)
Definition no_neighbors (tree : list TimeVaryingRrt.Node) (q : Vector3d)
    (k : nat) : list TimeVaryingRrt.Node :=
  [].

Definition RrtPlanDebug
    (search : list TimeVaryingRrt.Node -> Vector3d -> nat
              -> list TimeVaryingRrt.Node) :=
  TimeVaryingRrt.Plan incoming outgoing open_field draw_origin search
    unit_speed running_clock true.

Definition RrtPlanLost :=
  TimeVaryingRrt.Plan incoming outgoing open_field draw_origin no_neighbors
    unit_speed running_clock false.

End Example.

(* ================================================================== *)
(** * Properties *)

(** ** Order facts of binary64 comparison *)

Module FloatOrder.

Lemma SFcompare_antisym (x y : spec_float) :
  SFcompare y x = option_map CompOpp (SFcompare x y).
Proof.
  destruct x as [sx|sx| |sx mx ex], y as [sy|sy| |sy my ey];
    try destruct sx; try destruct sy; simpl; try reflexivity.
  all: rewrite (Z.compare_antisym ex ey);
    destruct (ex ?= ey)%Z; simpl; try reflexivity;
    rewrite (Pos.compare_cont_antisym mx my Eq); reflexivity.
Qed.

(** [b <= a] excludes [a < b]. *)
Lemma leb_not_ltb (a b : float) :
  (b <=? a)%float = true -> (a <? b)%float = false.
Proof.
  rewrite leb_spec, ltb_spec. unfold SFleb, SFltb.
  rewrite (SFcompare_antisym (Prim2SF a) (Prim2SF b)).
  destruct (SFcompare (Prim2SF a) (Prim2SF b)) as [[ | | ]|];
    simpl; congruence.
Qed.

(** [a < b] excludes [b < a]. *)
Lemma ltb_asym (a b : float) :
  (a <? b)%float = true -> (b <? a)%float = false.
Proof.
  rewrite !ltb_spec. unfold SFltb.
  rewrite (SFcompare_antisym (Prim2SF a) (Prim2SF b)).
  destruct (SFcompare (Prim2SF a) (Prim2SF b)) as [[ | | ]|];
    simpl; congruence.
Qed.

Lemma ltb_irrefl (a : float) : (a <? a)%float = false.
Proof.
  destruct (a <? a)%float eqn:E; [|reflexivity].
  now rewrite (ltb_asym _ _ E) in E.
Qed.

End FloatOrder.

(* ------------------------------------------------------------------ *)
(** ** Binary64 addition of a duration

    From the specification of the primitive floats: the sum of a time
    and a non-negative duration, rounded, is not below the time.  The
    argument follows the rounding of the sum: its mantissa is shifted
    to the exponent the format asks for, rounded to nearest, and the
    canonical float of the time is still below or at the result. *)

Module FloatAdd.

Local Open Scope Z_scope.

Lemma digits2_pos_bounds (m : positive) :
  2 ^ (Zpos (digits2_pos m) - 1) <= Zpos m < 2 ^ Zpos (digits2_pos m).
Proof.
  induction m as [m IH|m IH|]; simpl digits2_pos.
  - rewrite Pos2Z.inj_succ.
    replace (Z.succ (Zpos (digits2_pos m)) - 1) with (Z.succ (Zpos (digits2_pos m) - 1)) by lia.
    rewrite !Z.pow_succ_r by lia. lia.
  - rewrite Pos2Z.inj_succ.
    replace (Z.succ (Zpos (digits2_pos m)) - 1) with (Z.succ (Zpos (digits2_pos m) - 1)) by lia.
    rewrite !Z.pow_succ_r by lia. lia.
  - simpl. lia.
Qed.

Lemma shr_m_shr_1 (r : shr_record) :
  0 <= shr_m r -> shr_m (shr_1 r) = shr_m r / 2.
Proof.
  destruct r as [m rb sb]. simpl. intro H.
  rewrite <- Z.div2_div.
  destruct m as [|[p|p|]|p]; simpl; try reflexivity; lia.
Qed.

Lemma iter_pos_shr_m (p : positive) :
  forall r, 0 <= shr_m r ->
    shr_m (iter_pos shr_1 p r) = shr_m r / 2 ^ Zpos p.
Proof.
  induction p as [p IH|p IH|]; intros r H; simpl iter_pos.
  - assert (H1 : 0 <= shr_m (shr_1 r)).
    { rewrite shr_m_shr_1 by exact H. apply Z.div_pos; lia. }
    assert (H2 : 0 <= shr_m (iter_pos shr_1 p (shr_1 r))).
    { rewrite IH by exact H1. apply Z.div_pos; [exact H1|]. apply Z.pow_pos_nonneg; lia. }
    rewrite IH, IH, shr_m_shr_1 by assumption.
    rewrite !Z.div_div by (first [apply Z.pow_pos_nonneg; lia | apply Z.pow_nonzero; lia | lia]).
    f_equal. rewrite Pos2Z.inj_xI.
    replace (2 * Zpos p + 1) with (1 + Zpos p + Zpos p) by lia.
    rewrite !Z.pow_add_r by lia. rewrite Z.pow_1_r. ring.
  - assert (H2 : 0 <= shr_m (iter_pos shr_1 p r)).
    { rewrite IH by exact H. apply Z.div_pos; [exact H|]. apply Z.pow_pos_nonneg; lia. }
    rewrite IH, IH by assumption.
    rewrite Z.div_div by (first [apply Z.pow_pos_nonneg; lia | apply Z.pow_nonzero; lia]).
    f_equal. rewrite Pos2Z.inj_xO.
    rewrite <- Z.pow_add_r by lia. f_equal. lia.
  - rewrite shr_m_shr_1 by exact H. reflexivity.
Qed.


Local Notation fexp := (SpecFloat.fexp prec emax).
Local Notation emin := (SpecFloat.emin prec emax).

Lemma Zdigits2_bounds (m : Z) :
  0 < m -> 2 ^ (Zdigits2 m - 1) <= m < 2 ^ Zdigits2 m.
Proof.
  destruct m as [|p|p]; try lia. intros _. apply digits2_pos_bounds.
Qed.

Lemma shl_align_value (mx : positive) (ex ez : Z) :
  ez <= ex ->
  Zpos (fst (shl_align mx ex ez)) = Zpos mx * 2 ^ (ex - ez).
Proof.
  intro H. unfold shl_align.
  destruct (ez - ex) as [|d|d] eqn:E; simpl fst.
  - replace (ex - ez) with 0 by lia. simpl. lia.
  - lia.
  - replace (ex - ez) with (Zpos d) by lia.
    change (Pos.iter xO mx d) with (shift_pos d mx).
    rewrite shift_pos_correct. change (Z.pow_pos 2 d) with (2 ^ Zpos d). lia.
Qed.

Lemma shr_1_even (m : Z) :
  0 <= m ->
  shr_1 (Build_shr_record (2 * m) false false) = Build_shr_record m false false.
Proof. destruct m as [|q|q]; simpl; try reflexivity; lia. Qed.

Lemma pow2_xO (p : positive) : 2 ^ Zpos p~0 = 2 ^ Zpos p * 2 ^ Zpos p.
Proof. rewrite <- Z.pow_add_r by lia. f_equal. lia. Qed.

Lemma pow2_xI (p : positive) :
  2 ^ Zpos p~1 = 2 * (2 ^ Zpos p * 2 ^ Zpos p).
Proof.
  rewrite <- Z.pow_add_r by lia. rewrite <- Z.pow_succ_r by lia.
  f_equal. lia.
Qed.

Lemma iter_pos_shr_even (p : positive) :
  forall m, 0 <= m ->
    iter_pos shr_1 p (Build_shr_record (2 ^ Zpos p * m) false false)
    = Build_shr_record m false false.
Proof.
  induction p as [p IH|p IH|]; intros m Hm; cbn [iter_pos].
  - assert (0 < 2 ^ Zpos p) by (apply Z.pow_pos_nonneg; lia).
    rewrite pow2_xI.
    replace (2 * (2 ^ Zpos p * 2 ^ Zpos p) * m)
      with (2 * (2 ^ Zpos p * (2 ^ Zpos p * m))) by ring.
    rewrite shr_1_even by nia. rewrite IH by nia. now apply IH.
  - assert (0 < 2 ^ Zpos p) by (apply Z.pow_pos_nonneg; lia).
    rewrite pow2_xO.
    replace (2 ^ Zpos p * 2 ^ Zpos p * m)
      with (2 ^ Zpos p * (2 ^ Zpos p * m)) by ring.
    rewrite IH by nia. now apply IH.
  - change (2 ^ 1) with 2. now apply shr_1_even.
Qed.

(** Shifting an exact mantissa right to the exponent the format asks
    for: the exponent reached, the mantissa left, and no rounding
    information when nothing was shifted out. *)
Lemma shr_fexp_exact (m e : Z) :
  0 <= m ->
  exists r e',
    shr_fexp prec emax m e loc_Exact = (r, e')
    /\ e' = Z.max e (fexp (Zdigits2 m + e))
    /\ shr_m r = m / 2 ^ (e' - e)
    /\ (m = 2 ^ (e' - e) * (m / 2 ^ (e' - e)) ->
        loc_of_shr_record r = loc_Exact).
Proof.
  intro Hm. unfold shr_fexp, shr. simpl shr_record_of_loc.
  destruct (fexp (Zdigits2 m + e) - e) as [|p|p] eqn:E.
  - eexists. eexists. split; [reflexivity|]. split; [lia|].
    simpl shr_m. rewrite Z.sub_diag. simpl. rewrite Z.div_1_r. auto.
  - eexists. eexists. split; [reflexivity|]. split; [lia|].
    rewrite iter_pos_shr_m by exact Hm. simpl shr_m.
    replace (e + Zpos p - e) with (Zpos p) by lia.
    split; [reflexivity|].
    intro Hexact. rewrite Hexact at 1.
    rewrite iter_pos_shr_even; [reflexivity|].
    apply Z.div_pos; [exact Hm|apply Z.pow_pos_nonneg; lia].
  - eexists. eexists. split; [reflexivity|]. split; [lia|].
    simpl shr_m. rewrite Z.sub_diag. simpl. rewrite Z.div_1_r. auto.
Qed.

Lemma round_nearest_even_le (m : Z) (l : location) :
  round_nearest_even m l <= m + 1.
Proof.
  destruct l as [|[ | | ]]; simpl; try lia.
  destruct (Z.even m); lia.
Qed.

(** The number of digits of a scaled mantissa against another. *)
Lemma Zdigits2_le_scaled (a b k : Z) :
  0 < a -> 0 < b -> 0 <= k -> a <= b * 2 ^ k ->
  Zdigits2 a <= Zdigits2 b + k.
Proof.
  intros Ha Hb Hk Hle.
  pose proof (Zdigits2_bounds a Ha) as [Hlow _].
  pose proof (Zdigits2_bounds b Hb) as [_ Hup].
  assert (Hdb : 0 <= Zdigits2 b) by (destruct b; simpl; lia).
  assert (H : 2 ^ (Zdigits2 a - 1) < 2 ^ (Zdigits2 b + k)).
  { rewrite Z.pow_add_r by lia.
    eapply Z.le_lt_trans; [exact Hlow|].
    eapply Z.le_lt_trans; [exact Hle|].
    apply Z.mul_lt_mono_pos_r; [apply Z.pow_pos_nonneg; lia|exact Hup]. }
  apply Z.pow_lt_mono_r_iff in H; lia.
Qed.

Lemma Zdigits2_scaled_le (a b k : Z) :
  0 < a -> 0 < b -> 0 <= k -> a * 2 ^ k <= b ->
  Zdigits2 a + k <= Zdigits2 b.
Proof.
  intros Ha Hb Hk Hle.
  pose proof (Zdigits2_bounds a Ha) as [Hlow _].
  pose proof (Zdigits2_bounds b Hb) as [_ Hup].
  assert (Hda : 0 < Zdigits2 a) by (destruct a; simpl; lia).
  assert (H : 2 ^ (Zdigits2 a - 1 + k) < 2 ^ Zdigits2 b).
  { rewrite Z.pow_add_r by lia.
    eapply Z.le_lt_trans; [|exact Hup].
    eapply Z.le_trans; [|exact Hle].
    apply Z.mul_le_mono_nonneg_r; [apply Z.pow_nonneg; lia|exact Hlow]. }
  apply Z.pow_lt_mono_r_iff in H; [lia|lia|].
  destruct b; simpl; lia.
Qed.

Lemma round_nearest_even_ge (m : Z) (l : location) :
  m <= round_nearest_even m l.
Proof.
  destruct l as [|[ | | ]]; simpl; try lia.
  destruct (Z.even m); lia.
Qed.

(** Rounding a positive mantissa that is at least a canonical float
    gives that float or more. *)
Lemma binary_round_lower (mx : positive) (ex : Z) (mz : positive) (ez : Z) :
  fexp (Zpos (digits2_pos mx) + ex) = ex ->
  emin <= ez <= ex ->
  Zpos mx * 2 ^ (ex - ez) <= Zpos mz ->
  binary_round prec emax false mz ez = S754_infinity false
  \/ exists m4 e4,
       binary_round prec emax false mz ez = S754_finite false m4 e4
       /\ (ex < e4 \/ (ex = e4 /\ Zpos mx <= Zpos m4)).
Proof.
  intros Hcan [Hemin Hez] Hle.
  pose proof (digits2_pos_bounds mx) as [Hdx _].
  pose proof (digits2_pos_bounds mz) as [_ Hdz].
  set (dx := Zpos (digits2_pos mx)) in *.
  set (dz := Zpos (digits2_pos mz)) in *.
  assert (Hd : dx + (ex - ez) <= dz).
  { assert (H : 2 ^ (dx - 1 + (ex - ez)) < 2 ^ dz).
    { rewrite Z.pow_add_r by lia.
      eapply Z.le_lt_trans; [|exact Hdz].
      eapply Z.le_trans; [|exact Hle].
      apply Z.mul_le_mono_nonneg_r; [apply Z.pow_nonneg; lia|exact Hdx]. }
    apply Z.pow_lt_mono_r_iff in H; lia. }
  assert (HE : ex <= fexp (dz + ez)).
  { unfold SpecFloat.fexp in *. lia. }
  unfold binary_round.
  fold dz.
  assert (Hshl : shl_align mz ez (fexp (dz + ez)) = (mz, ez)).
  { unfold shl_align. destruct (fexp (dz + ez) - ez) eqn:E; try reflexivity. lia. }
  rewrite Hshl. unfold binary_round_aux.
  destruct (shr_fexp_exact (Zpos mz) ez ltac:(lia)) as (r1 & e1 & Hr1 & He1 & Hm1 & _).
  rewrite Hr1. simpl Zdigits2 in He1. fold dz in He1.
  assert (He1' : e1 = fexp (dz + ez)) by lia.
  set (m3 := round_nearest_even (shr_m r1) (loc_of_shr_record r1)).
  assert (Hm2pos : 0 < shr_m r1).
  { rewrite Hm1. apply Z.div_str_pos. split; [apply Z.pow_pos_nonneg; lia|].
    destruct (Z.eq_dec e1 ez) as [->|Hne].
    - rewrite Z.sub_diag. simpl. lia.
    - assert (e1 - ez = dz - 53). { unfold SpecFloat.fexp, SpecFloat.emin, prec, emax in *. lia. }
      pose proof (digits2_pos_bounds mz) as [Hlow _]. fold dz in Hlow.
      eapply Z.le_trans; [|exact Hlow].
      apply Z.pow_le_mono_r; lia. }
  assert (Hm3 : shr_m r1 <= m3) by apply round_nearest_even_ge.
  destruct (shr_fexp_exact m3 e1 ltac:(lia)) as (r2 & e2 & Hr2 & He2 & Hm2 & _).
  rewrite Hr2.
  assert (Hm4pos : 0 < shr_m r2).
  { rewrite Hm2. apply Z.div_str_pos. split; [apply Z.pow_pos_nonneg; lia|].
    destruct (Z.eq_dec e2 e1) as [->|Hne].
    - rewrite Z.sub_diag. simpl. lia.
    - assert (e2 - e1 = Zdigits2 m3 - 53). { unfold SpecFloat.fexp, SpecFloat.emin, prec, emax in *. lia. }
      pose proof (Zdigits2_bounds m3 ltac:(lia)) as [Hlow _].
      eapply Z.le_trans; [|exact Hlow].
      apply Z.pow_le_mono_r; lia. }
  destruct (shr_m r2) as [|m4|m4] eqn:Em4; try lia.
  destruct (e2 <=? emax - prec); [|now left].
  right. exists m4, e2. split; [reflexivity|].
  destruct (Z.eq_dec e2 ex) as [Heq|Hne]; [|left; lia].
  right. split; [lia|].
  replace (e2 - e1) with 0 in Hm2 by lia.
  simpl in Hm2. rewrite Z.div_1_r in Hm2. rewrite Hm2.
  eapply Z.le_trans; [|exact Hm3].
  rewrite Hm1. apply Z.div_le_lower_bound; [apply Z.pow_pos_nonneg; lia|].
  replace (e1 - ez) with (ex - ez) by lia. lia.
Qed.


(** Rounding a positive mantissa that is at most a canonical float
    gives a finite float that is that float or less. *)
Lemma binary_round_upper (s : bool) (mx : positive) (ex : Z)
    (mz : positive) (ez : Z) :
  fexp (Zpos (digits2_pos mx) + ex) = ex ->
  ex <= emax - prec ->
  emin <= ez <= ex ->
  Zpos mz <= Zpos mx * 2 ^ (ex - ez) ->
  exists m4 e4,
    binary_round prec emax s mz ez = S754_finite s m4 e4
    /\ (e4 < ex \/ (e4 = ex /\ Zpos m4 <= Zpos mx)).
Proof.
  intros Hcan Hmax [Hemin Hez] Hle.
  change (Zpos (digits2_pos mx)) with (Zdigits2 (Zpos mx)) in Hcan.
  assert (Hd : Zdigits2 (Zpos mz) <= Zdigits2 (Zpos mx) + (ex - ez)).
  { apply Zdigits2_le_scaled; lia. }
  assert (HE : fexp (Zdigits2 (Zpos mz) + ez) <= ex).
  { unfold SpecFloat.fexp in *. lia. }
  unfold binary_round.
  change (Zpos (digits2_pos mz)) with (Zdigits2 (Zpos mz)).
  set (E0 := fexp (Zdigits2 (Zpos mz) + ez)) in *.
  destruct (Z_lt_le_dec E0 ez) as [Hlt|Hge].
  - (* few digits: the mantissa is shifted left, and nothing is rounded *)
    unfold shl_align.
    destruct (E0 - ez) as [|k|d] eqn:Ek; try lia.
    set (m1 := Pos.iter xO mz d).
    assert (Hm1 : Zpos m1 = Zpos mz * 2 ^ Zpos d).
    { unfold m1. change (Pos.iter xO mz d) with (shift_pos d mz).
      rewrite shift_pos_correct. change (Z.pow_pos 2 d) with (2 ^ Zpos d). lia. }
    assert (Hd1 : Zdigits2 (Zpos m1) = Zdigits2 (Zpos mz) + Zpos d).
    { apply Z.le_antisymm.
      - apply Zdigits2_le_scaled; lia.
      - apply Zdigits2_scaled_le; lia. }
    assert (HE1 : fexp (Zdigits2 (Zpos m1) + E0) = E0).
    { rewrite Hd1. unfold E0 at 2. f_equal. lia. }
    unfold binary_round_aux.
    destruct (shr_fexp_exact (Zpos m1) E0 ltac:(lia))
      as (r1 & e1 & Hr1 & He1 & Hs1 & Hx1).
    rewrite Hr1. rewrite HE1, Z.max_id in He1. subst e1.
    rewrite Z.sub_diag in Hs1, Hx1. simpl in Hs1, Hx1.
    rewrite Z.div_1_r in Hs1, Hx1.
    rewrite Hs1, Hx1 by (destruct (Zpos m1); reflexivity).
    simpl round_nearest_even. rewrite Hr1. rewrite Hs1.
    replace (E0 <=? emax - prec) with true by (symmetry; apply Z.leb_le; lia).
    exists m1, E0. split; [reflexivity|]. left. lia.
  - (* enough digits: the mantissa is shifted right and rounded *)
    assert (Hshl : shl_align mz ez E0 = (mz, ez)).
    { unfold shl_align. destruct (E0 - ez) eqn:E; try reflexivity. lia. }
    rewrite Hshl. unfold binary_round_aux.
    destruct (shr_fexp_exact (Zpos mz) ez ltac:(lia))
      as (r1 & e1 & Hr1 & He1 & Hs1 & Hx1).
    rewrite Hr1. fold E0 in He1.
    assert (He1' : e1 = E0) by lia. clear He1. subst e1.
    assert (Hpk : 0 < 2 ^ (E0 - ez)) by (apply Z.pow_pos_nonneg; lia).
    set (N := Zpos mx * 2 ^ (ex - E0)).
    assert (HN : Zpos mz <= 2 ^ (E0 - ez) * N).
    { unfold N. rewrite (Z.mul_comm (2 ^ (E0 - ez))), <- Z.mul_assoc.
      rewrite <- Z.pow_add_r by lia.
      replace (ex - E0 + (E0 - ez)) with (ex - ez) by lia. exact Hle. }
    assert (Hm2N : shr_m r1 <= N).
    { rewrite Hs1. apply Z.div_le_upper_bound; assumption. }
    assert (Hm2pos : 0 < shr_m r1).
    { rewrite Hs1. apply Z.div_str_pos. split; [exact Hpk|].
      destruct (Z.eq_dec E0 ez) as [Heq|Hne].
      - rewrite Heq, Z.sub_diag. simpl. lia.
      - assert (E0 - ez = Zdigits2 (Zpos mz) - 53).
        { unfold E0, SpecFloat.fexp, SpecFloat.emin, prec, emax in *. lia. }
        pose proof (Zdigits2_bounds (Zpos mz) ltac:(lia)) as [Hlow _].
        eapply Z.le_trans; [|exact Hlow].
        apply Z.pow_le_mono_r; lia. }
    set (m3 := round_nearest_even (shr_m r1) (loc_of_shr_record r1)).
    assert (Hm3lo : shr_m r1 <= m3) by apply round_nearest_even_ge.
    assert (Hm3N : m3 <= N).
    { destruct (Z.eq_dec (shr_m r1) N) as [Heq|Hne].
      - unfold m3. rewrite Hx1; [simpl; lia|].
        pose proof (Z.mul_div_le (Zpos mz) (2 ^ (E0 - ez)) Hpk) as Hfl.
        rewrite <- Hs1, Heq in *. lia.
      - pose proof (round_nearest_even_le (shr_m r1) (loc_of_shr_record r1)).
        fold m3 in H. lia. }
    destruct (shr_fexp_exact m3 E0 ltac:(lia))
      as (r2 & e2 & Hr2 & He2 & Hs2 & _).
    rewrite Hr2.
    assert (Hd3 : Zdigits2 m3 <= Zdigits2 (Zpos mx) + (ex - E0)).
    { apply Zdigits2_le_scaled; lia. }
    assert (He2ex : e2 <= ex).
    { unfold SpecFloat.fexp in *. lia. }
    assert (Hpk2 : 0 < 2 ^ (e2 - E0)) by (apply Z.pow_pos_nonneg; lia).
    assert (Hm4pos : 0 < shr_m r2).
    { rewrite Hs2. apply Z.div_str_pos. split; [exact Hpk2|].
      destruct (Z.eq_dec e2 E0) as [Heq|Hne].
      - rewrite Heq, Z.sub_diag. simpl. lia.
      - assert (e2 - E0 = Zdigits2 m3 - 53).
        { unfold E0, SpecFloat.fexp, SpecFloat.emin, prec, emax in *. lia. }
        pose proof (Zdigits2_bounds m3 ltac:(lia)) as [Hlow _].
        eapply Z.le_trans; [|exact Hlow].
        apply Z.pow_le_mono_r; lia. }
    destruct (shr_m r2) as [|m4|m4] eqn:Em4; try lia.
    replace (e2 <=? emax - prec) with true by (symmetry; apply Z.leb_le; lia).
    exists m4, e2. split; [reflexivity|].
    destruct (Z.eq_dec e2 ex) as [Heq|Hne]; [|left; lia].
    right. split; [exact Heq|].
    rewrite Hs2, Heq. apply Z.div_le_upper_bound; [apply Z.pow_pos_nonneg; lia|].
    fold N. rewrite Z.mul_comm. exact Hm3N.
Qed.


(** Rounding a positive mantissa gives a zero, a finite float or an
    infinity, of the sign asked for. *)
Lemma binary_round_shape (s : bool) (mz : positive) (ez : Z) :
  binary_round prec emax s mz ez = S754_zero s
  \/ binary_round prec emax s mz ez = S754_infinity s
  \/ exists m e, binary_round prec emax s mz ez = S754_finite s m e.
Proof.
  unfold binary_round.
  destruct (shl_align mz ez _) as [m1 e1].
  unfold binary_round_aux.
  destruct (shr_fexp_exact (Zpos m1) e1 ltac:(lia))
    as (r1 & e1' & Hr1 & He1 & Hs1 & _).
  rewrite Hr1.
  assert (H1 : 0 <= shr_m r1).
  { rewrite Hs1. apply Z.div_pos; [lia|]. apply Z.pow_pos_nonneg; lia. }
  pose proof (round_nearest_even_ge (shr_m r1) (loc_of_shr_record r1)) as H3.
  destruct (shr_fexp_exact (round_nearest_even (shr_m r1) (loc_of_shr_record r1))
              e1' ltac:(lia))
    as (r2 & e2 & Hr2 & He2 & Hs2 & _).
  rewrite Hr2.
  assert (H2 : 0 <= shr_m r2).
  { rewrite Hs2. apply Z.div_pos; [lia|]. apply Z.pow_pos_nonneg; lia. }
  destruct (shr_m r2) as [|m4|m4]; try lia.
  - now left.
  - destruct (e2 <=? emax - prec); eauto.
Qed.

Lemma valid_finite (s : bool) (m : positive) (e : Z) :
  valid_binary (S754_finite s m e) = true ->
  fexp (Zpos (digits2_pos m) + e) = e /\ e <= emax - prec /\ emin <= e.
Proof.
  unfold SpecFloat.valid_binary, bounded, canonical_mantissa.
  intro H. apply andb_prop in H as [H1 H2].
  apply Z.eqb_eq in H1. apply Z.leb_le in H2.
  repeat split; try assumption.
  unfold SpecFloat.fexp in H1. lia.
Qed.

Lemma SFleb_refl (x : spec_float) : x <> S754_nan -> SFleb x x = true.
Proof.
  unfold SFleb.
  destruct x as [s|s| |s m e]; try destruct s; simpl; try congruence;
    intros _; rewrite Z.compare_refl;
    change (Pos.compare_cont Eq m m) with (Pos.compare m m);
    now rewrite Pos.compare_refl.
Qed.

(** Adding a number that is not negative to a number that is neither a
    NaN nor minus infinity gives that number or more. *)
Lemma SFadd_advances (x y : spec_float) :
  valid_binary x = true -> valid_binary y = true ->
  SFltb (S754_infinity true) x = true ->
  SFleb (S754_zero false) y = true ->
  SFleb x (SF64add x y) = true.
Proof.
  intros Vx Vy Hx Hy.
  destruct x as [sx|sx| |sx mx ex]; try discriminate;
    destruct y as [sy|sy| |sy my ey]; try discriminate.
  - destruct sx, sy; reflexivity.
  - destruct sy; [discriminate|destruct sx; reflexivity].
  - destruct sy; [discriminate|]. destruct sx; reflexivity.
  - destruct sx; [discriminate|]. destruct sy; reflexivity.
  - destruct sx; [discriminate|]. destruct sy; [discriminate|reflexivity].
  - destruct sx; [discriminate|]. reflexivity.
  - apply SFleb_refl. discriminate.
  - destruct sy; [discriminate|]. destruct sx; reflexivity.
  - destruct sy; [discriminate|].
    apply valid_finite in Vx as (Hcx & Hmx & Hnx).
    apply valid_finite in Vy as (Hcy & Hmy & Hny).
    unfold SF64add, SFadd. cbv zeta.
    set (ez := Z.min ex ey).
    pose proof (shl_align_value mx ex ez ltac:(lia)) as Hax.
    pose proof (shl_align_value my ey ez ltac:(lia)) as Hay.
    destruct sx.
    + (* a negative number plus a positive one *)
      simpl cond_Zopp.
      destruct (Zneg (fst (shl_align mx ex ez))
                + Zpos (fst (shl_align my ey ez))) as [|p|p] eqn:Ez.
      * reflexivity.
      * simpl binary_normalize.
        destruct (binary_round_shape false p ez) as [H|[H|(m & e & H)]];
          rewrite H; reflexivity.
      * simpl binary_normalize.
        destruct (binary_round_upper true mx ex p ez Hcx Hmx ltac:(lia))
          as (m4 & e4 & H & Hord).
        { rewrite <- Hax. lia. }
        rewrite H. unfold SFleb. simpl.
        destruct Hord as [Hlt|[-> Hle]].
        -- apply Z.compare_gt_iff in Hlt. now rewrite Hlt.
        -- rewrite Z.compare_refl.
           change (Pos.compare_cont Eq mx m4) with (Pos.compare mx m4).
           destruct (Pos.compare mx m4) eqn:Ec; try reflexivity.
           change (mx < m4)%positive in Ec. lia.
    + (* two positive numbers *)
      simpl cond_Zopp. simpl binary_normalize.
      destruct (binary_round_lower mx ex
                  (fst (shl_align mx ex ez) + fst (shl_align my ey ez)) ez
                  Hcx ltac:(lia))
        as [H|(m4 & e4 & H & Hord)].
      { rewrite Pos2Z.inj_add, <- Hax. lia. }
      * rewrite H. reflexivity.
      * rewrite H. unfold SFleb. simpl.
        destruct Hord as [Hlt|[-> Hle]].
        -- apply Z.compare_lt_iff in Hlt. now rewrite Hlt.
        -- rewrite Z.compare_refl.
           change (Pos.compare_cont Eq mx m4) with (Pos.compare mx m4).
           destruct (Pos.compare mx m4) eqn:Ec; try reflexivity.
           apply Pos.compare_gt_iff in Ec.
           change (m4 < mx)%positive in Ec. lia.
Qed.

Lemma SFltb_neg_infinity_leb (x z : spec_float) :
  SFltb (S754_infinity true) x = true -> SFleb x z = true ->
  SFltb (S754_infinity true) z = true.
Proof.
  destruct x as [sx|sx| |sx mx ex]; try discriminate;
    destruct z as [sz|sz| |sz mz ez]; try reflexivity;
    try destruct sx; try destruct sz; try discriminate; try reflexivity.
Qed.

Local Open Scope float_scope.

(** A time that is a number above minus infinity, advanced by a
    duration that is not negative, does not decrease, and is again such
    a time. *)
Lemma add_advances (t d : float) :
  (neg_infinity <? t) = true ->
  (0 <=? d) = true ->
  (t <=? t + d) = true /\ (neg_infinity <? t + d) = true.
Proof.
  rewrite !ltb_spec, !leb_spec, add_spec.
  change (Prim2SF neg_infinity) with (S754_infinity true).
  change (Prim2SF 0) with (S754_zero false).
  intros Ht Hd.
  assert (H : SFleb (Prim2SF t) (SF64add (Prim2SF t) (Prim2SF d)) = true).
  { apply SFadd_advances; auto using Prim2SF_valid. }
  split; [exact H|].
  eapply SFltb_neg_infinity_leb; eassumption.
Qed.

End FloatAdd.

(* ------------------------------------------------------------------ *)
(** ** The collision check of a segment *)

Module SegmentWalk.

Import TimeVaryingAStar.
Local Open Scope float_scope.

Section Walk.

Variable incoming_value_ outgoing_value_ : ValueFunctionId.
Variable collision_check_resolution_ : float.
Variable IsValid :
  Vector3d -> ValueFunctionId -> ValueFunctionId -> float -> bool * float.

Local Notation walk_segment :=
  (walk_segment incoming_value_ outgoing_value_
                collision_check_resolution_ IsValid).
Local Notation CollisionCheck :=
  (CollisionCheck incoming_value_ outgoing_value_
                  collision_check_resolution_ IsValid).
Local Notation sample := (sample collision_check_resolution_).
Local Notation samples := (samples collision_check_resolution_).
Local Notation step_point := (step_point collision_check_resolution_).
Local Notation sample_valid :=
  (sample_valid incoming_value_ outgoing_value_ IsValid).
Local Notation sample_prob :=
  (sample_prob incoming_value_ outgoing_value_ IsValid).
Local Notation check_sample := (check_sample collision_check_resolution_).
Local Notation check_samples :=
  (check_samples collision_check_resolution_).

(** A sample of a walk is a sample, one later, of the walk that
    starts one step earlier. *)
Lemma sample_shift direction dt q t k :
  sample direction dt (step_point direction q) (step_time dt t) k
  = sample direction dt q t (S k).
Proof.
  unfold TimeVaryingAStar.sample.
  now rewrite <- !Nat.iter_succ_r.
Qed.

Lemma samples_cons direction dt q t n :
  samples direction dt q t (S n)
  = (q, t) :: samples direction dt (step_point direction q)
                      (step_time dt t) n.
Proof.
  unfold TimeVaryingAStar.samples.
  rewrite <- cons_seq, <- seq_shift, map_cons, map_map.
  f_equal. apply map_ext. intro k. symmetry. apply sample_shift.
Qed.

Lemma samples_snoc direction dt q t n :
  samples direction dt q t (S n)
  = samples direction dt q t n ++ [sample direction dt q t n].
Proof.
  unfold TimeVaryingAStar.samples.
  now rewrite seq_S, map_app.
Qed.

(** The loop unfolded once. *)
Lemma walk_segment_step fuel direction dt stop_time q t m qs :
  (t <? stop_time) = true ->
  walk_segment (S fuel) direction dt stop_time q t m qs
  = if negb (sample_valid (q, t))
    then Some (false, raise_max m (sample_prob (q, t)), qs ++ [(q, t)])
    else walk_segment fuel direction dt stop_time
           (step_point direction q) (step_time dt t)
           (raise_max m (sample_prob (q, t))) (qs ++ [(q, t)]).
Proof.
  intro Ht. simpl. rewrite Ht.
  unfold TimeVaryingAStar.sample_valid, TimeVaryingAStar.sample_prob.
  simpl. now destruct (IsValid q incoming_value_ outgoing_value_ t).
Qed.

Lemma walk_segment_stop fuel direction dt stop_time q t m qs :
  (t <? stop_time) = false ->
  walk_segment fuel direction dt stop_time q t m qs = Some (true, m, qs).
Proof.
  intro Ht. destruct fuel; simpl; now rewrite Ht.
Qed.

(** Over a prefix of samples that are all inside the time window and
    valid, the loop advances to the sample after the prefix, with
    the running maximum of the prefix and the prefix logged. *)
Lemma walk_segment_prefix n :
  forall fuel direction dt stop_time q t m qs,
    (forall k, (k < n)%nat ->
       in_window stop_time (sample direction dt q t k) = true
       /\ sample_valid (sample direction dt q t k) = true) ->
    walk_segment (n + fuel) direction dt stop_time q t m qs
    = walk_segment fuel direction dt stop_time
        (fst (sample direction dt q t n)) (snd (sample direction dt q t n))
        (running_max m (map sample_prob (samples direction dt q t n)))
        (qs ++ samples direction dt q t n).
Proof.
  induction n as [|n IH]; intros fuel direction dt stop_time q t m qs H.
  - simpl. now rewrite app_nil_r.
  - destruct (H 0%nat ltac:(lia)) as [Hw Hv].
    change (S n + fuel)%nat with (S (n + fuel)).
    rewrite walk_segment_step by exact Hw.
    change (sample direction dt q t 0) with (q, t) in Hv.
    rewrite Hv. simpl negb. cbv iota.
    rewrite IH.
    + rewrite !sample_shift, samples_cons. simpl.
      now rewrite <- app_assoc.
    + intros k Hk. rewrite sample_shift. apply H. lia.
Qed.


(** Every query the loop adds is made inside the time window. *)
Lemma walk_segment_queries fuel :
  forall direction dt stop_time q t m qs free m' qs',
    walk_segment fuel direction dt stop_time q t m qs
      = Some (free, m', qs') ->
    Forall (fun s => in_window stop_time s = true) qs ->
    Forall (fun s => in_window stop_time s = true) qs'.
Proof.
  induction fuel as [|fuel IH];
    intros direction dt stop_time q t m qs free m' qs' Hrun Hqs.
  - simpl in Hrun. destruct (t <? stop_time); [discriminate|].
    now inversion Hrun; subst.
  - destruct (t <? stop_time) eqn:Ht.
    + rewrite walk_segment_step in Hrun by exact Ht.
      assert (Hqs1 : Forall (fun s => in_window stop_time s = true)
                            (qs ++ [(q, t)])).
      { apply Forall_app. split; [exact Hqs|].
        constructor; [exact Ht|constructor]. }
      destruct (negb (sample_valid (q, t))).
      * now inversion Hrun; subst.
      * eapply IH; eassumption.
    + rewrite walk_segment_stop in Hrun by exact Ht.
      now inversion Hrun; subst.
Qed.

(** [C10]  Every query of the environment made by [CollisionCheck]
    is made at a time strictly less than [stop_time], so that no
    query is made at [stop_time] itself, at the stop position or
    anywhere; and when [stop_time <= start_time] the call makes no
    query at all, returns true and leaves the referenced double as
    it was. *)
Theorem CollisionCheck_queries_before_stop_time
    (start stop : Vector3d) (start_time stop_time m0 : float) :
  (forall fuel free m qs,
     CollisionCheck fuel start stop start_time stop_time m0
       = Some (free, m, qs) ->
     Forall (fun s => (snd s <? stop_time) = true) qs
     /\ forall position, ~ In (position, stop_time) qs)
  /\
  ((stop_time <=? start_time) = true ->
   forall fuel,
     CollisionCheck fuel start stop start_time stop_time m0
     = Some (true, m0, [])).
Proof.
  split.
  - intros fuel free m qs Hrun.
    assert (Hall : Forall (fun s => in_window stop_time s = true) qs).
    { eapply walk_segment_queries; [exact Hrun|constructor]. }
    split; [exact Hall|].
    intros position Hin.
    rewrite Forall_forall in Hall. specialize (Hall _ Hin).
    unfold in_window in Hall. simpl in Hall.
    now rewrite FloatOrder.ltb_irrefl in Hall.
  - intros Hle fuel.
    apply walk_segment_stop.
    now apply FloatOrder.leb_not_ltb.
Qed.

End Walk.

End SegmentWalk.

(* ------------------------------------------------------------------ *)
(** ** The node store and the open multiset *)

Module StoreFacts.

Import TimeVaryingAStar.

Lemma get_old (st extra : Store) (p : NodePtr) :
  p < length st -> get (st ++ extra) p = get st p.
Proof. intro H. unfold get. now rewrite app_nth1. Qed.

Lemma get_new (st : Store) (n : Node) : get (st ++ [n]) (length st) = n.
Proof. unfold get. now rewrite app_nth2, Nat.sub_diag by lia. Qed.

Lemma length_update (st : Store) (p : NodePtr) (f : Node -> Node) :
  length (update st p f) = length st.
Proof.
  revert p. induction st as [|n st IH]; intros [|p]; simpl; auto.
Qed.

Lemma get_update_other (st : Store) (p q : NodePtr) (f : Node -> Node) :
  q <> p -> get (update st p f) q = get st q.
Proof.
  unfold get. revert p q.
  induction st as [|n st IH]; intros [|p] [|q] H; simpl; auto; try lia.
Qed.

Lemma get_update_same (st : Store) (p : NodePtr) (f : Node -> Node) :
  p < length st -> get (update st p f) p = f (get st p).
Proof.
  unfold get. revert p.
  induction st as [|n st IH]; intros [|p] H; simpl in *; try lia; auto.
  apply IH. lia.
Qed.

(** Writing the newest node of a store. *)
Lemma update_last (st : Store) (n : Node) (f : Node -> Node) :
  update (st ++ [n]) (length st) f = st ++ [f n].
Proof. induction st as [|m st IH]; simpl; congruence. Qed.

Lemma wf_store_nil : wf_store [].
Proof. intros p q H. simpl in H. lia. Qed.

Lemma wf_store_snoc (st : Store) (n : Node) :
  wf_store st ->
  (forall q, parent_ n = Some q -> q < length st) ->
  wf_store (st ++ [n]).
Proof.
  intros Hwf Hn p q Hp Hq. rewrite length_app in Hp. simpl in Hp.
  destruct (Nat.eq_dec p (length st)) as [->|Hne].
  - rewrite get_new in Hq. auto.
  - rewrite get_old in Hq by lia. apply Hwf; [lia|exact Hq].
Qed.

Lemma parent_chain_S (fuel : nat) (st : Store) (p : NodePtr) :
  parent_chain (S fuel) st (Some p)
  = match parent_chain fuel st (parent_ (get st p)) with
    | None => None
    | Some ns => Some (get st p :: ns)
    end.
Proof. reflexivity. Qed.

Lemma parent_chain_root (fuel : nat) (st : Store) :
  parent_chain fuel st None = Some [].
Proof. destruct fuel; reflexivity. Qed.

(** Walking a well-founded store from an allocated node ends, within
    as many steps as the index of the node allows. *)
Lemma parent_chain_total (st : Store) :
  wf_store st ->
  forall fuel p, p < length st -> p < fuel ->
    exists ns, parent_chain fuel st (Some p) = Some (get st p :: ns).
Proof.
  intros Hwf fuel. induction fuel as [|fuel IH]; intros p Hp Hf; [lia|].
  rewrite parent_chain_S.
  destruct (parent_ (get st p)) as [q|] eqn:Eq.
  - assert (Hq : q < p) by (eapply Hwf; eauto).
    destruct (IH q ltac:(lia) ltac:(lia)) as [ns Hns].
    exists (get st q :: ns). now rewrite Hns.
  - exists []. now rewrite parent_chain_root.
Qed.

(** Nodes allocated later do not change a walk. *)
Lemma parent_chain_old (st extra : Store) :
  wf_store st ->
  forall fuel p, p < length st ->
    parent_chain fuel (st ++ extra) (Some p) = parent_chain fuel st (Some p).
Proof.
  intros Hwf fuel. induction fuel as [|fuel IH]; intros p Hp; [reflexivity|].
  rewrite !parent_chain_S, !get_old by exact Hp.
  destruct (parent_ (get st p)) as [q|] eqn:Eq.
  - assert (Hq : q < p) by (eapply Hwf; eauto).
    now rewrite IH by lia.
  - now rewrite !parent_chain_root.
Qed.

Section MultisetFacts.

Variable A : Type.
Variable lt : A -> A -> bool.

Lemma In_insert (x y : A) (l : list A) :
  In y (Multiset.insert lt x l) <-> y = x \/ In y l.
Proof.
  induction l as [|z l IH]; simpl.
  - intuition congruence.
  - destruct (lt x z); simpl; rewrite ?IH; intuition congruence.
Qed.

Lemma In_erase (j : nat) (y : A) (l : list A) :
  In y (Multiset.erase j l) -> In y l.
Proof.
  revert j. induction l as [|z l IH]; intros [|j]; simpl; auto.
  intros [H|H]; eauto.
Qed.

Lemma length_insert (x : A) (l : list A) :
  length (Multiset.insert lt x l) = S (length l).
Proof.
  induction l as [|z l IH]; simpl; auto.
  destruct (lt x z); simpl; auto.
Qed.

(** What [find] returns is a position of the multiset, and the
    element there is equivalent to the key: neither is less than the
    other. *)
Lemma find_equivalent (x : A) (l : list A) (j : nat) :
  Multiset.find lt x l = Some j ->
  exists y, nth_error l j = Some y /\ lt y x = false /\ lt x y = false.
Proof.
  unfold Multiset.find.
  assert (Hlb : forall y, nth_error l (Multiset.lower_bound lt x l) = Some y
                          -> lt y x = false).
  { induction l as [|z l IH]; simpl; intros y Hy; [discriminate|].
    destruct (lt z x) eqn:E; simpl in Hy; [auto|congruence]. }
  destruct (nth_error l (Multiset.lower_bound lt x l)) as [y|] eqn:E;
    [|discriminate].
  destruct (lt x y) eqn:Exy; [discriminate|].
  intro H. inversion H; subst. eauto.
Qed.

(** Whatever comparator orders the multiset, as long as it puts a
    lower priority first: the element [find] reports never has a
    priority above the key's, so a test for a strictly better key
    fails. *)
Lemma find_never_better (priority : A -> float) (x : A) (l : list A)
    (j : nat) :
  (forall a b, (priority a <? priority b)%float = true -> lt a b = true) ->
  Multiset.find lt x l = Some j ->
  forall d, (priority x <? priority (nth j l d))%float = false.
Proof.
  intros Hlt Hfind d.
  destruct (find_equivalent x l j Hfind) as (y & Hy & _ & Hxy).
  rewrite (nth_error_nth _ _ d Hy).
  destruct (priority x <? priority y)%float eqn:E; [|reflexivity].
  apply Hlt in E. congruence.
Qed.

End MultisetFacts.

End StoreFacts.

(* ------------------------------------------------------------------ *)
(** ** The A* search *)

Module SearchFacts.

Import TimeVaryingAStar StoreFacts.
Local Open Scope float_scope.

Section Search.

Variable incoming_value_ outgoing_value_ : ValueFunctionId.
Variable grid_resolution_ collision_check_resolution_ : float.
Variable IsValid :
  Vector3d -> ValueFunctionId -> ValueFunctionId -> float -> bool * float.
Variable BestPossibleTime : Vector3d -> Vector3d -> float.
Variable LiftGeometricTrajectory :
  list Vector3d -> list float -> list VectorXd.
Variable elapsed : nat -> float.
Variable closed_equal : Store -> NodePtr -> NodePtr -> bool.

Local Notation ComputeCostToCome := (ComputeCostToCome BestPossibleTime).
Local Notation ComputeHeuristic := (ComputeHeuristic BestPossibleTime).
Local Notation CollisionCheck :=
  (CollisionCheck incoming_value_ outgoing_value_
                  collision_check_resolution_ IsValid).
Local Notation GenerateTrajectory :=
  (GenerateTrajectory incoming_value_ LiftGeometricTrajectory).
Local Notation trajectory_through :=
  (trajectory_through incoming_value_ LiftGeometricTrajectory).
Local Notation at_goal := (at_goal grid_resolution_).
Local Notation Neighbors := (Neighbors grid_resolution_).
Local Notation closed_count := (closed_count closed_equal).
Local Notation closed_insert := (closed_insert closed_equal).
Local Notation connect_goal := (connect_goal BestPossibleTime).
Local Notation create_neighbor := (create_neighbor BestPossibleTime).
Local Notation candidate := (candidate BestPossibleTime).
Local Notation terminus_node := (terminus_node BestPossibleTime).
Local Notation child_of := (child_of BestPossibleTime).
Local Notation check_neighbor :=
  (check_neighbor incoming_value_ outgoing_value_
                  collision_check_resolution_ IsValid closed_equal).
Local Notation visit_neighbor :=
  (visit_neighbor incoming_value_ outgoing_value_
                  collision_check_resolution_ IsValid BestPossibleTime
                  closed_equal).
Local Notation visit_all :=
  (visit_all incoming_value_ outgoing_value_
             collision_check_resolution_ IsValid BestPossibleTime
             closed_equal).
Local Notation pass :=
  (pass incoming_value_ outgoing_value_ grid_resolution_
        collision_check_resolution_ IsValid BestPossibleTime
        LiftGeometricTrajectory elapsed closed_equal).
Local Notation main_loop :=
  (main_loop incoming_value_ outgoing_value_ grid_resolution_
             collision_check_resolution_ IsValid BestPossibleTime
             LiftGeometricTrajectory elapsed closed_equal).
Local Notation initial := (initial BestPossibleTime).
Local Notation Plan :=
  (Plan incoming_value_ outgoing_value_ grid_resolution_
        collision_check_resolution_ IsValid BestPossibleTime
        LiftGeometricTrajectory elapsed closed_equal).
Local Notation Reaches :=
  (Reaches incoming_value_ outgoing_value_ grid_resolution_
           collision_check_resolution_ IsValid BestPossibleTime
           LiftGeometricTrajectory elapsed closed_equal).

(** [C3]  For a parent that is not null, [ComputeCostToCome] returns
    the parent's cost to come plus the Euclidean distance from the
    parent's position to the point; no time term enters, and the
    value is the same for every [dt]. *)
Theorem ComputeCostToCome_distance_only
    (st : Store) (parent : NodePtr) (point : Vector3d) (dt : float) :
  ComputeCostToCome st (Some parent) point dt
  = cost_to_come_ (get st parent)
    + norm (vsub (point_ (get st parent)) point)
  /\ forall dt',
       ComputeCostToCome st (Some parent) point dt'
       = ComputeCostToCome st (Some parent) point dt.
Proof. split; reflexivity. Qed.

(** *** What the steps of a pass do to the state *)

Lemma create_neighbor_eq st next neighbor stop :
  create_neighbor st next neighbor stop
  = (st ++ [candidate st next neighbor stop], length st).
Proof.
  unfold TimeVaryingAStar.candidate, TimeVaryingAStar.create_neighbor,
    Node_Create.
  cbv zeta. simpl fst. now rewrite get_new.
Qed.

Lemma connect_goal_eq st next stop :
  connect_goal st next stop
  = (st ++ [terminus_node st next stop], length st).
Proof.
  unfold TimeVaryingAStar.terminus_node, TimeVaryingAStar.connect_goal,
    Node_Create.
  cbv zeta. simpl fst. now rewrite get_new.
Qed.

Lemma candidate_parent st next neighbor stop :
  parent_ (candidate st next neighbor stop) = Some next.
Proof.
  unfold TimeVaryingAStar.candidate, TimeVaryingAStar.create_neighbor,
    Node_Create.
  cbv zeta. simpl fst. now rewrite get_new.
Qed.

(** The handles [offer] leaves in the open set. *)
Lemma offer_In st op node p :
  In p (offer st op node) -> In p op \/ p = node.
Proof.
  unfold offer.
  destruct (Multiset.find (NodeComparitor st) node op) as [m|].
  - destruct (priority_ (get st node) <? priority_ (get st (nth m op node))).
    + intro H. apply In_insert in H. destruct H as [H|H]; [now right|].
      left. eapply In_erase; eassumption.
    + now left.
  - intro H. apply In_insert in H. destruct H as [H|H]; [now right|now left].
Qed.

(** One neighbour: the store gains exactly the candidate, with some
    value written to its [collision_prob_]; all nodes allocated
    before are as they were; the closed list is unchanged; the open
    set gains no handle but that of the candidate. *)
Lemma visit_neighbor_effect fuel next stop s neighbor s' :
  visit_neighbor fuel next stop s neighbor = Some s' ->
  exists m,
    store s'
    = store s ++ [set_collision_prob
                    (candidate (store s) next neighbor stop) m]
    /\ closed s' = closed s
    /\ forall p, In p (open s') -> In p (open s) \/ p = length (store s).
Proof.
  unfold TimeVaryingAStar.visit_neighbor.
  rewrite create_neighbor_eq.
  set (c := candidate (store s) next neighbor stop).
  unfold TimeVaryingAStar.check_neighbor. simpl store. simpl closed.
  simpl open. simpl queries.
  destruct (closed_count (store s ++ [c]) (closed s) (length (store s))).
  - intro H. inversion H; subst; clear H. simpl.
    exists (collision_prob_ c). repeat split; auto.
    now destruct c.
  - destruct (CollisionCheck _ _ _ _ _ _) as [[[free m] qs]|];
      [|discriminate].
    rewrite update_last.
    destruct free; simpl negb; cbv iota; intro H; inversion H; subst;
      clear H; simpl; exists m; repeat split; auto.
    intros p Hp. apply offer_In in Hp. exact Hp.
Qed.

Lemma candidate_old st extra next neighbor stop :
  next < length st ->
  candidate (st ++ extra) next neighbor stop
  = candidate st next neighbor stop.
Proof.
  intro H.
  unfold TimeVaryingAStar.candidate, TimeVaryingAStar.create_neighbor,
    Node_Create, TimeVaryingAStar.ComputeCostToCome.
  cbv zeta. simpl fst. rewrite !get_new, !get_old by exact H.
  reflexivity.
Qed.

Lemma visit_all_effect fuel next stop neighbors :
  forall s s',
    next < length (store s) ->
    visit_all fuel next stop s neighbors = Some s' ->
    exists extra,
      store s' = store s ++ extra
      /\ Forall (child_of (store s) next stop) extra
      /\ closed s' = closed s
      /\ forall p, In p (open s') ->
           In p (open s) \/ (length (store s) <= p < length (store s')).
Proof.
  induction neighbors as [|neighbor rest IH]; intros s s' Hnext Hrun.
  - simpl in Hrun. inversion Hrun; subst. exists [].
    rewrite app_nil_r. repeat split; auto.
  - simpl in Hrun.
    destruct (visit_neighbor fuel next stop s neighbor) as [s1|] eqn:E1;
      [|discriminate].
    destruct (visit_neighbor_effect _ _ _ _ _ _ E1) as (m & Hst & Hcl & Hop).
    assert (Hnext1 : next < length (store s1)).
    { rewrite Hst, length_app. lia. }
    destruct (IH s1 s' Hnext1 Hrun) as (extra & Hst' & Hall & Hcl' & Hop').
    exists (set_collision_prob (candidate (store s) next neighbor stop) m
              :: extra).
    split; [|split; [|split]].
    + rewrite Hst', Hst, <- app_assoc. reflexivity.
    + constructor.
      * exists neighbor, m. reflexivity.
      * eapply Forall_impl; [|exact Hall].
        intros n (nb & m' & ->). exists nb, m'.
        rewrite Hst, candidate_old by exact Hnext. reflexivity.
    + congruence.
    + intros p Hp. rewrite Hst' in *. rewrite Hst in *.
      rewrite !length_app in *. simpl length in *.
      destruct (Hop' p Hp) as [H|H].
      * destruct (Hop p H) as [H1|H1]; [now left|right; lia].
      * right. lia.
Qed.

(** A pass that does not return has popped the head of the open set
    and expanded it. *)
Lemma pass_Continue fuel stop budget k s s' :
  pass fuel stop budget k s = Some (Continue s') ->
  exists next rest neighbors,
    open s = next :: rest
    /\ at_goal (point_ (get (store s) next)) stop = false
    /\ Neighbors fuel (point_ (get (store s) next)) = Some neighbors
    /\ visit_all fuel next stop
         (mkState (store s) rest
                  (closed_insert (store s) (closed s) next) (queries s))
         neighbors = Some s'.
Proof.
  unfold TimeVaryingAStar.pass.
  destruct (budget <? elapsed k); [discriminate|].
  destruct (open s) as [|next rest]; [discriminate|].
  destruct (at_goal (point_ (get (store s) next)) stop) eqn:Egoal.
  - destruct (connect_goal (store s) next stop) as [st' terminus].
    destruct (GenerateTrajectory fuel st' terminus); discriminate.
  - destruct (Neighbors fuel (point_ (get (store s) next)))
      as [neighbors|] eqn:En; [|discriminate].
    destruct (visit_all _ _ _ _ _) as [s1|] eqn:E; [|discriminate].
    intro H. inversion H; subst. exists next, rest, neighbors.
    repeat split; auto.
Qed.

Lemma wf_store_app st extra :
  wf_store st ->
  Forall (fun n => forall q, parent_ n = Some q -> q < length st) extra ->
  wf_store (st ++ extra).
Proof.
  intros Hwf Hall. revert st Hwf Hall.
  induction extra as [|n extra IH]; intros st Hwf Hall.
  - now rewrite app_nil_r.
  - inversion Hall as [|? ? Hn Hrest]; subst.
    change (n :: extra) with ([n] ++ extra). rewrite app_assoc.
    apply IH.
    + apply wf_store_snoc; assumption.
    + eapply Forall_impl; [|exact Hrest].
      intros a Ha q Hq. rewrite length_app. specialize (Ha q Hq). lia.
Qed.

Lemma child_of_parent st next stop n :
  child_of st next stop n -> parent_ n = Some next.
Proof.
  intros (nb & m & ->). simpl. apply candidate_parent.
Qed.

Lemma wf_initial start stop start_time :
  wf_state (initial start stop start_time).
Proof.
  split.
  - intros p q Hp Hq. simpl in Hp.
    assert (p = 0%nat) by lia. subst. discriminate.
  - intros p [<-|[]]. simpl. lia.
Qed.

Lemma wf_pass fuel stop budget k s s' :
  wf_state s ->
  pass fuel stop budget k s = Some (Continue s') ->
  wf_state s'.
Proof.
  intros [Hst Hop] Hpass.
  destruct (pass_Continue _ _ _ _ _ _ Hpass)
    as (next & rest & neighbors & Hopen & _ & _ & Hvisit).
  assert (Hnext : next < length (store s)).
  { apply Hop. rewrite Hopen. now left. }
  apply visit_all_effect in Hvisit; [|exact Hnext].
  destruct Hvisit as (extra & Hst' & Hall & _ & Hop').
  simpl in Hst', Hall, Hop'.
  split.
  - rewrite Hst'. apply wf_store_app; [exact Hst|].
    eapply Forall_impl; [|exact Hall].
    intros n Hn q Hq. rewrite (child_of_parent _ _ _ _ Hn) in Hq.
    inversion Hq; subst. exact Hnext.
  - intros p Hp. destruct (Hop' p Hp) as [H|H]; [|lia].
    rewrite Hst', length_app.
    assert (p < length (store s)); [|lia].
    apply Hop. rewrite Hopen. now right.
Qed.

Lemma Reaches_wf start stop start_time budget k s :
  Reaches start stop start_time budget k s -> wf_state s.
Proof.
  induction 1 as [|k fuel s s' _ IH Hpass].
  - apply wf_initial.
  - eapply wf_pass; eassumption.
Qed.

(** *** Reaching the goal *)

Lemma GenerateTrajectory_eq fuel st node :
  GenerateTrajectory fuel st node
  = option_map trajectory_through (parent_chain fuel st (Some node)).
Proof.
  unfold TimeVaryingAStar.GenerateTrajectory.
  now destruct (parent_chain fuel st (Some node)).
Qed.

Lemma parent_chain_Chain fuel st :
  forall n ns, parent_chain fuel st n = Some ns -> Chain st n ns.
Proof.
  induction fuel as [|fuel IH]; intros [p|] ns H.
  - discriminate.
  - inversion H. constructor.
  - rewrite parent_chain_S in H.
    destruct (parent_chain fuel st (parent_ (get st p))) as [ms|] eqn:E;
      [|discriminate].
    inversion H; subst. constructor. now apply IH.
  - rewrite parent_chain_root in H. inversion H. constructor.
Qed.

Lemma terminus_node_eq st next stop :
  terminus_node st next stop
  = mkNode stop (Some (goal_parent st next))
      (time_ (get st (goal_parent st next))
       + BestPossibleTime (point_ (get st (goal_parent st next))) stop)
      (cost_to_come_ (get st (goal_parent st next))
       + norm (vsub (point_ (get st (goal_parent st next))) stop))
      0
      (cost_to_come_ (get st (goal_parent st next))
       + norm (vsub (point_ (get st (goal_parent st next))) stop) + 0)
      0.
Proof.
  unfold TimeVaryingAStar.terminus_node, TimeVaryingAStar.connect_goal,
    Node_Create, goal_parent.
  cbv zeta. simpl fst. now rewrite get_new.
Qed.

(** The goal branch of a pass, from a well-formed state. *)
Lemma pass_goal fuel stop budget k s next rest :
  wf_state s ->
  open s = next :: rest ->
  (budget <? elapsed k) = false ->
  at_goal (point_ (get (store s) next)) stop = true ->
  length (store s) < fuel ->
  exists ancestors,
    Chain (store s) (Some (goal_parent (store s) next)) ancestors
    /\ pass fuel stop budget k s
       = Some (Return
                 (Some (trajectory_through
                          (terminus_node (store s) next stop
                             :: ancestors)))
                 (mkState (store s ++ [terminus_node (store s) next stop])
                          rest (closed s) (queries s))).
Proof.
  intros [Hst Hop] Hopen Hbudget Hgoal Hfuel.
  assert (Hnext : next < length (store s)).
  { apply Hop. rewrite Hopen. now left. }
  assert (Hparent : goal_parent (store s) next < length (store s)).
  { unfold goal_parent.
    destruct (parent_ (get (store s) next)) as [q|] eqn:E; [|exact Hnext].
    specialize (Hst _ _ Hnext E). lia. }
  destruct fuel as [|fuel]; [lia|].
  destruct (parent_chain_total (store s) Hst fuel _ Hparent ltac:(lia))
    as [ns Hns].
  exists (get (store s) (goal_parent (store s) next) :: ns).
  split; [eapply parent_chain_Chain; exact Hns|].
  unfold TimeVaryingAStar.pass.
  rewrite Hbudget, Hopen, Hgoal, connect_goal_eq, GenerateTrajectory_eq.
  rewrite parent_chain_S, get_new.
  replace (parent_ (terminus_node (store s) next stop))
    with (Some (goal_parent (store s) next))
    by (now rewrite terminus_node_eq).
  rewrite parent_chain_old by assumption.
  rewrite Hns. reflexivity.
Qed.

Lemma main_loop_S fuel stop budget k s :
  main_loop (S fuel) stop budget k s
  = match pass fuel stop budget k s with
    | None => None
    | Some (Return result s') => Some (result, s')
    | Some (Continue s') => main_loop fuel stop budget (S k) s'
    end.
Proof. reflexivity. Qed.

(** [C2]  Whenever a pass of the main loop of [Plan] pops a node
    whose position is within half a grid cell of [stop] on every
    axis, the planner creates a terminal node at exactly [stop],
    parented to the popped node's parent when there is one and to
    the popped node itself otherwise, with arrival time that
    parent's time plus [BestPossibleTime(parent position, stop)] and
    heuristic zero, and returns the trajectory reconstructed through
    it.  In particular, when [start] is within half a grid cell of
    [stop] and the budget is not exceeded at the first check, [Plan]
    returns the trajectory of the single segment from [start] at
    [start_time] to [stop] at
    [start_time + BestPossibleTime(start, stop)]. *)
Theorem Plan_goal_found
    (start stop : Vector3d) (start_time budget : float) :
  (forall k s next rest fuel,
     Reaches start stop start_time budget k s ->
     open s = next :: rest ->
     (budget <? elapsed k) = false ->
     at_goal (point_ (get (store s) next)) stop = true ->
     length (store s) < fuel ->
     let parent_node := goal_parent (store s) next in
     let terminus := terminus_node (store s) next stop in
     point_ terminus = stop
     /\ parent_ terminus = Some parent_node
     /\ time_ terminus
        = time_ (get (store s) parent_node)
          + BestPossibleTime (point_ (get (store s) parent_node)) stop
     /\ heuristic_ terminus = 0
     /\ exists ancestors,
          Chain (store s) (Some parent_node) ancestors
          /\ pass fuel stop budget k s
             = Some (Return
                       (Some (trajectory_through (terminus :: ancestors)))
                       (mkState (store s ++ [terminus]) rest (closed s)
                                (queries s))))
  /\
  (at_goal start stop = true ->
   (budget <? elapsed 0) = false ->
   forall fuel, 2 < fuel ->
     let times :=
       [start_time; start_time + BestPossibleTime start stop] in
     let states := LiftGeometricTrajectory [start; stop] times in
     let values := repeat incoming_value_ (length states) in
     option_map fst (Plan fuel start stop start_time budget)
     = Some (Some (mkTrajectory times states values values))).
Proof.
  split.
  - intros k s next rest fuel Hreach Hopen Hbudget Hgoal Hfuel.
    cbv zeta. rewrite terminus_node_eq. simpl.
    repeat split.
    rewrite <- terminus_node_eq.
    apply pass_goal; auto.
    eapply Reaches_wf; eassumption.
  - intros Hgoal Hbudget fuel Hfuel. cbv zeta.
    destruct fuel as [|[|[|fuel]]]; try lia.
    unfold TimeVaryingAStar.Plan.
    rewrite main_loop_S.
    unfold TimeVaryingAStar.pass.
    rewrite Hbudget.
    unfold TimeVaryingAStar.initial, Node_Create. cbv zeta.
    cbn [app length Multiset.insert open store closed queries].
    change (get [mkNode start None start_time 0
                        (ComputeHeuristic start stop)
                        (0 + ComputeHeuristic start stop) 0] 0)
      with (mkNode start None start_time 0
                   (ComputeHeuristic start stop)
                   (0 + ComputeHeuristic start stop) 0).
    cbn [point_]. rewrite Hgoal.
    destruct fuel; reflexivity.
Qed.

(** *** The budget *)

(** [C6, as the code has it]  With a budget of 0, if the clock has
    advanced by the time the loop reads it for the first time, so
    that the elapsed time is strictly greater than the budget,
    [Plan] returns no trajectory at that first check: the store
    holds the start node only, the open set that node only, nothing
    is closed and the environment was never queried. *)
Theorem Plan_budget_zero
    (start stop : Vector3d) (start_time : float) (fuel : nat) :
  (0 <? elapsed 0) = true ->
  (0 < fuel)%nat ->
  Plan fuel start stop start_time 0
  = Some (None,
          mkState [mkNode start None start_time 0
                          (BestPossibleTime start stop)
                          (0 + BestPossibleTime start stop) 0]
                  [0%nat] [] []).
Proof.
  intros Hclock Hfuel. destruct fuel as [|fuel]; [lia|].
  unfold TimeVaryingAStar.Plan. rewrite main_loop_S.
  unfold TimeVaryingAStar.pass. rewrite Hclock. reflexivity.
Qed.

(** *** Nodes once made *)

Lemma pass_Return fuel stop budget k s result s' :
  pass fuel stop budget k s = Some (Return result s') ->
  s' = s
  \/ exists next rest,
       open s = next :: rest
       /\ s' = mkState (store s ++ [terminus_node (store s) next stop])
                       rest (closed s) (queries s).
Proof.
  unfold TimeVaryingAStar.pass.
  destruct (budget <? elapsed k).
  { intro H. inversion H. now left. }
  destruct (open s) as [|next rest].
  { intro H. inversion H. now left. }
  destruct (at_goal (point_ (get (store s) next)) stop).
  - rewrite connect_goal_eq.
    destruct (GenerateTrajectory fuel _ _); [|discriminate].
    intro H. inversion H. right. exists next, rest. auto.
  - destruct (Neighbors fuel (point_ (get (store s) next)));
      [|discriminate].
    destruct (visit_all _ _ _ _ _); discriminate.
Qed.

(** [C4, as the code has it]  A node's arrival time and cost to come
    (with its position, parent, heuristic and priority) are those
    [Node::Create] gave it, for good; its collision probability is
    written once more, by the collision check of its incoming edge,
    in the loop iteration that creates the node and before the node
    can enter the open set.  No iteration touches a node allocated
    before it: every node that exists when a pass of the main loop
    begins is the same node, in every member, when the pass ends,
    whether the pass continues the search or returns.  The open set
    changes by handles only, the candidate's being the only one it
    can gain: a better way into a grid cell is a new node. *)
Theorem nodes_fixed_after_collision_check
    (start stop : Vector3d) (start_time budget : float) :
  (forall fuel next s neighbor s',
     visit_neighbor fuel next stop s neighbor = Some s' ->
     exists m,
       store s'
       = store s
         ++ [set_collision_prob
               (candidate (store s) next neighbor stop) m]
       /\ (forall p, p < length (store s) ->
             get (store s') p = get (store s) p)
       /\ time_ (get (store s') (length (store s)))
          = time_ (candidate (store s) next neighbor stop)
       /\ cost_to_come_ (get (store s') (length (store s)))
          = cost_to_come_ (candidate (store s) next neighbor stop)
       /\ forall p, In p (open s') ->
            In p (open s) \/ p = length (store s))
  /\
  (forall k s fuel s',
     Reaches start stop start_time budget k s ->
     pass fuel stop budget k s = Some (Continue s') ->
     length (store s) <= length (store s')
     /\ forall p, p < length (store s) ->
          get (store s') p = get (store s) p)
  /\
  (forall k s fuel result s',
     Reaches start stop start_time budget k s ->
     pass fuel stop budget k s = Some (Return result s') ->
     length (store s) <= length (store s')
     /\ forall p, p < length (store s) ->
          get (store s') p = get (store s) p).
Proof.
  split; [|split].
  - intros fuel next s neighbor s' Hrun.
    destruct (visit_neighbor_effect _ _ _ _ _ _ Hrun) as (m & Hst & _ & Hop).
    exists m. rewrite Hst.
    split; [reflexivity|].
    split; [intros p Hp; now apply get_old|].
    rewrite get_new. simpl. auto.
  - intros k s fuel s' Hreach Hpass.
    destruct (pass_Continue _ _ _ _ _ _ Hpass)
      as (next & rest & neighbors & Hopen & _ & _ & Hvisit).
    assert (Hnext : next < length (store s)).
    { apply (Reaches_wf _ _ _ _ _ _ Hreach). rewrite Hopen. now left. }
    apply visit_all_effect in Hvisit; [|exact Hnext].
    destruct Hvisit as (extra & Hst' & _). simpl in Hst'.
    rewrite Hst', length_app.
    split; [lia|]. intros p Hp. now apply get_old.
  - intros k s fuel result s' _ Hpass.
    destruct (pass_Return _ _ _ _ _ _ _ Hpass)
      as [->|(next & rest & _ & ->)].
    + auto.
    + simpl. rewrite length_app.
      split; [lia|]. intros p Hp. now apply get_old.
Qed.

(** *** The open set *)

(** The element [find] reports in the open set has neither a lower
    nor a higher priority than the key: the test that guards the
    replacement of an open node never succeeds, and [offer] leaves
    the open set alone when some open node has the candidate's
    priority and inserts the candidate otherwise. *)
Lemma offer_by_priority st op node :
  offer st op node
  = match Multiset.find (NodeComparitor st) node op with
    | Some _ => op
    | None => Multiset.insert (NodeComparitor st) node op
    end.
Proof.
  unfold offer.
  destruct (Multiset.find (NodeComparitor st) node op) as [m|] eqn:E;
    [|reflexivity].
  destruct (find_equivalent _ _ _ _ _ E) as (y & Hy & _ & Hlt).
  rewrite (nth_error_nth _ _ node Hy).
  unfold NodeComparitor in Hlt. now rewrite Hlt.
Qed.

(** *** Arrival times *)

Section Times.

(** The dynamics answer with durations that are not negative. *)
Hypothesis durations_nonneg :
  forall p q, (0 <=? BestPossibleTime p q) = true.

Lemma candidate_time st next neighbor stop :
  exists d,
    (0 <=? d) = true
    /\ time_ (candidate st next neighbor stop) = time_ (get st next) + d.
Proof.
  unfold TimeVaryingAStar.candidate, TimeVaryingAStar.create_neighbor,
    Node_Create.
  cbv zeta. simpl fst. rewrite get_new. simpl time_.
  destruct (isApprox neighbor (point_ (get st next)) 1e-8).
  - exists kStayPutTime. split; reflexivity.
  - eexists. split; [apply durations_nonneg|reflexivity].
Qed.

Lemma sound_root n :
  parent_ n = None -> (neg_infinity <? time_ n) = true -> sound_store [n].
Proof.
  intros Hp Ht.
  assert (H0 : forall p, (p < length [n])%nat -> get [n] p = n).
  { intros p Hlt. simpl in Hlt. assert (p = 0%nat) by lia. now subst. }
  split; [|split].
  - intros p q Hlt Hq. rewrite (H0 p Hlt) in Hq. congruence.
  - intros p Hlt. now rewrite (H0 p Hlt).
  - intros p q Hlt Hq. rewrite (H0 p Hlt) in Hq. congruence.
Qed.

(** A node whose parent is allocated and no later than it keeps a
    store sound. *)
Lemma sound_snoc st n q :
  sound_store st ->
  parent_ n = Some q -> (q < length st)%nat ->
  (time_ (get st q) <=? time_ n) = true ->
  (neg_infinity <? time_ n) = true ->
  sound_store (st ++ [n]).
Proof.
  intros (Hwf & Htm & Hmono) Hp Hq Hle Ht. split; [|split].
  - apply wf_store_snoc; [exact Hwf|].
    intros q' Hq'. congruence.
  - intros p Hlt. rewrite length_app in Hlt. simpl in Hlt.
    destruct (Nat.eq_dec p (length st)) as [->|Hne].
    + now rewrite get_new.
    + rewrite get_old by lia. apply Htm. lia.
  - intros p q' Hlt Hq'. rewrite length_app in Hlt. simpl in Hlt.
    destruct (Nat.eq_dec p (length st)) as [->|Hne].
    + rewrite get_new in *. assert (q' = q) by congruence. subst q'.
      now rewrite get_old by exact Hq.
    + rewrite get_old in Hq' by lia.
      assert (q' < p)%nat by (apply (Hwf p q'); [lia|exact Hq']).
      rewrite !get_old by lia. apply Hmono; [lia|exact Hq'].
Qed.

Lemma sound_child st next stop n :
  sound_store st -> (next < length st)%nat ->
  child_of st next stop n ->
  sound_store (st ++ [n]).
Proof.
  intros Hs Hnext (neighbor & m & ->).
  destruct (candidate_time st next neighbor stop) as (d & Hd & Htime).
  destruct Hs as (Hwf & Htm & Hmono).
  destruct (FloatAdd.add_advances (time_ (get st next)) d (Htm _ Hnext) Hd)
    as [Hle Hfin].
  apply (sound_snoc st _ next); auto.
  - split; [|split]; assumption.
  - simpl. apply candidate_parent.
  - simpl. now rewrite Htime.
  - simpl. now rewrite Htime.
Qed.

Lemma sound_children st next stop extra :
  sound_store st -> (next < length st)%nat ->
  Forall (child_of st next stop) extra ->
  sound_store (st ++ extra).
Proof.
  revert st. induction extra as [|n extra IH]; intros st Hs Hnext Hall.
  - now rewrite app_nil_r.
  - inversion Hall as [|? ? Hn Hrest]; subst.
    change (n :: extra) with ([n] ++ extra). rewrite app_assoc.
    apply IH.
    + eapply sound_child; eassumption.
    + rewrite length_app. lia.
    + eapply Forall_impl; [|exact Hrest].
      intros a (nb & m & ->). exists nb, m.
      now rewrite candidate_old by exact Hnext.
Qed.

Lemma sound_terminus st next stop :
  sound_store st -> (next < length st)%nat ->
  sound_store (st ++ [terminus_node st next stop]).
Proof.
  intros Hs Hnext.
  assert (Hparent : (goal_parent st next < length st)%nat).
  { unfold goal_parent.
    destruct (parent_ (get st next)) as [q|] eqn:E; [|exact Hnext].
    destruct Hs as (Hwf & _). specialize (Hwf _ _ Hnext E). lia. }
  destruct Hs as (Hwf & Htm & Hmono).
  destruct (FloatAdd.add_advances
              (time_ (get st (goal_parent st next)))
              (BestPossibleTime (point_ (get st (goal_parent st next))) stop)
              (Htm _ Hparent) (durations_nonneg _ _))
    as [Hle Hfin].
  apply (sound_snoc st _ (goal_parent st next)); auto.
  - split; [|split]; assumption.
  - now rewrite terminus_node_eq.
  - now rewrite terminus_node_eq.
  - now rewrite terminus_node_eq.
Qed.

(** Every state the main loop reaches has a sound store. *)
Lemma Reaches_sound start stop start_time budget k s :
  (neg_infinity <? start_time) = true ->
  Reaches start stop start_time budget k s -> sound_store (store s).
Proof.
  intros Hstart Hreach.
  induction Hreach as [|k fuel s s' Hreach IH Hpass].
  - apply sound_root; [reflexivity|exact Hstart].
  - destruct (pass_Continue _ _ _ _ _ _ Hpass)
      as (next & rest & neighbors & Hopen & _ & _ & Hvisit).
    assert (Hnext : (next < length (store s))%nat).
    { apply (Reaches_wf _ _ _ _ _ _ Hreach). rewrite Hopen. now left. }
    apply visit_all_effect in Hvisit; [|exact Hnext].
    destruct Hvisit as (extra & Hst' & Hall & _). simpl in Hst', Hall.
    rewrite Hst'. eapply sound_children; eassumption.
Qed.

(** Whatever the main loop returns, some pass returned it, from a state
    the loop reached. *)
Lemma main_loop_Return fuel :
  forall start stop start_time budget k s result s',
    Reaches start stop start_time budget k s ->
    main_loop fuel stop budget k s = Some (result, s') ->
    exists k0 s0 fuel0,
      Reaches start stop start_time budget k0 s0
      /\ pass fuel0 stop budget k0 s0 = Some (Return result s').
Proof.
  induction fuel as [|fuel IH];
    intros start stop start_time budget k s result s' Hreach Hrun.
  - discriminate.
  - rewrite main_loop_S in Hrun.
    destruct (pass fuel stop budget k s) as [[r s1|s1]|] eqn:E;
      [| |discriminate].
    + inversion Hrun; subst. exists k, s, fuel. auto.
    + eapply IH; [|exact Hrun].
      eapply Reaches_pass; eassumption.
Qed.

(** A pass that returns a trajectory took the goal branch. *)
Lemma pass_Return_Some fuel stop budget k s t s' :
  pass fuel stop budget k s = Some (Return (Some t) s') ->
  exists next rest,
    open s = next :: rest
    /\ store s' = store s ++ [terminus_node (store s) next stop]
    /\ GenerateTrajectory fuel (store s') (length (store s)) = Some t.
Proof.
  unfold TimeVaryingAStar.pass.
  destruct (budget <? elapsed k); [discriminate|].
  destruct (open s) as [|next rest]; [discriminate|].
  destruct (at_goal (point_ (get (store s) next)) stop).
  - rewrite connect_goal_eq.
    destruct (GenerateTrajectory fuel _ _) as [t'|] eqn:E; [|discriminate].
    intro H. inversion H; subst. exists next, rest. simpl. auto.
  - destruct (Neighbors fuel (point_ (get (store s) next)));
      [|discriminate].
    destruct (visit_all _ _ _ _ _); discriminate.
Qed.

(** Along a parent chain of a sound store the times descend, pointer
    by pointer. *)
Lemma Chain_descends st :
  sound_store st ->
  forall n ns,
    Chain st n ns ->
    (forall p, n = Some p -> (p < length st)%nat) ->
    Sorted (fun a b => (b <=? a) = true) (map time_ ns).
Proof.
  intros (Hwf & _ & Hmono) n ns Hchain.
  induction Hchain as [|p ns Hchain IH]; intro Hn.
  - constructor.
  - specialize (Hn p eq_refl). simpl. constructor.
    + apply IH. intros q Hq. specialize (Hwf p q Hn Hq). lia.
    + inversion Hchain as [Hnone|q ns' Hchain' Hq]; subst; simpl.
      * constructor.
      * constructor. apply Hmono; [exact Hn|congruence].
Qed.

Lemma Sorted_snoc (R : float -> float -> Prop) (l : list float) (a : float) :
  Sorted R l ->
  (forall x, In x (firstn 1 (rev l)) -> R x a) ->
  Sorted R (l ++ [a]).
Proof.
  induction l as [|b l IH]; intros Hs Hlast; simpl.
  - repeat constructor.
  - inversion Hs as [|? ? Hs' Hhd]; subst. constructor.
    + apply IH; [exact Hs'|].
      intros x Hx. apply Hlast. simpl.
      destruct (rev l) as [|y r] eqn:E; [destruct Hx|].
      simpl in *. exact Hx.
    + destruct l as [|c l]; simpl.
      * constructor. apply Hlast. simpl. now left.
      * inversion Hhd; subst. now constructor.
Qed.

(** A sequence that descends, reversed, ascends. *)
Lemma Sorted_rev_flip (l : list float) :
  Sorted (fun a b => (b <=? a) = true) l ->
  Sorted (fun a b => (a <=? b) = true) (rev l).
Proof.
  induction l as [|a l IH]; intro Hs; simpl.
  - constructor.
  - inversion Hs as [|? ? Hs' Hhd]; subst.
    apply Sorted_snoc; [now apply IH|].
    intros x Hx. rewrite rev_involutive in Hx.
    destruct l as [|b l]; [destruct Hx|].
    simpl in Hx. destruct Hx as [<-|[]].
    now inversion Hhd; subst.
Qed.

(** [C7]  When the start time is a number above minus infinity and the
    dynamics answer with durations that are not negative, every
    trajectory [Plan] returns is the reversal of the parent chain of
    the terminal node: its times and the positions lifted into its
    states are those of the chain's nodes taken in the same
    root-to-goal order, and its times never decrease from one to the
    next; and in the store the search ends with, no node arrives
    earlier than its parent. *)
Theorem trajectory_times_ascend
    (start stop : Vector3d) (start_time budget : float)
    (fuel : nat) (trajectory : Trajectory) (s : PlanState) :
  (neg_infinity <? start_time) = true ->
  Plan fuel start stop start_time budget = Some (Some trajectory, s) ->
  exists chain,
    Chain (store s) (Some (length (store s) - 1)%nat) chain
    /\ times_ trajectory = rev (map time_ chain)
    /\ states_ trajectory
       = LiftGeometricTrajectory (rev (map point_ chain))
                                 (rev (map time_ chain))
    /\ non_decreasing (times_ trajectory)
    /\ monotone_store (store s).
Proof.
  intros Hstart Hplan. unfold TimeVaryingAStar.Plan in Hplan.
  destruct (main_loop_Return _ _ _ _ _ _ _ _ _
              (Reaches_initial _ _ _ _ _ _ _ _ _ start stop start_time budget)
              Hplan)
    as (k0 & s0 & fuel0 & Hreach & Hpass).
  destruct (pass_Return_Some _ _ _ _ _ _ _ Hpass)
    as (next & rest & Hopen & Hstore & Hgen).
  assert (Hnext : (next < length (store s0))%nat).
  { apply (Reaches_wf _ _ _ _ _ _ Hreach). rewrite Hopen. now left. }
  assert (Hsound : sound_store (store s)).
  { rewrite Hstore. apply sound_terminus; [|exact Hnext].
    eapply Reaches_sound; eassumption. }
  rewrite GenerateTrajectory_eq in Hgen.
  destruct (parent_chain fuel0 (store s) (Some (length (store s0))))
    as [chain|] eqn:Echain; [|discriminate].
  inversion Hgen; subst trajectory; clear Hgen.
  assert (Hlast : (length (store s) - 1 = length (store s0))%nat).
  { rewrite Hstore, length_app. simpl. lia. }
  exists chain. rewrite Hlast.
  split; [eapply parent_chain_Chain; exact Echain|].
  split; [reflexivity|]. split; [reflexivity|].
  split; [|apply Hsound].
  apply Sorted_rev_flip.
  eapply Chain_descends; [exact Hsound| |].
  - eapply parent_chain_Chain; exact Echain.
  - intros p Hp. inversion Hp; subst. rewrite Hstore, length_app. simpl. lia.
Qed.

End Times.

End Search.

End SearchFacts.

(* ------------------------------------------------------------------ *)
(** ** The RRT planner *)

Module RrtFacts.

Import TimeVaryingRrt.
Local Open Scope float_scope.

Section Rrt.

Variable incoming_value_ outgoing_value_ : ValueFunctionId.
Variable IsValid : Vector3d -> ValueFunctionId -> ValueFunctionId -> bool.
Variable Sample : nat -> Vector3d.
Variable KnnSearch : list Node -> Vector3d -> nat -> list Node.
Variable BestPossibleTime : Vector3d -> Vector3d -> float.
Variable elapsed : nat -> float.
Variable ENABLE_DEBUG_MESSAGES : bool.

Local Notation sampling_loop :=
  (sampling_loop Sample KnnSearch BestPossibleTime elapsed
                 ENABLE_DEBUG_MESSAGES).
Local Notation Plan :=
  (Plan incoming_value_ outgoing_value_ IsValid Sample KnnSearch
        BestPossibleTime elapsed ENABLE_DEBUG_MESSAGES).

(** The loop unfolded once. *)
Lemma sampling_loop_exit fuel stop budget k tree :
  (elapsed k <? budget) = false ->
  sampling_loop fuel stop budget k tree
  = Some (mkOutcome None tree [] k (S k)).
Proof. intro H. destruct fuel; simpl; now rewrite H. Qed.

Lemma sampling_loop_step fuel stop budget k tree nearest :
  (elapsed k <? budget) = true ->
  KnnSearch tree (Sample k) kNumNeigbhbors = [nearest] ->
  sampling_loop (S fuel) stop budget k tree
  = sampling_loop fuel stop budget (S k) tree.
Proof.
  intros H Hknn. simpl. rewrite H, Hknn. simpl.
  rewrite andb_false_r. reflexivity.
Qed.

(** However the loop ends, it returns the null pointer and the tree
    it was entered with, and logs no warning. *)
Lemma sampling_loop_outcome fuel stop budget :
  forall k tree out,
    sampling_loop fuel stop budget k tree = Some out ->
    result out = None
    /\ kdtree out = tree
    /\ forall period message, ~ In (WARN_THROTTLE period message) (log out).
Proof.
  induction fuel as [|fuel IH]; intros k tree out H.
  - simpl in H. destruct (elapsed k <? budget); [discriminate|].
    inversion H; subst; simpl. repeat split; auto.
  - simpl in H. destruct (elapsed k <? budget).
    + destruct (ENABLE_DEBUG_MESSAGES && _).
      * inversion H; subst; simpl. repeat split; auto.
        intros period message [Hin|[]]. discriminate.
      * destruct (KnnSearch tree (Sample k) kNumNeigbhbors)
          as [|nearest others]; [discriminate|].
        simpl in H. now apply IH in H.
    + inversion H; subst; simpl. repeat split; auto.
Qed.

(** While the budget lasts and the kd-tree answers with a nearest
    neighbour, the loop runs on with the tree unchanged. *)
Lemma sampling_loop_run n :
  forall fuel stop budget k tree,
    tree <> [] ->
    (forall t q, t <> [] -> length (KnnSearch t q kNumNeigbhbors) = 1%nat) ->
    (forall j, (j < n)%nat -> (elapsed (k + j) <? budget) = true) ->
    sampling_loop (n + fuel) stop budget k tree
    = sampling_loop fuel stop budget (k + n) tree.
Proof.
  induction n as [|n IH]; intros fuel stop budget k tree Htree Hknn Hrun.
  - now rewrite Nat.add_0_r.
  - specialize (Hknn tree (Sample k) Htree) as Hlen.
    destruct (KnnSearch tree (Sample k) kNumNeigbhbors)
      as [|nearest [|? ?]] eqn:E; try discriminate.
    change (S n + fuel)%nat with (S (n + fuel)).
    rewrite (sampling_loop_step _ _ _ _ _ nearest).
    + rewrite IH; auto.
      * f_equal. lia.
      * intros j Hj. replace (S k + j)%nat with (k + S j)%nat by lia.
        apply Hrun. lia.
    + specialize (Hrun 0%nat ltac:(lia)). now rewrite Nat.add_0_r in Hrun.
    + exact E.
Qed.

(** [C8]  [CollisionCheck] rejects every pair of points at every
    start time.  Consequently, when both endpoints pass the validity
    test, whatever [Plan] returns is the null pointer, with a
    kd-tree that holds, beyond what it held before the call, the
    root only; and when the budget expires at the [n]-th reading of
    the clock, the kd-tree answering each search with one neighbour,
    [Plan] does return: no trajectory, after [n] samples. *)
Theorem Plan_never_connects
    (tree : list Node) (start stop : Vector3d)
    (start_time budget : float) :
  (forall a b t, CollisionCheck a b t = false)
  /\
  (IsValid start incoming_value_ outgoing_value_ = true ->
   IsValid stop incoming_value_ outgoing_value_ = true ->
   (forall fuel out,
      Plan fuel tree start stop start_time budget = Some out ->
      result out = None
      /\ kdtree out = tree ++ [Node_Create start None start_time])
   /\
   (forall n,
      (forall t q, t <> [] ->
         length (KnnSearch t q kNumNeigbhbors) = 1%nat) ->
      (forall j, (j < n)%nat -> (elapsed j <? budget) = true) ->
      (elapsed n <? budget) = false ->
      forall fuel, (n <= fuel)%nat ->
        Plan fuel tree start stop start_time budget
        = Some (mkOutcome None
                  (tree ++ [Node_Create start None start_time])
                  [] n (S n)))).
Proof.
  split; [reflexivity|].
  intros Hstart Hstop. unfold TimeVaryingRrt.Plan.
  rewrite Hstart, Hstop. simpl negb. cbv iota.
  split.
  - intros fuel out H. apply sampling_loop_outcome in H.
    destruct H as (H1 & H2 & _). auto.
  - intros n Hknn Hrun Hexit fuel Hfuel.
    replace fuel with (n + (fuel - n))%nat by lia.
    rewrite sampling_loop_run; auto.
    + now apply sampling_loop_exit.
    + intro H. now apply app_eq_nil in H as [_ H].
Qed.

(** [C9]  When the environment reports [start] or [stop] invalid,
    [Plan] returns the null pointer at once, whatever the fuel:
    the kd-tree is as it was (no root was inserted), no sample was
    drawn and the clock of the budget was never read; and it logs a
    validity warning, which no return of [Plan] with two valid
    endpoints carries, the one at the expiry of the budget
    included. *)
Theorem Plan_invalid_endpoint
    (tree : list Node) (start stop : Vector3d)
    (start_time budget : float) (fuel : nat) :
  (IsValid start incoming_value_ outgoing_value_ = false
   \/ IsValid stop incoming_value_ outgoing_value_ = false ->
   exists message,
     Plan fuel tree start stop start_time budget
     = Some (mkOutcome None tree [WARN_THROTTLE 1 message] 0 0))
  /\
  (IsValid start incoming_value_ outgoing_value_ = true ->
   IsValid stop incoming_value_ outgoing_value_ = true ->
   forall out,
     Plan fuel tree start stop start_time budget = Some out ->
     forall period message, ~ In (WARN_THROTTLE period message) (log out)).
Proof.
  unfold TimeVaryingRrt.Plan. split.
  - intros [H|H].
    + rewrite H. simpl. eauto.
    + destruct (IsValid start incoming_value_ outgoing_value_);
        simpl; [rewrite H; simpl|]; eauto.
  - intros Hstart Hstop out H. rewrite Hstart, Hstop in H. simpl in H.
    apply sampling_loop_outcome in H. apply H.
Qed.

End Rrt.

End RrtFacts.


(* ------------------------------------------------------------------ *)
(** ** Runs of the planners in the small world *)

Module Runs.

Import TimeVaryingAStar Example.
Local Open Scope float_scope.


(** [C10] at work: the four queries of the first check above are made
    before the stop time 1, none at it; and a check whose stop time is
    its start time makes no query. *)
Lemma CollisionCheck_queries_before_stop_time_run :
  (Forall (fun s => (snd s <? 1) = true)
          [(Vec3 0 0 0, 0); (Vec3 0.25 0 0, 0.25);
           (Vec3 0.5 0 0, 0.5); (Vec3 0.75 0 0, 0.75)]
   /\ forall position,
        ~ In (position, 1)
             [(Vec3 0 0 0, 0); (Vec3 0.25 0 0, 0.25);
              (Vec3 0.5 0 0, 0.5); (Vec3 0.75 0 0, 0.75)])
  /\ Example.CollisionCheck 0 origin one_cell_east 1 1 0.5
     = Some (true, 0.5, []).
Proof.
  split.
  - exact (proj1 (SegmentWalk.CollisionCheck_queries_before_stop_time
                    incoming outgoing 0.25 wall origin one_cell_east 0 1 0)
                 10%nat false 0.75 _ eq_refl).
  - exact (proj2 (SegmentWalk.CollisionCheck_queries_before_stop_time
                    incoming outgoing 0.25 wall origin one_cell_east 1 1 0.5)
                 eq_refl 0%nat).
Defined.

(** [C2] at work: a goal a quarter of a cell from the start is found
    in the first pass; the terminus hangs off the start node, and the
    trajectory is the one segment from the origin at time 0 to the goal
    at time 0.25. *)
Lemma Plan_goal_found_run :
  (exists ancestors,
     Chain (store (initial unit_speed origin near_origin 0)) (Some 0%nat)
           ancestors
     /\ Example.pass running_clock same_pointer 5 near_origin 10 0
          (initial unit_speed origin near_origin 0)
        = Some (Return
                  (Some (trajectory_through incoming coordinates
                           (mkNode near_origin (Some 0%nat) 0.25 0.25 0 0.25 0
                              :: ancestors)))
                  (mkState
                     [mkNode origin None 0 0 0.25 0.25 0;
                      mkNode near_origin (Some 0%nat) 0.25 0.25 0 0.25 0]
                     [] [] [])))
  /\ option_map fst
       (Example.Plan running_clock same_pointer 5 origin near_origin 0 10)
     = Some (Some (mkTrajectory [0; 0.25] [[0; 0; 0]; [0.25; 0; 0]]
                                [incoming; incoming] [incoming; incoming])).
Proof.
  split.
  - exact (proj2 (proj2 (proj2 (proj2
             (proj1 (SearchFacts.Plan_goal_found
                       incoming outgoing 1 0.5 free_space unit_speed
                       coordinates running_clock same_pointer
                       origin near_origin 0 10)
                    0%nat (initial unit_speed origin near_origin 0) 0%nat []
                    5%nat
                    (Reaches_initial incoming outgoing 1 0.5 free_space
                       unit_speed coordinates running_clock same_pointer
                       origin near_origin 0 10)
                    eq_refl eq_refl eq_refl ltac:(simpl; lia)))))).
  - exact (proj2 (SearchFacts.Plan_goal_found
                    incoming outgoing 1 0.5 free_space unit_speed
                    coordinates running_clock same_pointer
                    origin near_origin 0 10)
                 eq_refl eq_refl 5%nat ltac:(lia)).
Defined.

(** [C6] at work: with a budget of 0 and a clock that has advanced,
    [Plan] returns no trajectory and leaves the start node alone. *)
Lemma Plan_budget_zero_run :
  Example.Plan running_clock same_pointer 5 origin two_cells_east 0 0
  = Some (None, mkState [mkNode origin None 0 0 2 2 0] [0%nat] [] []).
Proof.
  exact (SearchFacts.Plan_budget_zero
           incoming outgoing 1 0.5 free_space unit_speed coordinates
           running_clock same_pointer origin two_cells_east 0 5
           eq_refl ltac:(lia)).
Defined.

(** [C6] as stated fails: with a budget of 0 and a clock that reads the
    same instant at the start of [Plan] and at the first check of the
    loop, the elapsed time 0 is not greater than the budget, and the
    search goes on.  Two cells from the goal in free space, at half
    speed, it expands the start node and a second one, queries the
    environment 181 times and returns a trajectory; at unit speed the
    first pass expands the start node. *)
Lemma Plan_budget_zero_frozen_clock :
  (exists s,
     Example.PlanSlow frozen_clock same_pointer 100 origin two_cells_east 0 0
     = Some (Some (mkTrajectory [0; 2; 4]
                     [[0; 0; 0]; [1; 0; 0]; [2; 0; 0]]
                     [incoming; incoming; incoming]
                     [incoming; incoming; incoming]), s)
     /\ closed s = [0%nat; 23%nat]
     /\ length (queries s) = 181%nat)
  /\ (exists s,
        Example.pass frozen_clock same_pointer 100 two_cells_east 0 0
          (initial unit_speed origin two_cells_east 0)
        = Some (Continue s)
        /\ closed s = [0%nat]
        /\ length (store s) = 28%nat
        /\ length (queries s) = 91%nat).
Proof.
  split.
  - eexists. split; [vm_compute; reflexivity|]. split; reflexivity.
  - eexists. split; [vm_compute; reflexivity|]. repeat split; reflexivity.
Qed.

(** [C4] at work: the first neighbour the first pass visits. *)
Lemma nodes_fixed_after_collision_check_run :
  exists s' m,
    visit_neighbor incoming outgoing 0.5 free_space unit_speed same_pointer
      100 0 two_cells_east start_popped one_cell_east = Some s'
    /\ store s'
       = store start_popped
         ++ [set_collision_prob
               (candidate unit_speed (store start_popped) 0 one_cell_east
                          two_cells_east) m]
    /\ get (store s') 0 = get (store start_popped) 0
    /\ time_ (get (store s') 1) = 1
    /\ cost_to_come_ (get (store s') 1) = 1.
Proof.
  destruct (visit_neighbor incoming outgoing 0.5 free_space unit_speed
              same_pointer 100 0 two_cells_east start_popped one_cell_east)
    as [s'|] eqn:E.
  - destruct (proj1 (SearchFacts.nodes_fixed_after_collision_check
                       incoming outgoing 1 0.5 free_space unit_speed
                       coordinates frozen_clock same_pointer
                       origin two_cells_east 0 10)
                    100%nat 0%nat start_popped one_cell_east s' E)
      as (m & Hstore & Hold & Htime & Hcost & _).
    exists s', m. split; [reflexivity|]. split; [exact Hstore|].
    split; [apply Hold; simpl; lia|].
    split; [exact Htime|exact Hcost].
  - vm_compute in E. discriminate E.
Defined.

(** [C4] as stated fails for the collision probability: the node
    [Node::Create] made for the neighbour one cell east holds the
    probability 0 when it is created, and the collision check of its
    edge, which comes after, writes 0.25 into that same node. *)
Lemma collision_check_writes_created_node :
  let created :=
    create_neighbor unit_speed (store start_popped) 0 one_cell_east
                    two_cells_east in
  let before := mkState (fst created) [] [0%nat] [] in
  exists after,
    check_neighbor incoming outgoing 0.5 free_space same_pointer 100
                   before 0 one_cell_east (snd created) = Some after
    /\ (snd created < length (store before))%nat
    /\ collision_prob_ (get (store before) (snd created)) = 0
    /\ collision_prob_ (get (store after) (snd created)) = 0.25
    /\ get (store after) (snd created) <> get (store before) (snd created).
Proof.
  cbv zeta. eexists. split; [vm_compute; reflexivity|].
  split; [vm_compute; lia|]. split; [reflexivity|]. split; [reflexivity|].
  intro H. apply (f_equal (fun n => collision_prob_ n =? 0)) in H.
  vm_compute in H. discriminate H.
Qed.

(** [C5] fails on the code: the open set is searched by priority, not
    by grid position.  In free space, two cells from the goal:
    - at unit speed, the first pass offers the 27 neighbours of the
      start, all of them collision free and none of them open, and the
      open set keeps 8: a candidate is dropped when some open node,
      wherever it is, has its priority; the candidate at [(-1, -1, 1)]
      is dropped for the node at [(-1, -1, -1)], and the one at
      [(1, 0, 0)], the step towards the goal, for the node that stays
      at the start;
    - at half speed, when [Plan] returns, the open set holds the nodes
      10 and 28, both at [(0, -1, -1)], with priorities that differ:
      the later and worse one was inserted beside the earlier. *)
Theorem open_set_searched_by_priority :
  (exists s,
     Example.pass frozen_clock same_pointer 100 two_cells_east 10 0
       (initial unit_speed origin two_cells_east 0)
     = Some (Continue s)
     /\ length (store s) = 28%nat
     /\ length (queries s) = 91%nat
     /\ open s = [14; 20; 11; 19; 10; 5; 2; 1]%nat
     /\ point_ (get (store s) 1) = Vec3 (-1) (-1) (-1)
     /\ point_ (get (store s) 3) = Vec3 (-1) (-1) 1
     /\ priority_ (get (store s) 3) = priority_ (get (store s) 1)
     /\ point_ (get (store s) 14) = origin
     /\ point_ (get (store s) 23) = one_cell_east
     /\ priority_ (get (store s) 23) = priority_ (get (store s) 14))
  /\ (exists t s,
        Example.PlanSlow frozen_clock same_pointer 100
          origin two_cells_east 0 10
        = Some (Some t, s)
        /\ In 10%nat (open s) /\ In 28%nat (open s)
        /\ point_ (get (store s) 10) = Vec3 0 (-1) (-1)
        /\ point_ (get (store s) 28) = Vec3 0 (-1) (-1)
        /\ (priority_ (get (store s) 10) <? priority_ (get (store s) 28))
           = true).
Proof.
  split.
  - eexists. split; [vm_compute; reflexivity|]. repeat split; reflexivity.
  - eexists. eexists. split; [vm_compute; reflexivity|].
    split; [simpl; tauto|]. split; [simpl; tauto|].
    repeat split; reflexivity.
Qed.

(** [C8] at work: in an open field, with a budget that expires at the
    third reading of the clock, the RRT draws two samples, connects
    neither, and returns no trajectory with the root alone in the
    tree. *)
Lemma Plan_never_connects_run :
  Example.RrtPlan open_field 5 [] origin two_cells_east 0 0.0029296875
  = Some (TimeVaryingRrt.mkOutcome None
            [TimeVaryingRrt.Node_Create origin None 0] [] 2 3).
Proof.
  refine (proj2 (proj2 (RrtFacts.Plan_never_connects
                          incoming outgoing open_field draw_origin
                          first_nodes unit_speed running_clock false
                          [] origin two_cells_east 0 0.0029296875)
                       eq_refl eq_refl)
                2%nat _ _ eq_refl 5%nat _).
  - intros t q Ht. destruct t; [contradiction|reflexivity].
  - intros j Hj. destruct j as [|[|j]]; [reflexivity ..|lia].
  - lia.
Defined.

(** [C9] at work: a goal behind the wall is refused at once, with no
    fuel at all. *)
Lemma Plan_invalid_endpoint_run :
  exists message,
    Example.RrtPlan west_of_wall 0 [] origin two_cells_east 0 10
    = Some (TimeVaryingRrt.mkOutcome None []
              [TimeVaryingRrt.WARN_THROTTLE 1 message] 0 0).
Proof.
  exact (proj1 (RrtFacts.Plan_invalid_endpoint
                  incoming outgoing west_of_wall draw_origin first_nodes
                  unit_speed running_clock false
                  [] origin two_cells_east 0 10 0)
               (or_intror eq_refl)).
Defined.

Lemma unit_speed_nonneg (p q : Vector3d) : (0 <=? unit_speed p q) = true.
Proof.
  unfold unit_speed. cbv zeta.
  destruct (0 <=? norm (vsub q p)) eqn:E; [exact E|reflexivity].
Qed.

Lemma half_speed_nonneg (p q : Vector3d) : (0 <=? half_speed p q) = true.
Proof.
  unfold half_speed. cbv zeta.
  destruct (0 <=? 2 * norm (vsub q p)) eqn:E; [exact E|reflexivity].
Qed.

(** [C7] at work: the trajectory found in free space two cells from the
    goal, at half speed. *)
Lemma trajectory_times_ascend_run :
  exists trajectory s chain,
    Example.PlanSlow frozen_clock same_pointer 100 origin two_cells_east 0 10
    = Some (Some trajectory, s)
    /\ Chain (store s) (Some (length (store s) - 1)%nat) chain
    /\ times_ trajectory = rev (map time_ chain)
    /\ states_ trajectory
       = coordinates (rev (map point_ chain)) (rev (map time_ chain))
    /\ non_decreasing (times_ trajectory)
    /\ monotone_store (store s).
Proof.
  assert (Hrun : exists trajectory s,
             TimeVaryingAStar.Plan incoming outgoing 1 0.5 free_space
               half_speed coordinates frozen_clock same_pointer
               100 origin two_cells_east 0 10
             = Some (Some trajectory, s)).
  { eexists. eexists. vm_compute. reflexivity. }
  destruct Hrun as (trajectory & s & E).
  pose proof (SearchFacts.trajectory_times_ascend
                incoming outgoing 1 0.5 free_space half_speed coordinates
                frozen_clock same_pointer half_speed_nonneg
                origin two_cells_east 0 10 100 trajectory s) as H.
  specialize (H eq_refl E). destruct H as (chain & H).
  exists trajectory, s, chain. split; [exact E|exact H].
Defined.

End Runs.

(* ------------------------------------------------------------------ *)
(** ** Binary64 comparison is transitive *)

Module FloatTransitivity.

Lemma SFcompare_trans (x y z : spec_float) :
  SFcompare x y = Some Lt -> SFcompare y z = Some Lt ->
  SFcompare x z = Some Lt.
Proof.
  destruct x as [sx|sx| |sx mx ex], y as [sy|sy| |sy my ey],
    z as [sz|sz| |sz mz ez];
    try destruct sx; try destruct sy; try destruct sz; simpl;
    try congruence.
  all: destruct (Z.compare_spec ex ey), (Z.compare_spec ey ez);
    try congruence; intros H1 H2; subst.
  all: try (rewrite Z.compare_refl).
  all: try match goal with
    | |- context [(?a ?= ?b)%Z] =>
        destruct (Z.compare_spec a b); try lia; try reflexivity
    end.
  all: try (apply f_equal;
     repeat match goal with
     | H : Some _ = Some _ |- _ =>
         apply (f_equal (fun o => match o with
                                  | Some c => c
                                  | None => Eq
                                  end)) in H;
         simpl in H
     end).
  all: try lia.
  - change (CompOpp (mx ?= my)%positive = Lt) in H1.
    change (CompOpp (my ?= mz)%positive = Lt) in H2.
    change (CompOpp (mx ?= mz)%positive = Lt).
    destruct (Pos.compare_spec mx my), (Pos.compare_spec my mz);
      try discriminate.
    destruct (Pos.compare_spec mx mz); try lia; reflexivity.
  - change ((mx ?= my)%positive = Lt) in H1.
    change ((my ?= mz)%positive = Lt) in H2.
    change ((mx ?= mz)%positive = Lt).
    rewrite Pos.compare_lt_iff in *. lia.
Qed.

(** [a < b] and [b < c] give [a < c], in binary64 as in the reals. *)
Lemma ltb_trans (a b c : float) :
  (a <? b)%float = true -> (b <? c)%float = true -> (a <? c)%float = true.
Proof.
  rewrite !ltb_spec. unfold SFltb.
  destruct (SFcompare (Prim2SF a) (Prim2SF b)) as [[ | | ]|] eqn:E1;
    try discriminate.
  destruct (SFcompare (Prim2SF b) (Prim2SF c)) as [[ | | ]|] eqn:E2;
    try discriminate.
  now rewrite (SFcompare_trans _ _ _ E1 E2).
Qed.

End FloatTransitivity.

(* ------------------------------------------------------------------ *)
(** ** More on the A* search: what its stores and states always hold *)

Module SearchMore.

Import TimeVaryingAStar StoreFacts.
Local Open Scope float_scope.

Section Search.

Variable incoming_value_ outgoing_value_ : ValueFunctionId.
Variable grid_resolution_ collision_check_resolution_ : float.
Variable IsValid :
  Vector3d -> ValueFunctionId -> ValueFunctionId -> float -> bool * float.
Variable BestPossibleTime : Vector3d -> Vector3d -> float.
Variable LiftGeometricTrajectory :
  list Vector3d -> list float -> list VectorXd.
Variable elapsed : nat -> float.
Variable closed_equal : Store -> NodePtr -> NodePtr -> bool.

Local Notation candidate := (candidate BestPossibleTime).
Local Notation terminus_node := (terminus_node BestPossibleTime).
Local Notation child_of := (child_of BestPossibleTime).
Local Notation closed_count := (closed_count closed_equal).
Local Notation closed_insert := (closed_insert closed_equal).
Local Notation GenerateTrajectory :=
  (GenerateTrajectory incoming_value_ LiftGeometricTrajectory).
Local Notation trajectory_through :=
  (trajectory_through incoming_value_ LiftGeometricTrajectory).
Local Notation walk_segment :=
  (walk_segment incoming_value_ outgoing_value_
                collision_check_resolution_ IsValid).
Local Notation sample_valid :=
  (sample_valid incoming_value_ outgoing_value_ IsValid).
Local Notation sample_prob :=
  (sample_prob incoming_value_ outgoing_value_ IsValid).
Local Notation CollisionCheck :=
  (CollisionCheck incoming_value_ outgoing_value_
                  collision_check_resolution_ IsValid).
Local Notation Vetted :=
  (Vetted incoming_value_ outgoing_value_
          collision_check_resolution_ IsValid).
Local Notation checked_path :=
  (checked_path incoming_value_ outgoing_value_
                collision_check_resolution_ IsValid).
Local Notation step_point := (step_point collision_check_resolution_).
Local Notation segment_dt := (segment_dt collision_check_resolution_).
Local Notation Neighbors := (Neighbors grid_resolution_).
Local Notation axis_of := (axis_of grid_resolution_).
Local Notation rounds := (rounds grid_resolution_).
Local Notation round_values := (round_values grid_resolution_).
Local Notation check_neighbor :=
  (check_neighbor incoming_value_ outgoing_value_
                  collision_check_resolution_ IsValid closed_equal).
Local Notation visit_neighbor :=
  (visit_neighbor incoming_value_ outgoing_value_
                  collision_check_resolution_ IsValid BestPossibleTime
                  closed_equal).
Local Notation visit_all :=
  (visit_all incoming_value_ outgoing_value_
             collision_check_resolution_ IsValid BestPossibleTime
             closed_equal).
Local Notation pass :=
  (pass incoming_value_ outgoing_value_ grid_resolution_
        collision_check_resolution_ IsValid BestPossibleTime
        LiftGeometricTrajectory elapsed closed_equal).
Local Notation main_loop :=
  (main_loop incoming_value_ outgoing_value_ grid_resolution_
             collision_check_resolution_ IsValid BestPossibleTime
             LiftGeometricTrajectory elapsed closed_equal).
Local Notation initial := (initial BestPossibleTime).
Local Notation Plan :=
  (Plan incoming_value_ outgoing_value_ grid_resolution_
        collision_check_resolution_ IsValid BestPossibleTime
        LiftGeometricTrajectory elapsed closed_equal).
Local Notation Reaches :=
  (Reaches incoming_value_ outgoing_value_ grid_resolution_
           collision_check_resolution_ IsValid BestPossibleTime
           LiftGeometricTrajectory elapsed closed_equal).

(** *** Stores grow by children of the node being expanded *)

(** A property of stores that holds of the store a search starts with
    and survives the allocation of a child of an allocated node holds
    of every store the main loop reaches. *)
Lemma children_preserve (P : Store -> Prop) (stop : Vector3d) :
  (forall st next n,
     wf_store st -> (next < length st)%nat -> P st ->
     child_of st next stop n -> P (st ++ [n])) ->
  forall extra st next,
    wf_store st -> (next < length st)%nat -> P st ->
    Forall (child_of st next stop) extra ->
    P (st ++ extra).
Proof.
  intros Hstep extra.
  induction extra as [|n extra IH]; intros st next Hwf Hnext HP Hall.
  - now rewrite app_nil_r.
  - inversion Hall as [|? ? Hn Hrest]; subst.
    change (n :: extra) with ([n] ++ extra). rewrite app_assoc.
    apply (IH _ next).
    + apply wf_store_snoc; [exact Hwf|].
      intros q Hq.
      rewrite (SearchFacts.child_of_parent _ _ _ _ _ Hn) in Hq.
      inversion Hq; subst. exact Hnext.
    + rewrite length_app. lia.
    + eapply Hstep; eassumption.
    + eapply Forall_impl; [|exact Hrest].
      intros a (nb & m & ->). exists nb, m.
      now rewrite SearchFacts.candidate_old by exact Hnext.
Qed.

Lemma Reaches_preserve (P : Store -> Prop)
    (start stop : Vector3d) (start_time budget : float) :
  P (store (initial start stop start_time)) ->
  (forall st next n,
     wf_store st -> (next < length st)%nat -> P st ->
     child_of st next stop n -> P (st ++ [n])) ->
  forall k s, Reaches start stop start_time budget k s -> P (store s).
Proof.
  intros Hinit Hstep k s Hreach.
  induction Hreach as [|k fuel s s' Hreach IH Hpass]; [exact Hinit|].
  destruct (SearchFacts.pass_Continue _ _ _ _ _ _ _ _ _ _ _ _ _ _ _ Hpass)
    as (next & rest & neighbors & Hopen & _ & _ & Hvisit).
  pose proof (SearchFacts.Reaches_wf _ _ _ _ _ _ _ _ _ _ _ _ _ _ _ Hreach)
    as [Hwf Hop].
  assert (Hnext : (next < length (store s))%nat).
  { apply Hop. rewrite Hopen. now left. }
  apply SearchFacts.visit_all_effect in Hvisit; [|exact Hnext].
  destruct Hvisit as (extra & Hst' & Hall & _). simpl in Hst', Hall.
  rewrite Hst'. eapply children_preserve; eassumption.
Qed.

(** Where [Plan] returns from: a state the main loop reached, as it is
    when no trajectory is returned, with the terminus added and the
    goal node popped when one is. *)
Lemma Plan_returns_from fuel start stop start_time budget result s :
  Plan fuel start stop start_time budget = Some (result, s) ->
  exists k0 s0,
    Reaches start stop start_time budget k0 s0
    /\ ((result = None /\ s = s0
         /\ ((budget <? elapsed k0) = true
             \/ ((budget <? elapsed k0) = false /\ open s0 = [])))
        \/ exists next rest trajectory fuel0,
             result = Some trajectory
             /\ (budget <? elapsed k0) = false
             /\ open s0 = next :: rest
             /\ at_goal grid_resolution_ (point_ (get (store s0) next)) stop
                = true
             /\ s = mkState
                      (store s0 ++ [terminus_node (store s0) next stop])
                      rest (closed s0) (queries s0)
             /\ GenerateTrajectory fuel0 (store s) (length (store s0))
                = Some trajectory).
Proof.
  intro Hplan. unfold TimeVaryingAStar.Plan in Hplan.
  destruct (SearchFacts.main_loop_Return
              _ _ _ _ _ _ _ _ _ _ start stop start_time budget _ _ _ _
              (Reaches_initial _ _ _ _ _ _ _ _ _ start stop start_time budget)
              Hplan)
    as (k0 & s0 & fuel0 & Hreach & Hpass).
  exists k0, s0. split; [exact Hreach|].
  revert Hpass. unfold TimeVaryingAStar.pass.
  destruct (budget <? elapsed k0) eqn:Eb.
  { intro H. inversion H; subst. left. auto. }
  destruct (open s0) as [|next rest] eqn:Eo.
  { intro H. inversion H; subst. left. auto. }
  destruct (at_goal grid_resolution_ (point_ (get (store s0) next)) stop)
    eqn:Eg.
  - rewrite SearchFacts.connect_goal_eq.
    destruct (GenerateTrajectory fuel0 _ _) as [t|] eqn:Et; [|discriminate].
    intro H. inversion H; subst. right.
    exists next, rest, t, fuel0. simpl. repeat split; auto.
  - destruct (Neighbors fuel0 (point_ (get (store s0) next)));
      [|discriminate].
    destruct (visit_all _ _ _ _ _); discriminate.
Qed.

(** *** The nodes of a store *)

Lemma child_facts st next stop n :
  child_of st next stop n ->
  parent_ n = Some next
  /\ priority_ n = cost_to_come_ n + heuristic_ n
  /\ cost_to_come_ n
     = cost_to_come_ (get st next)
       + norm (vsub (point_ (get st next)) (point_ n)).
Proof.
  intros (neighbor & m & ->).
  unfold TimeVaryingAStar.candidate, TimeVaryingAStar.create_neighbor,
    Node_Create, TimeVaryingAStar.ComputeCostToCome.
  cbv zeta. simpl fst. rewrite get_new. simpl. auto.
Qed.

Lemma rooted_snoc start start_time st n :
  rooted_store start start_time st ->
  parent_ n <> None ->
  rooted_store start start_time (st ++ [n]).
Proof.
  intros (Hlen & Hp & Ht & Hc & Hr & Hrest) Hn.
  unfold rooted_store. rewrite length_app, !get_old by exact Hlen.
  repeat split; auto; try lia.
  intros p Hp'. simpl in Hp'.
  destruct (Nat.eq_dec p (length st)) as [->|Hne].
  - now rewrite get_new.
  - rewrite get_old by lia. apply Hrest. lia.
Qed.

Lemma priced_snoc st n q :
  wf_store st -> priced_store st ->
  parent_ n = Some q -> (q < length st)%nat ->
  priority_ n = cost_to_come_ n + heuristic_ n ->
  cost_to_come_ n
  = cost_to_come_ (get st q) + norm (vsub (point_ (get st q)) (point_ n)) ->
  priced_store (st ++ [n]).
Proof.
  intros Hwf Hpriced Hparent Hq Hprio Hcost p Hp.
  rewrite length_app in Hp. simpl in Hp.
  destruct (Nat.eq_dec p (length st)) as [->|Hne].
  - rewrite get_new. split; [exact Hprio|].
    intros q' Hq'. assert (q' = q) by congruence. subst q'.
    now rewrite get_old by exact Hq.
  - rewrite get_old by lia.
    destruct (Hpriced p ltac:(lia)) as [H1 H2]. split; [exact H1|].
    intros q' Hq'.
    assert (q' < p)%nat by (apply (Hwf p q'); [lia|exact Hq']).
    rewrite get_old by lia. now apply H2.
Qed.

Lemma initial_rooted start stop start_time :
  rooted_store start start_time (store (initial start stop start_time)).
Proof.
  unfold rooted_store. simpl. repeat split; auto. intros p Hp. lia.
Qed.

Lemma initial_priced start stop start_time :
  priced_store (store (initial start stop start_time)).
Proof.
  intros p Hp. simpl in Hp. assert (p = 0%nat) by lia. subst.
  split; [reflexivity|]. intros q Hq. discriminate Hq.
Qed.

(** The store [Plan] returns in: well founded, rooted at the start node
    and priced. *)
Lemma Plan_store fuel start stop start_time budget result s :
  Plan fuel start stop start_time budget = Some (result, s) ->
  wf_store (store s)
  /\ rooted_store start start_time (store s)
  /\ priced_store (store s).
Proof.
  intro Hplan.
  destruct (Plan_returns_from _ _ _ _ _ _ _ Hplan) as (k0 & s0 & Hreach & Hcase).
  pose proof (SearchFacts.Reaches_wf _ _ _ _ _ _ _ _ _ _ _ _ _ _ _ Hreach)
    as [Hwf Hop].
  assert (Hrooted : rooted_store start start_time (store s0)).
  { revert Hreach. apply Reaches_preserve; [apply initial_rooted|].
    intros st next n _ _ H Hn. apply rooted_snoc; [exact H|].
    destruct (child_facts _ _ _ _ Hn) as (-> & _). discriminate. }
  assert (Hpriced : wf_store (store s0) /\ priced_store (store s0)).
  { split; [exact Hwf|]. revert Hreach.
    apply (Reaches_preserve priced_store); [apply initial_priced|].
    intros st next n Hw Hnext H Hn.
    destruct (child_facts _ _ _ _ Hn) as (Hp & Hprio & Hcost).
    eapply priced_snoc; eassumption. }
  destruct Hcase as [(_ & -> & _)|(next & rest & t & f0 & _ & _ & Ho & _ & -> & _)].
  - tauto.
  - simpl store.
    assert (Hnext : (next < length (store s0))%nat).
    { apply Hop. rewrite Ho. now left. }
    assert (Hgp : (goal_parent (store s0) next < length (store s0))%nat).
    { unfold goal_parent.
      destruct (parent_ (get (store s0) next)) as [q|] eqn:E; [|exact Hnext].
      specialize (Hwf _ _ Hnext E). lia. }
    pose proof (SearchFacts.terminus_node_eq BestPossibleTime
                  (store s0) next stop) as Ht.
    split; [|split].
    + apply wf_store_snoc; [exact Hwf|].
      intros q Hq. rewrite Ht in Hq. simpl in Hq. congruence.
    + apply rooted_snoc; [exact Hrooted|]. rewrite Ht. discriminate.
    + apply (priced_snoc _ _ (goal_parent (store s0) next));
        try tauto; rewrite Ht; reflexivity.
Qed.

(** A parent chain of a rooted store ends in the start node. *)
Lemma Chain_to_root start start_time st :
  wf_store st -> rooted_store start start_time st ->
  forall n ns,
    Chain st n ns ->
    forall p, n = Some p -> (p < length st)%nat ->
    exists init, ns = init ++ [get st 0].
Proof.
  intros Hwf (_ & _ & _ & _ & _ & Hrest) n ns Hchain.
  induction Hchain as [|p ns Hchain IH]; intros p' Hp' Hlt; [discriminate|].
  inversion Hp'; subst p'; clear Hp'.
  destruct (parent_ (get st p)) as [q|] eqn:E.
  - destruct (IH q eq_refl) as [init ->].
    { specialize (Hwf _ _ Hlt E). lia. }
    exists (get st p :: init). reflexivity.
  - inversion Hchain; subst.
    destruct (Nat.eq_dec p 0) as [->|Hne]; [now exists []|].
    exfalso. apply (Hrest p); [lia|exact E].
Qed.

Lemma path_length_from_snoc rest :
  forall acc p x d,
    path_length_from acc p (rest ++ [x])
    = path_length_from acc p rest + norm (vsub (last (p :: rest) d) x).
Proof.
  induction rest as [|q rest IH]; intros acc p x d; [reflexivity|].
  change (path_length_from (acc + norm (vsub p q)) q (rest ++ [x])
          = path_length_from (acc + norm (vsub p q)) q rest
            + norm (vsub (last (q :: rest) d) x)).
  apply IH.
Qed.

(** In a priced store the cost to come of a node is the length of the
    path through the positions of its parent chain, root first. *)
Lemma Chain_path_length start start_time st :
  wf_store st -> rooted_store start start_time st -> priced_store st ->
  forall n ns,
    Chain st n ns ->
    forall p, n = Some p -> (p < length st)%nat ->
    cost_to_come_ (get st p) = path_length (rev (map point_ ns))
    /\ last (rev (map point_ ns)) start = point_ (get st p)
    /\ rev (map point_ ns) <> [].
Proof.
  intros Hwf Hrooted Hpriced n ns Hchain.
  pose proof Hrooted as (_ & Hstart & _ & Hcost0 & _ & Hrest).
  induction Hchain as [|p ns Hchain IH]; intros p' Hp' Hlt; [discriminate|].
  inversion Hp'; subst p'; clear Hp'. simpl map. simpl rev.
  split; [|split].
  - destruct (parent_ (get st p)) as [q|] eqn:E.
    + assert (Hq : (q < p)%nat) by (apply (Hwf p q); assumption).
      destruct (IH q eq_refl ltac:(lia)) as (Hc & Hl & Hne).
      destruct (rev (map point_ ns)) as [|p0 rest] eqn:Er; [congruence|].
      simpl app. unfold path_length in *.
      rewrite (path_length_from_snoc rest 0 p0 _ start).
      destruct (Hpriced p Hlt) as [_ Hp]. rewrite (Hp q E), Hc, Hl.
      reflexivity.
    + inversion Hchain; subst. simpl.
      destruct (Nat.eq_dec p 0) as [->|Hne]; [exact Hcost0|].
      exfalso. apply (Hrest p); [lia|exact E].
  - now rewrite last_last.
  - intro H. now apply app_eq_nil in H as [_ H].
Qed.

(** [X1]  Every trajectory [Plan] returns runs from [start] at
    [start_time] to [stop]: its times and the positions lifted into its
    states begin with those of the start node and end with those of the
    terminal node at [stop], whatever lies between; there are at least
    two waypoints, and the value tags are the incoming value, one per
    state, on both sides. *)
Theorem trajectory_runs_from_start_to_stop
    (fuel : nat) (start stop : Vector3d) (start_time budget : float)
    (trajectory : Trajectory) (s : PlanState) :
  Plan fuel start stop start_time budget = Some (Some trajectory, s) ->
  exists (inner : list Node) (arrival : float),
    times_ trajectory = start_time :: map time_ inner ++ [arrival]
    /\ states_ trajectory
       = LiftGeometricTrajectory
           (start :: map point_ inner ++ [stop])
           (start_time :: map time_ inner ++ [arrival])
    /\ incoming_values_ trajectory
       = repeat incoming_value_ (length (states_ trajectory))
    /\ outgoing_values_ trajectory = incoming_values_ trajectory.
Proof.
  intro Hplan.
  destruct (Plan_store _ _ _ _ _ _ _ Hplan) as (Hwf & Hrooted & _).
  destruct (Plan_returns_from _ _ _ _ _ _ _ Hplan)
    as (k0 & s0 & Hreach & [(H & _)|(next & rest & t & f0 & Ht & _ & Ho & _
                                       & Hs & Hgen)]);
    [discriminate|].
  inversion Ht; subst t; clear Ht.
  rewrite SearchFacts.GenerateTrajectory_eq in Hgen.
  destruct (parent_chain f0 (store s) (Some (length (store s0))))
    as [chain|] eqn:Echain; [|discriminate].
  inversion Hgen; subst trajectory; clear Hgen.
  pose proof (SearchFacts.parent_chain_Chain _ _ _ _ Echain) as Hchain.
  assert (Hst : store s = store s0 ++ [terminus_node (store s0) next stop])
    by (rewrite Hs; reflexivity).
  clear Hs.
  assert (Hlen : (length (store s0) < length (store s))%nat).
  { rewrite Hst, length_app. simpl. lia. }
  assert (Hterm : get (store s) (length (store s0))
                  = terminus_node (store s0) next stop).
  { rewrite Hst. apply get_new. }
  inversion Hchain as [|p ns Hparent]; subst.
  pose proof (SearchFacts.terminus_node_eq BestPossibleTime
                (store s0) next stop) as Hteq.
  assert (Hpar : parent_ (get (store s) (length (store s0)))
                 = Some (goal_parent (store s0) next)).
  { rewrite Hterm, Hteq. reflexivity. }
  rewrite Hpar in Hparent.
  assert (Hgp : (goal_parent (store s0) next < length (store s))%nat).
  { specialize (Hwf _ _ Hlen Hpar). lia. }
  destruct (Chain_to_root _ _ _ Hwf Hrooted _ _ Hparent _ eq_refl Hgp)
    as [init ->].
  destruct Hrooted as (_ & Hp0 & Ht0 & _).
  exists (rev init), (time_ (get (store s) (length (store s0)))).
  unfold TimeVaryingAStar.trajectory_through. simpl.
  rewrite !map_app, !rev_app_distr. simpl.
  rewrite Hp0, Ht0, !map_rev.
  replace (point_ (get (store s) (length (store s0)))) with stop
    by (rewrite Hterm, Hteq; reflexivity).
  auto.
Qed.

(** [X2]  The cost to come of the terminal node of a returned
    trajectory is the length of the trajectory's path: the Euclidean
    lengths of its segments, from [start] through the waypoints to
    [stop], added up in that order from zero.  (No time enters, and
    the last segment is the one from the node the terminus hangs off,
    not from the node that was popped at the goal.) *)
Theorem terminal_cost_is_path_length
    (fuel : nat) (start stop : Vector3d) (start_time budget : float)
    (trajectory : Trajectory) (s : PlanState) :
  Plan fuel start stop start_time budget = Some (Some trajectory, s) ->
  exists chain,
    Chain (store s) (Some (length (store s) - 1)%nat) chain
    /\ states_ trajectory
       = LiftGeometricTrajectory (rev (map point_ chain))
                                 (times_ trajectory)
    /\ cost_to_come_ (get (store s) (length (store s) - 1))
       = path_length (rev (map point_ chain))
    /\ priority_ (get (store s) (length (store s) - 1))
       = path_length (rev (map point_ chain)) + 0.
Proof.
  intro Hplan.
  destruct (Plan_store _ _ _ _ _ _ _ Hplan) as (Hwf & Hrooted & Hpriced).
  destruct (Plan_returns_from _ _ _ _ _ _ _ Hplan)
    as (k0 & s0 & Hreach & [(H & _)|(next & rest & t & f0 & Ht & _ & Ho & _
                                       & Hs & Hgen)]);
    [discriminate|].
  inversion Ht; subst t; clear Ht.
  rewrite SearchFacts.GenerateTrajectory_eq in Hgen.
  destruct (parent_chain f0 (store s) (Some (length (store s0))))
    as [chain|] eqn:Echain; [|discriminate].
  inversion Hgen; subst trajectory; clear Hgen.
  pose proof (SearchFacts.parent_chain_Chain _ _ _ _ Echain) as Hchain.
  assert (Hst : store s = store s0 ++ [terminus_node (store s0) next stop])
    by (rewrite Hs; reflexivity).
  clear Hs.
  assert (Hlast : (length (store s) - 1 = length (store s0))%nat).
  { rewrite Hst, length_app. simpl. lia. }
  rewrite Hlast.
  assert (Hlen : (length (store s0) < length (store s))%nat)
    by (rewrite Hst, length_app; simpl; lia).
  destruct (Chain_path_length _ _ _ Hwf Hrooted Hpriced _ _ Hchain
              _ eq_refl Hlen) as (Hcost & _ & _).
  exists chain. split; [exact Hchain|]. split; [reflexivity|].
  split; [exact Hcost|].
  destruct (Hpriced _ Hlen) as [Hprio _]. rewrite Hprio, Hcost.
  f_equal. rewrite Hst, get_new.
  now rewrite SearchFacts.terminus_node_eq.
Qed.

(** *** When the search gives up *)

Lemma Reaches_within_budget start stop start_time budget k s :
  Reaches start stop start_time budget k s ->
  forall j, (j < k)%nat -> (budget <? elapsed j) = false.
Proof.
  induction 1 as [|k fuel s s' _ IH Hpass]; intros j Hj; [lia|].
  destruct (Nat.eq_dec j k) as [->|Hne]; [|apply IH; lia].
  unfold TimeVaryingAStar.pass in Hpass.
  destruct (budget <? elapsed k); [discriminate|reflexivity].
Qed.

(** [X3]  [Plan] returns without a trajectory in two cases only: the
    clock, read at the top of a pass, shows strictly more than the
    budget, or the open set is empty there.  Every earlier reading was
    within the budget, and the state is the one that pass began in:
    nothing is popped, allocated or queried by the pass that gives
    up. *)
Theorem Plan_gives_up_on_budget_or_empty_open
    (fuel : nat) (start stop : Vector3d) (start_time budget : float)
    (s : PlanState) :
  Plan fuel start stop start_time budget = Some (None, s) ->
  exists k,
    Reaches start stop start_time budget k s
    /\ (forall j, (j < k)%nat -> (budget <? elapsed j) = false)
    /\ ((budget <? elapsed k) = true
        \/ ((budget <? elapsed k) = false /\ open s = [])).
Proof.
  intro Hplan.
  destruct (Plan_returns_from _ _ _ _ _ _ _ Hplan)
    as (k0 & s0 & Hreach & [(_ & -> & Hcase)|(? & ? & ? & ? & H & _)]);
    [|discriminate].
  exists k0. split; [exact Hreach|]. split; [|exact Hcase].
  eapply Reaches_within_budget; eassumption.
Qed.

(** [X4]  The edge to the goal is never collision checked.  When
    [Plan] returns a trajectory, the pass that returns it makes no
    query to the environment: the terminal node at [stop] is hung off
    the parent of the node popped at the goal (off that node itself
    when it is the start node), its time is the parent's plus the
    best possible time, and its collision probability is the zero it
    was created with. *)
Theorem goal_edge_is_not_checked
    (fuel : nat) (start stop : Vector3d) (start_time budget : float)
    (trajectory : Trajectory) (s : PlanState) :
  Plan fuel start stop start_time budget = Some (Some trajectory, s) ->
  exists k0 s0 next terminus,
    Reaches start stop start_time budget k0 s0
    /\ hd_error (open s0) = Some next
    /\ at_goal grid_resolution_ (point_ (get (store s0) next)) stop = true
    /\ queries s = queries s0
    /\ closed s = closed s0
    /\ open s = tl (open s0)
    /\ store s = store s0 ++ [terminus]
    /\ point_ terminus = stop
    /\ parent_ terminus = Some (goal_parent (store s0) next)
    /\ time_ terminus
       = time_ (get (store s0) (goal_parent (store s0) next))
         + BestPossibleTime
             (point_ (get (store s0) (goal_parent (store s0) next))) stop
    /\ collision_prob_ terminus = 0.
Proof.
  intro Hplan.
  destruct (Plan_returns_from _ _ _ _ _ _ _ Hplan)
    as (k0 & s0 & Hreach & [(H & _)|(next & rest & t & f0 & _ & _ & Ho & Hg
                                       & Hs & _)]);
    [discriminate|].
  exists k0, s0, next, (terminus_node (store s0) next stop).
  rewrite Hs, Ho, SearchFacts.terminus_node_eq. simpl.
  repeat split; auto.
Qed.

(** *** The open set and the closed list *)

Lemma NoDup_insert (lt : NodePtr -> NodePtr -> bool) x l :
  NoDup l -> ~ In x l -> NoDup (Multiset.insert lt x l).
Proof.
  induction l as [|y l IH]; intros Hnd Hx; simpl.
  - constructor; [tauto|constructor].
  - destruct (lt x y).
    + constructor; assumption.
    + inversion Hnd; subst. constructor.
      * rewrite In_insert. simpl in Hx. intros [->|H]; tauto.
      * apply IH; [assumption|]. simpl in Hx. tauto.
Qed.

Lemma visit_neighbor_tidy fuel next stop s neighbor s' :
  tidy_state s ->
  visit_neighbor fuel next stop s neighbor = Some s' ->
  tidy_state s'.
Proof.
  intros (Hnd & Hop & Hcl & Hdis).
  unfold TimeVaryingAStar.visit_neighbor.
  rewrite SearchFacts.create_neighbor_eq.
  set (c := candidate (store s) next neighbor stop).
  unfold TimeVaryingAStar.check_neighbor. simpl store. simpl closed.
  simpl open. simpl queries.
  assert (Hfresh : ~ In (length (store s)) (open s)).
  { intro H. apply Hop in H. lia. }
  assert (Hfresh' : ~ In (length (store s)) (closed s)).
  { intro H. apply Hcl in H. lia. }
  destruct (closed_count (store s ++ [c]) (closed s) (length (store s))).
  - intro H. inversion H; subst; clear H. unfold tidy_state. simpl.
    rewrite length_app. simpl.
    repeat split; auto; intros p Hp; [apply Hop in Hp|apply Hcl in Hp]; lia.
  - destruct (CollisionCheck _ _ _ _ _ _) as [[[free m] qs]|];
      [|discriminate].
    rewrite update_last.
    destruct free; simpl negb; cbv iota; intro H; inversion H; subst;
      clear H; unfold tidy_state; simpl; rewrite length_app; simpl.
    + rewrite SearchFacts.offer_by_priority.
      destruct (Multiset.find _ _ _).
      * repeat split; auto; intros p Hp;
          [apply Hop in Hp|apply Hcl in Hp]; lia.
      * repeat split.
        -- apply NoDup_insert; assumption.
        -- intros p Hp. apply In_insert in Hp as [->|Hp]; [lia|].
           apply Hop in Hp. lia.
        -- intros p Hp. apply Hcl in Hp. lia.
        -- intros p Hp. apply In_insert in Hp as [->|Hp];
             [exact Hfresh'|now apply Hdis].
    + repeat split; auto; intros p Hp;
        [apply Hop in Hp|apply Hcl in Hp]; lia.
Qed.

Lemma visit_all_tidy fuel next stop neighbors :
  forall s s',
    tidy_state s ->
    visit_all fuel next stop s neighbors = Some s' ->
    tidy_state s'.
Proof.
  induction neighbors as [|neighbor rest IH]; intros s s' Ht Hrun.
  - simpl in Hrun. now inversion Hrun; subst.
  - simpl in Hrun.
    destruct (visit_neighbor fuel next stop s neighbor) as [s1|] eqn:E1;
      [|discriminate].
    eapply IH; [|exact Hrun]. eapply visit_neighbor_tidy; eassumption.
Qed.

Lemma In_closed_insert st cl node p :
  In p (closed_insert st cl node) -> In p cl \/ p = node.
Proof.
  unfold TimeVaryingAStar.closed_insert.
  destruct (closed_count st cl node); [now left|].
  rewrite in_app_iff. simpl. intuition.
Qed.

Lemma Reaches_tidy start stop start_time budget k s :
  Reaches start stop start_time budget k s -> tidy_state s.
Proof.
  induction 1 as [|k fuel s s' Hreach IH Hpass].
  - unfold tidy_state. simpl. repeat split.
    + constructor; [tauto|constructor].
    + intros p [<-|[]]. lia.
    + tauto.
    + tauto.
  - destruct (SearchFacts.pass_Continue _ _ _ _ _ _ _ _ _ _ _ _ _ _ _ Hpass)
      as (next & rest & neighbors & Hopen & _ & _ & Hvisit).
    eapply visit_all_tidy; [|exact Hvisit].
    destruct IH as (Hnd & Hop & Hcl & Hdis). rewrite Hopen in *.
    inversion Hnd; subst.
    unfold tidy_state. simpl. repeat split; auto.
    + intros p Hp. apply Hop. now right.
    + intros p Hp. apply In_closed_insert in Hp as [Hp| ->]; [now apply Hcl|].
      apply Hop. now left.
    + intros p Hp Hc. apply In_closed_insert in Hc as [Hc| ->]; [|tauto].
      apply (Hdis p); [now right|exact Hc].
Qed.

(** [X5]  Whatever [Plan] returns, it leaves the open set and the
    closed list tidy: no node pointer is in the open set twice, none is
    both open and closed, and all of them point to allocated nodes.
    (Two open nodes may still have the same grid position: the open set
    is searched by priority, not by position.) *)
Theorem Plan_keeps_open_and_closed_apart
    (fuel : nat) (start stop : Vector3d) (start_time budget : float)
    (result : option Trajectory) (s : PlanState) :
  Plan fuel start stop start_time budget = Some (result, s) ->
  NoDup (open s)
  /\ (forall p, In p (open s) -> (p < length (store s))%nat /\ ~ In p (closed s))
  /\ (forall p, In p (closed s) -> (p < length (store s))%nat).
Proof.
  intro Hplan.
  destruct (Plan_returns_from _ _ _ _ _ _ _ Hplan) as (k0 & s0 & Hreach & Hcase).
  destruct (Reaches_tidy _ _ _ _ _ _ Hreach) as (Hnd & Hop & Hcl & Hdis).
  destruct Hcase as [(_ & -> & _)|(next & rest & t & f0 & _ & _ & Ho & _ & -> & _)].
  - repeat split; auto.
  - rewrite Ho in *. inversion Hnd; subst. simpl. rewrite length_app. simpl.
    repeat split; auto.
    + assert (p < length (store s0))%nat by (apply Hop; now right). lia.
    + apply Hdis. now right.
    + intros p Hp. apply Hcl in Hp. lia.
Qed.

(** *** Every edge of a trajectory but the last was checked *)

Lemma candidate_facts st next neighbor stop :
  point_ (candidate st next neighbor stop) = neighbor
  /\ parent_ (candidate st next neighbor stop) = Some next
  /\ collision_prob_ (candidate st next neighbor stop) = 0.
Proof.
  unfold TimeVaryingAStar.candidate, TimeVaryingAStar.create_neighbor,
    Node_Create.
  cbv zeta. simpl fst. rewrite get_new. simpl. auto.
Qed.

Lemma Vetted_allocated st p :
  Vetted st p -> (p < length st)%nat.
Proof. now destruct 1. Qed.

Lemma Vetted_app st extra p :
  Vetted st p -> Vetted (st ++ extra) p.
Proof.
  induction 1 as [H0|p q fuel qs Hp Hparent Hq IH Hcheck].
  - apply Vetted_root. rewrite length_app. lia.
  - pose proof (Vetted_allocated _ _ Hq) as Hq'.
    eapply Vetted_edge with (q := q) (fuel := fuel) (qs := qs).
    + rewrite length_app. lia.
    + now rewrite get_old by exact Hp.
    + exact IH.
    + now rewrite !get_old by assumption.
Qed.

Lemma visit_neighbor_vetted fuel next stop s neighbor s' :
  Vetted (store s) next ->
  (forall p, In p (open s) -> Vetted (store s) p) ->
  visit_neighbor fuel next stop s neighbor = Some s' ->
  Vetted (store s') next
  /\ forall p, In p (open s') -> Vetted (store s') p.
Proof.
  intros Hnext Hopen.
  pose proof (Vetted_allocated _ _ Hnext) as Hlt.
  unfold TimeVaryingAStar.visit_neighbor.
  rewrite SearchFacts.create_neighbor_eq.
  destruct (candidate_facts (store s) next neighbor stop)
    as (Hpoint & Hparent & Hprob).
  unfold TimeVaryingAStar.check_neighbor. simpl store. simpl closed.
  simpl open. simpl queries.
  rewrite get_new, !get_old by exact Hlt.
  destruct (closed_count _ (closed s) (length (store s))).
  - intro H. inversion H; subst; clear H. simpl.
    split; [now apply Vetted_app|].
    intros p Hp. now apply Vetted_app, Hopen.
  - destruct (CollisionCheck _ _ _ _ _ _) as [[[free m] qs]|] eqn:Echeck;
      [|discriminate].
    rewrite update_last.
    destruct free; simpl negb; cbv iota; intro H; inversion H; subst;
      clear H; simpl.
    + split; [now apply Vetted_app|].
      intros p Hp. apply SearchFacts.offer_In in Hp as [Hp| ->].
      * now apply Vetted_app, Hopen.
      * eapply Vetted_edge with (q := next) (fuel := fuel) (qs := qs).
        -- rewrite length_app. simpl. lia.
        -- rewrite get_new. exact Hparent.
        -- now apply Vetted_app.
        -- rewrite get_new, get_old by exact Hlt. simpl.
           rewrite Hpoint. rewrite <- Hprob. exact Echeck.
    + split; [now apply Vetted_app|].
      intros p Hp. now apply Vetted_app, Hopen.
Qed.

Lemma visit_all_vetted fuel next stop neighbors :
  forall s s',
    Vetted (store s) next ->
    (forall p, In p (open s) -> Vetted (store s) p) ->
    visit_all fuel next stop s neighbors = Some s' ->
    forall p, In p (open s') -> Vetted (store s') p.
Proof.
  induction neighbors as [|neighbor rest IH]; intros s s' Hnext Hopen Hrun.
  - simpl in Hrun. now inversion Hrun; subst.
  - simpl in Hrun.
    destruct (visit_neighbor fuel next stop s neighbor) as [s1|] eqn:E1;
      [|discriminate].
    destruct (visit_neighbor_vetted _ _ _ _ _ _ Hnext Hopen E1) as [H1 H2].
    eapply IH; eassumption.
Qed.

Lemma Reaches_vetted start stop start_time budget k s :
  Reaches start stop start_time budget k s ->
  forall p, In p (open s) -> Vetted (store s) p.
Proof.
  induction 1 as [|k fuel s s' Hreach IH Hpass].
  - intros p [<-|[]]. apply Vetted_root. simpl. lia.
  - destruct (SearchFacts.pass_Continue _ _ _ _ _ _ _ _ _ _ _ _ _ _ _ Hpass)
      as (next & rest & neighbors & Hopen & _ & _ & Hvisit).
    eapply visit_all_vetted; [| |exact Hvisit]; simpl.
    + apply IH. rewrite Hopen. now left.
    + intros p Hp. apply IH. rewrite Hopen. now right.
Qed.

Lemma Vetted_chain start start_time st p :
  rooted_store start start_time st ->
  Vetted st p ->
  forall ns, Chain st (Some p) ns -> checked_path ns.
Proof.
  intros (_ & _ & _ & _ & Hroot & _).
  induction 1 as [H0|p q fuel qs Hp Hparent Hq IH Hcheck]; intros ns Hchain.
  - inversion Hchain as [|? ns' Hrest]; subst.
    rewrite Hroot in Hrest. inversion Hrest; subst. exact I.
  - inversion Hchain as [|? ns' Hrest]; subst.
    rewrite Hparent in Hrest.
    pose proof (IH _ Hrest) as Hpath.
    inversion Hrest as [|? ns'' Hrest']; subst.
    split; [|exact Hpath].
    exists fuel, qs. exact Hcheck.
Qed.

(** [X6]  Every edge of a returned trajectory but the last was
    collision checked and found free: walking back from the terminal
    node, each node below it hangs off its parent by an edge for which
    [CollisionCheck], run from the parent's position and time to the
    node's, answered [true] and left the node's collision
    probability.  The terminal node itself, at [stop], carries the
    probability zero of a node that was never checked. *)
Theorem trajectory_edges_but_last_are_checked
    (fuel : nat) (start stop : Vector3d) (start_time budget : float)
    (trajectory : Trajectory) (s : PlanState) :
  Plan fuel start stop start_time budget = Some (Some trajectory, s) ->
  exists terminus ancestors,
    Chain (store s) (Some (length (store s) - 1)%nat) (terminus :: ancestors)
    /\ trajectory = trajectory_through (terminus :: ancestors)
    /\ checked_path ancestors
    /\ point_ terminus = stop
    /\ collision_prob_ terminus = 0.
Proof.
  intro Hplan.
  destruct (Plan_store _ _ _ _ _ _ _ Hplan) as (Hwf & Hrooted & _).
  destruct (Plan_returns_from _ _ _ _ _ _ _ Hplan)
    as (k0 & s0 & Hreach & [(H & _)|(next & rest & t & f0 & Ht & _ & Ho & _
                                       & Hs & Hgen)]);
    [discriminate|].
  inversion Ht; subst t; clear Ht.
  assert (Hst : store s = store s0 ++ [terminus_node (store s0) next stop])
    by (rewrite Hs; reflexivity).
  clear Hs.
  assert (Hlast : (length (store s) - 1 = length (store s0))%nat).
  { rewrite Hst, length_app. simpl. lia. }
  rewrite Hlast.
  rewrite SearchFacts.GenerateTrajectory_eq in Hgen.
  destruct (parent_chain f0 (store s) (Some (length (store s0))))
    as [chain|] eqn:Echain; [|discriminate].
  inversion Hgen as [Htraj]; clear Hgen.
  pose proof (SearchFacts.parent_chain_Chain _ _ _ _ Echain) as Hchain.
  inversion Hchain as [|p ancestors Hparent]; subst chain p.
  pose proof (SearchFacts.terminus_node_eq BestPossibleTime
                (store s0) next stop) as Hteq.
  assert (Hterm : get (store s) (length (store s0))
                  = terminus_node (store s0) next stop).
  { rewrite Hst. apply get_new. }
  exists (get (store s) (length (store s0))), ancestors.
  split; [exact Hchain|]. split; [reflexivity|].
  split; [|rewrite Hterm, Hteq; simpl; auto].
  assert (Hvet : Vetted (store s) (goal_parent (store s0) next)).
  { rewrite Hst. apply Vetted_app.
    assert (Hnext : Vetted (store s0) next).
    { eapply Reaches_vetted; [exact Hreach|]. rewrite Ho. now left. }
    unfold TimeVaryingAStar.goal_parent.
    destruct (parent_ (get (store s0) next)) as [q|] eqn:E; [|exact Hnext].
    inversion Hnext as [H0 Hz|p q' fuel' qs' Hp Hparent' Hq Hcheck]; subst.
    - exfalso.
      assert (Hr : rooted_store start start_time (store s0)).
      { revert Hreach. apply Reaches_preserve; [apply initial_rooted|].
        intros st nx n _ _ H Hn. apply rooted_snoc; [exact H|].
        destruct (child_facts _ _ _ _ Hn) as (-> & _). discriminate. }
      destruct Hr as (_ & _ & _ & _ & Hnone & _). congruence.
    - congruence. }
  rewrite Hterm, Hteq in Hparent. simpl in Hparent.
  eapply Vetted_chain; eassumption.
Qed.

(** *** The open set is kept in the order of the priorities *)

Lemma by_priority_insert st x op :
  by_priority st op ->
  by_priority st (Multiset.insert (NodeComparitor st) x op).
Proof.
  unfold TimeVaryingAStar.by_priority.
  induction op as [|y l IH]; intro Hs; simpl.
  - constructor; constructor.
  - inversion Hs as [|? ? Hl Hy]; subst.
    destruct (NodeComparitor st x y) eqn:E.
    + constructor; [exact Hs|].
      constructor.
      * unfold NodeComparitor in *. now apply FloatOrder.ltb_asym.
      * rewrite Forall_forall in *. intros b Hb. specialize (Hy b Hb).
        unfold NodeComparitor in *.
        destruct (priority_ (get st b) <? priority_ (get st x)) eqn:Eb;
          [|reflexivity].
        now rewrite (FloatTransitivity.ltb_trans _ _ _ Eb E) in Hy.
    + constructor; [now apply IH|].
      rewrite Forall_forall in *. intros b Hb.
      apply In_insert in Hb as [->|Hb]; [exact E|now apply Hy].
Qed.

Lemma by_priority_ext st st' op :
  (forall p, In p op -> priority_ (get st' p) = priority_ (get st p)) ->
  by_priority st op -> by_priority st' op.
Proof.
  unfold TimeVaryingAStar.by_priority, NodeComparitor.
  induction op as [|y l IH]; intros Heq Hs; [constructor|].
  inversion Hs as [|? ? Hl Hy]; subst. constructor.
  - apply IH; [|exact Hl]. intros p Hp. apply Heq. now right.
  - rewrite Forall_forall in *. intros b Hb.
    rewrite (Heq b), (Heq y) by (simpl; auto). now apply Hy.
Qed.

Lemma visit_neighbor_by_priority fuel next stop s neighbor s' :
  (forall p, In p (open s) -> (p < length (store s))%nat) ->
  by_priority (store s) (open s) ->
  visit_neighbor fuel next stop s neighbor = Some s' ->
  by_priority (store s') (open s')
  /\ forall p, In p (open s') -> (p < length (store s'))%nat.
Proof.
  intros Hop Hsorted.
  unfold TimeVaryingAStar.visit_neighbor.
  rewrite SearchFacts.create_neighbor_eq.
  set (c := candidate (store s) next neighbor stop).
  unfold TimeVaryingAStar.check_neighbor. simpl store. simpl closed.
  simpl open. simpl queries.
  assert (Hold : forall n, by_priority (store s ++ [n]) (open s)).
  { intro n. eapply by_priority_ext; [|exact Hsorted].
    intros p Hp. now rewrite get_old by (apply Hop; exact Hp). }
  assert (Hlen : forall n p, In p (open s) ->
                   (p < length (store s ++ [n]))%nat).
  { intros n p Hp. rewrite length_app. apply Hop in Hp. lia. }
  destruct (closed_count (store s ++ [c]) (closed s) (length (store s))).
  - intro H. inversion H; subst; clear H. simpl. auto.
  - destruct (CollisionCheck _ _ _ _ _ _) as [[[free m] qs]|];
      [|discriminate].
    rewrite update_last.
    destruct free; simpl negb; cbv iota; intro H; inversion H; subst;
      clear H; simpl; [|auto].
    rewrite SearchFacts.offer_by_priority.
    destruct (Multiset.find _ _ _); [auto|].
    split; [now apply by_priority_insert|].
    intros p Hp. apply In_insert in Hp as [->|Hp]; [|now apply Hlen].
    rewrite length_app. simpl. lia.
Qed.

Lemma visit_all_by_priority fuel next stop neighbors :
  forall s s',
    (forall p, In p (open s) -> (p < length (store s))%nat) ->
    by_priority (store s) (open s) ->
    visit_all fuel next stop s neighbors = Some s' ->
    by_priority (store s') (open s').
Proof.
  induction neighbors as [|neighbor rest IH]; intros s s' Hop Hs Hrun.
  - simpl in Hrun. now inversion Hrun; subst.
  - simpl in Hrun.
    destruct (visit_neighbor fuel next stop s neighbor) as [s1|] eqn:E1;
      [|discriminate].
    destruct (visit_neighbor_by_priority _ _ _ _ _ _ Hop Hs E1) as [H1 H2].
    eapply IH; eassumption.
Qed.

Lemma Reaches_by_priority start stop start_time budget k s :
  Reaches start stop start_time budget k s ->
  by_priority (store s) (open s).
Proof.
  induction 1 as [|k fuel s s' Hreach IH Hpass].
  - simpl. constructor; constructor.
  - destruct (SearchFacts.pass_Continue _ _ _ _ _ _ _ _ _ _ _ _ _ _ _ Hpass)
      as (next & rest & neighbors & Hopen & _ & _ & Hvisit).
    pose proof (SearchFacts.Reaches_wf _ _ _ _ _ _ _ _ _ _ _ _ _ _ _ Hreach)
      as [_ Hop].
    rewrite Hopen in *.
    eapply visit_all_by_priority; [| |exact Hvisit]; simpl.
    + intros p Hp. apply Hop. now right.
    + now inversion IH.
Qed.

(** [X7]  Each pass of the main loop expands a node of least
    priority: when a pass begins, no node of the open set has a
    priority strictly below that of the node at its head, the one the
    pass pops.  (Priorities that are not numbers compare false with
    everything, and the order holds of them as well.) *)
Theorem Plan_pops_least_priority
    (start stop : Vector3d) (start_time budget : float)
    (k : nat) (s : PlanState) (next : NodePtr) (rest : list NodePtr) :
  Reaches start stop start_time budget k s ->
  open s = next :: rest ->
  forall p, In p rest ->
    (priority_ (get (store s) p) <? priority_ (get (store s) next)) = false.
Proof.
  intros Hreach Hopen p Hp.
  pose proof (Reaches_by_priority _ _ _ _ _ _ Hreach) as Hs.
  rewrite Hopen in Hs. inversion Hs as [|? ? _ Hall]; subst.
  rewrite Forall_forall in Hall. exact (Hall p Hp).
Qed.

(** *** What a collision check leaves in the referenced double *)

Lemma raise_max_grows m p :
  raise_max m p = m \/ (m <? raise_max m p) = true.
Proof.
  unfold raise_max. destruct (m <? p) eqn:E; auto.
Qed.

Lemma walk_segment_bound fuel :
  forall direction dt stop_time q t m qs free m' qs',
    walk_segment fuel direction dt stop_time q t m qs
      = Some (free, m', qs') ->
    exists new,
      qs' = qs ++ new
      /\ (m' = m \/ (m <? m') = true)
      /\ Forall (fun x => (m' <? sample_prob x) = false) new
      /\ free = forallb sample_valid new
      /\ forallb sample_valid (removelast new) = true.
Proof.
  induction fuel as [|fuel IH];
    intros direction dt stop_time q t m qs free m' qs' Hrun.
  - simpl in Hrun. destruct (t <? stop_time); [discriminate|].
    inversion Hrun; subst. exists []. rewrite app_nil_r.
    repeat split; auto.
  - destruct (t <? stop_time) eqn:Ht.
    + rewrite SegmentWalk.walk_segment_step in Hrun by exact Ht.
      set (p := sample_prob (q, t)) in *.
      assert (Hp : forall x, (x = raise_max m p \/ (raise_max m p <? x) = true) ->
                     (x = m \/ (m <? x) = true) /\ (x <? p) = false).
      { intros x Hx. unfold raise_max in Hx.
        destruct (m <? p) eqn:E.
        - destruct Hx as [->|Hx].
          + split; [now right|apply FloatOrder.ltb_irrefl].
          + split; [right; eapply FloatTransitivity.ltb_trans; eassumption|].
            now apply FloatOrder.ltb_asym.
        - destruct Hx as [->|Hx]; [auto|].
          split; [now right|].
          destruct (x <? p) eqn:Ex; [|reflexivity].
          now rewrite (FloatTransitivity.ltb_trans _ _ _ Hx Ex) in E. }
      destruct (sample_valid (q, t)) eqn:Hv; simpl negb in Hrun;
        cbv iota in Hrun.
      * apply IH in Hrun.
        destruct Hrun as (new & -> & Hm & Hall & Hfree & Hinit).
        destruct (Hp m') as [Hm' Hb]; [destruct Hm; auto|].
        exists ((q, t) :: new). rewrite <- app_assoc.
        split; [reflexivity|]. split; [exact Hm'|].
        split; [constructor; assumption|].
        split; [simpl; now rewrite Hv|].
        destruct new as [|x new]; [reflexivity|].
        change (removelast ((q, t) :: x :: new))
          with ((q, t) :: removelast (x :: new)).
        simpl forallb. now rewrite Hv.
      * inversion Hrun; subst.
        destruct (Hp (raise_max m p)) as [Hm' Hb]; [now left|].
        exists [(q, t)].
        split; [reflexivity|]. split; [exact Hm'|].
        split; [constructor; [exact Hb|constructor]|].
        split; [simpl; now rewrite Hv|reflexivity].
    + rewrite SegmentWalk.walk_segment_stop in Hrun by exact Ht.
      inversion Hrun; subst. exists []. rewrite app_nil_r.
      repeat split; auto.
Qed.

(** [X8]  What a call of [CollisionCheck] that returns leaves behind.
    The referenced double is its value at the call or strictly more,
    never less, and no probability the environment reported along the
    segment is strictly above it.  The flag returned says whether all
    the positions queried were valid; all but the last queried always
    were, the walk stopping at the first that is not. *)
Theorem CollisionCheck_bounds_the_samples
    (fuel : nat) (start stop : Vector3d)
    (start_time stop_time m0 : float)
    (free : bool) (m : float) (qs : list Query) :
  CollisionCheck fuel start stop start_time stop_time m0
    = Some (free, m, qs) ->
  (m = m0 \/ (m0 <? m) = true)
  /\ Forall (fun x => (m <? sample_prob x) = false) qs
  /\ free = forallb sample_valid qs
  /\ forallb sample_valid (removelast qs) = true.
Proof.
  intro Hrun. unfold TimeVaryingAStar.CollisionCheck in Hrun.
  apply walk_segment_bound in Hrun.
  destruct Hrun as (new & -> & H). exact H.
Qed.

(** *** The loops over the grid *)

Lemma axis_value_S lo step i :
  axis_value lo step (S i) = axis_value (lo + step) step i.
Proof.
  unfold axis_value.
  exact (Nat.iter_succ_r i float (fun x => x + step) lo).
Qed.

Lemma axis_stops_after_S x hi step n :
  axis_stops_after x hi step (S n)
  = (x <? hi) && axis_stops_after (x + step) hi step n.
Proof.
  unfold axis_stops_after.
  rewrite <- cons_seq, <- seq_shift. simpl forallb.
  rewrite axis_value_S, <- andb_assoc. f_equal. f_equal.
  induction (seq 0 n) as [|i l IH]; [reflexivity|].
  cbn [map forallb]. now rewrite axis_value_S, IH.
Qed.

Lemma axis_values_S x step n :
  axis_values x step (S n) = x :: axis_values (x + step) step n.
Proof.
  unfold axis_values.
  rewrite <- cons_seq, <- seq_shift, map_cons, map_map.
  f_equal. apply map_ext. intro i. apply axis_value_S.
Qed.

(** A loop whose condition holds [n] times and then fails takes the
    [n] values of its variable. *)
Lemma axis_run n :
  forall fuel x hi step,
    axis_stops_after x hi step n = true ->
    (n <= fuel)%nat ->
    axis fuel x hi step = Some (axis_values x step n).
Proof.
  induction n as [|n IH]; intros fuel x hi step Hstop Hfuel.
  - unfold axis_stops_after in Hstop. simpl in Hstop.
    unfold axis_value in Hstop. simpl in Hstop.
    apply negb_true_iff in Hstop.
    destruct fuel; simpl; now rewrite Hstop.
  - rewrite axis_stops_after_S in Hstop.
    apply andb_true_iff in Hstop as [Hx Hrest].
    destruct fuel as [|fuel]; [lia|].
    simpl. rewrite Hx, (IH fuel) by (assumption || lia).
    now rewrite axis_values_S.
Qed.

(** A loop whose step leaves its variable as it is never ends. *)
Lemma axis_stuck fuel :
  forall x hi step,
    (x <? hi) = true -> x + step = x -> axis fuel x hi step = None.
Proof.
  induction fuel as [|fuel IH]; intros x hi step Hx Hstep; simpl;
    rewrite Hx; [reflexivity|].
  now rewrite Hstep, IH.
Qed.

Lemma for_each_total (A B : Type) (g : A -> list B) (l : list A) :
  for_each (fun a => Some (g a)) l = Some (flat_map g l).
Proof.
  induction l as [|a l IH]; simpl; [reflexivity|]. now rewrite IH.
Qed.

Lemma for_each_ext (A B : Type) (f g : A -> option (list B)) (l : list A) :
  (forall a, f a = g a) -> for_each f l = for_each g l.
Proof.
  intro H. induction l as [|a l IH]; simpl; [reflexivity|].
  now rewrite H, IH.
Qed.

Lemma length_grid xs ys zs :
  length (grid xs ys zs) = (length xs * length ys * length zs)%nat.
Proof.
  unfold grid.
  assert (Hrow : forall x,
            length (flat_map (fun y => map (fun z => Vec3 x y z) zs) ys)
            = (length ys * length zs)%nat).
  { intro x. induction ys as [|y ys IH]; simpl; [reflexivity|].
    now rewrite length_app, length_map, IH. }
  induction xs as [|x xs IH]; simpl; [reflexivity|].
  rewrite length_app, Hrow, IH. lia.
Qed.

(** [X9]  [Neighbors] returns the grid of three nested loops: when the
    loop along the first coordinate of the point makes [nx] rounds,
    the one along the second [ny] and the one along the third [nz],
    the points returned are those with the [nx], [ny] and [nz] values
    the loop variables take, each starting one grid cell below the
    point's coordinate and growing by repeated addition of the
    resolution, the third coordinate changing fastest: [nx * ny * nz]
    points, 27 when each loop makes three rounds. *)
Theorem Neighbors_is_the_grid
    (fuel : nat) (point : Vector3d) (nx ny nz : nat) :
  rounds (vx point) nx = true ->
  rounds (vy point) ny = true ->
  rounds (vz point) nz = true ->
  (nx <= fuel)%nat -> (ny <= fuel)%nat -> (nz <= fuel)%nat ->
  Neighbors fuel point
  = Some (grid (round_values (vx point) nx)
               (round_values (vy point) ny)
               (round_values (vz point) nz))
  /\ length (grid (round_values (vx point) nx)
                  (round_values (vy point) ny)
                  (round_values (vz point) nz))
     = (nx * ny * nz)%nat.
Proof.
  intros Hx Hy Hz Hfx Hfy Hfz.
  split.
  - unfold TimeVaryingAStar.Neighbors, TimeVaryingAStar.axis_of.
    unfold TimeVaryingAStar.rounds in *.
    rewrite (axis_run _ _ _ _ _ Hx Hfx), (axis_run _ _ _ _ _ Hy Hfy),
      (axis_run _ _ _ _ _ Hz Hfz).
    unfold TimeVaryingAStar.round_values, grid.
    rewrite <- for_each_total. apply for_each_ext. intro x.
    now rewrite for_each_total.
  - rewrite length_grid. unfold TimeVaryingAStar.round_values, axis_values.
    now rewrite !length_map, !length_seq.
Qed.

(** [X10]  [Neighbors] does not return when adding the grid
    resolution leaves the first value of its outer loop variable as it
    is while that value is below the bound of the loop: with a grid
    resolution of zero, or one too small to change the coordinate, the
    loop goes on for ever. *)
Theorem Neighbors_never_returns
    (point : Vector3d) :
  (vx point - grid_resolution_ <? vx point + grid_resolution_ + 1e-8) = true ->
  vx point - grid_resolution_ + grid_resolution_
  = vx point - grid_resolution_ ->
  forall fuel, Neighbors fuel point = None.
Proof.
  intros Hlt Hstep fuel.
  unfold TimeVaryingAStar.Neighbors, TimeVaryingAStar.axis_of.
  now rewrite (axis_stuck _ _ _ _ Hlt Hstep).
Qed.

Lemma walk_segment_stuck fuel direction dt stop_time t :
  (t <? stop_time) = true ->
  t + dt = t ->
  forall q m qs,
    (forall k, sample_valid (Nat.iter k (step_point direction) q, t) = true) ->
    walk_segment fuel direction dt stop_time q t m qs = None.
Proof.
  intros Ht Hdt.
  induction fuel as [|fuel IH]; intros q m qs Hvalid.
  - simpl. now rewrite Ht.
  - rewrite SegmentWalk.walk_segment_step by exact Ht.
    pose proof (Hvalid 0%nat) as H0.
    change (sample_valid (q, t) = true) in H0.
    rewrite H0. simpl negb. cbv iota.
    unfold step_time. rewrite Hdt. apply IH.
    intro k. rewrite <- Nat.iter_succ_r. apply Hvalid.
Qed.

(** [X11]  [CollisionCheck] does not return when the time step it
    computes leaves the start time as it is (a collision check
    resolution of zero gives such a step) while the start time is
    before the stop time and the environment finds every position of
    the walk valid at that time: the loop variable never reaches the
    stop time. *)
Theorem CollisionCheck_never_returns
    (start stop : Vector3d) (start_time stop_time : float) :
  (start_time <? stop_time) = true ->
  start_time + segment_dt start stop start_time stop_time = start_time ->
  (forall k,
     sample_valid
       (Nat.iter k (step_point (segment_direction start stop)) start,
        start_time) = true) ->
  forall fuel m0,
    CollisionCheck fuel start stop start_time stop_time m0 = None.
Proof.
  intros Ht Hdt Hvalid fuel m0.
  unfold TimeVaryingAStar.CollisionCheck.
  now apply walk_segment_stuck.
Qed.

(** *** A start that is walled in *)

Lemma candidate_arrival st next neighbor stop :
  time_ (candidate st next neighbor stop)
  = time_ (get st next)
    + (if isApprox neighbor (point_ (get st next)) 1e-8 then kStayPutTime
       else BestPossibleTime (point_ (get st next)) neighbor).
Proof.
  unfold TimeVaryingAStar.candidate, TimeVaryingAStar.create_neighbor,
    Node_Create.
  cbv zeta. simpl fst. rewrite get_new. reflexivity.
Qed.

Lemma visit_neighbor_blocked fuel next stop s neighbor :
  (forall p t, fst (IsValid p incoming_value_ outgoing_value_ t) = false) ->
  (next < length (store s))%nat ->
  (time_ (get (store s) next)
   <? time_ (candidate (store s) next neighbor stop)) = true ->
  open s = [] ->
  exists s',
    visit_neighbor (S fuel) next stop s neighbor = Some s'
    /\ open s' = []
    /\ (exists n, store s' = store s ++ [n])
    /\ exists new,
         queries s' = queries s ++ new
         /\ Forall (fun q => q = (point_ (get (store s) next),
                                  time_ (get (store s) next))) new.
Proof.
  intros Hblocked Hnext Hwindow Hopen.
  unfold TimeVaryingAStar.visit_neighbor.
  rewrite SearchFacts.create_neighbor_eq.
  unfold TimeVaryingAStar.check_neighbor. simpl store. simpl closed.
  simpl open. simpl queries.
  rewrite get_new, !get_old by exact Hnext.
  destruct (closed_count _ (closed s) (length (store s))).
  - eexists. split; [reflexivity|]. simpl.
    split; [exact Hopen|]. split; [eexists; reflexivity|].
    exists []. now rewrite app_nil_r.
  - unfold TimeVaryingAStar.CollisionCheck.
    rewrite SegmentWalk.walk_segment_step by exact Hwindow.
    assert (Hv : sample_valid (point_ (get (store s) next),
                               time_ (get (store s) next)) = false)
      by apply Hblocked.
    rewrite Hv. simpl negb. cbv iota. rewrite update_last.
    eexists. split; [reflexivity|]. simpl.
    split; [exact Hopen|]. split; [eexists; reflexivity|].
    eexists. split; [reflexivity|]. constructor; [reflexivity|constructor].
Qed.

Lemma visit_all_blocked fuel next stop position time neighbors :
  (forall p t, fst (IsValid p incoming_value_ outgoing_value_ t) = false) ->
  (forall neighbor, In neighbor neighbors ->
     (time <? time + (if isApprox neighbor position 1e-8 then kStayPutTime
                      else BestPossibleTime position neighbor)) = true) ->
  forall s,
    (next < length (store s))%nat ->
    point_ (get (store s) next) = position ->
    time_ (get (store s) next) = time ->
    open s = [] ->
    exists s',
      visit_all (S fuel) next stop s neighbors = Some s'
      /\ open s' = []
      /\ length (store s') = (length (store s) + length neighbors)%nat
      /\ exists new,
           queries s' = queries s ++ new
           /\ Forall (fun q => q = (position, time)) new.
Proof.
  intro Hblocked.
  induction neighbors as [|neighbor rest IH];
    intros Hwindow s Hnext Hpoint Htime Hopen.
  - exists s. simpl. repeat split; auto.
    exists []. now rewrite app_nil_r.
  - destruct (visit_neighbor_blocked fuel next stop s neighbor Hblocked Hnext)
      as (s1 & Hrun & Hopen1 & [n Hst] & new1 & Hq1 & Hall1); auto.
    { rewrite candidate_arrival, Hpoint, Htime. apply Hwindow. now left. }
    destruct (IH (fun nb H => Hwindow nb (or_intror H)) s1)
      as (s' & Hrun' & Hopen' & Hlen' & new' & Hq' & Hall'); auto.
    + rewrite Hst, length_app. lia.
    + now rewrite Hst, get_old by exact Hnext.
    + now rewrite Hst, get_old by exact Hnext.
    + exists s'. simpl. rewrite Hrun.
      split; [exact Hrun'|]. split; [exact Hopen'|].
      split; [rewrite Hlen', Hst, length_app; simpl; lia|].
      exists (new1 ++ new'). rewrite Hq', Hq1, app_assoc.
      split; [reflexivity|]. apply Forall_app. split; [|exact Hall'].
      rewrite Hpoint, Htime in Hall1. exact Hall1.
Qed.

(** [X12]  A start that is walled in.  When the environment finds no
    position valid at any time, the start is not within half a grid
    cell of [stop], the budget is not exceeded at the first reading of
    the clock, and every neighbour of the start is reached strictly
    later than the start time, [Plan] gives up after one expansion:
    it returns no trajectory, the open set is empty, one node was
    allocated for each neighbour, and the environment was only ever
    asked about the start position at the start time, the first
    sample of every edge. *)
Theorem Plan_walled_in
    (fuel : nat) (start stop : Vector3d) (start_time budget : float)
    (neighbors : list Vector3d) :
  (forall p t, fst (IsValid p incoming_value_ outgoing_value_ t) = false) ->
  Neighbors (S fuel) start = Some neighbors ->
  (forall neighbor, In neighbor neighbors ->
     (start_time
      <? start_time + (if isApprox neighbor start 1e-8 then kStayPutTime
                       else BestPossibleTime start neighbor)) = true) ->
  at_goal grid_resolution_ start stop = false ->
  (budget <? elapsed 0) = false ->
  exists s,
    Plan (S (S fuel)) start stop start_time budget = Some (None, s)
    /\ open s = []
    /\ length (store s) = S (length neighbors)
    /\ Forall (fun q => q = (start, start_time)) (queries s).
Proof.
  intros Hblocked Hneighbors Hwindow Hgoal Hbudget.
  set (s0 := initial start stop start_time).
  destruct (visit_all_blocked fuel 0%nat stop start start_time neighbors
              Hblocked Hwindow
              (mkState (store s0) []
                       (closed_insert (store s0) (closed s0) 0%nat)
                       (queries s0)))
    as (s' & Hrun & Hopen & Hlen & new & Hq & Hall);
    [simpl; lia|reflexivity|reflexivity|reflexivity|].
  exists s'.
  split.
  - unfold TimeVaryingAStar.Plan. fold s0.
    rewrite SearchFacts.main_loop_S.
    assert (Hpass : pass (S fuel) stop budget 0 s0 = Some (Continue s')).
    { unfold TimeVaryingAStar.pass. rewrite Hbudget.
      change (open s0) with [0%nat]. cbv beta iota.
      change (point_ (get (store s0) 0)) with start.
      now rewrite Hgoal, Hneighbors, Hrun. }
    rewrite Hpass, SearchFacts.main_loop_S.
    unfold TimeVaryingAStar.pass.
    rewrite Hopen. now destruct (budget <? elapsed 1).
  - split; [exact Hopen|]. split; [exact Hlen|].
    simpl in Hq. now rewrite Hq.
Qed.

Lemma pass_tidy fuel stop budget k s s' :
  tidy_state s ->
  pass fuel stop budget k s = Some (Continue s') ->
  tidy_state s'.
Proof.
  intros (Hnd & Hop & Hcl & Hdis) Hpass.
  destruct (SearchFacts.pass_Continue _ _ _ _ _ _ _ _ _ _ _ _ _ _ _ Hpass)
    as (next & rest & neighbors & Hopen & _ & _ & Hvisit).
  eapply visit_all_tidy; [|exact Hvisit].
  rewrite Hopen in *. inversion Hnd; subst.
  unfold tidy_state. simpl. repeat split; auto.
  - intros p Hp. apply Hop. now right.
  - intros p Hp. apply In_closed_insert in Hp as [Hp| ->]; [now apply Hcl|].
    apply Hop. now left.
  - intros p Hp Hc. apply In_closed_insert in Hc as [Hc| ->]; [|tauto].
    apply (Hdis p); [now right|exact Hc].
Qed.

End Search.

(** *** The closed set under pointer equality *)

Section ClosedByPointer.

Variable incoming_value_ outgoing_value_ : ValueFunctionId.
Variable grid_resolution_ collision_check_resolution_ : float.
Variable IsValid :
  Vector3d -> ValueFunctionId -> ValueFunctionId -> float -> bool * float.
Variable BestPossibleTime : Vector3d -> Vector3d -> float.
Variable LiftGeometricTrajectory :
  list Vector3d -> list float -> list VectorXd.
Variable elapsed : nat -> float.

Local Notation visit_neighbor :=
  (visit_neighbor incoming_value_ outgoing_value_
                  collision_check_resolution_ IsValid BestPossibleTime).
Local Notation visit_all :=
  (visit_all incoming_value_ outgoing_value_
             collision_check_resolution_ IsValid BestPossibleTime).
Local Notation pass :=
  (pass incoming_value_ outgoing_value_ grid_resolution_
        collision_check_resolution_ IsValid BestPossibleTime
        LiftGeometricTrajectory elapsed).
Local Notation main_loop :=
  (main_loop incoming_value_ outgoing_value_ grid_resolution_
             collision_check_resolution_ IsValid BestPossibleTime
             LiftGeometricTrajectory elapsed).
Local Notation Plan :=
  (Plan incoming_value_ outgoing_value_ grid_resolution_
        collision_check_resolution_ IsValid BestPossibleTime
        LiftGeometricTrajectory elapsed).

Lemma closed_count_pointer st cl node :
  ~ In node cl -> closed_count pointer_equal st cl node = false.
Proof.
  unfold TimeVaryingAStar.closed_count, pointer_equal.
  induction cl as [|c cl IH]; intro Hnot; simpl; [reflexivity|].
  rewrite IH by (simpl in Hnot; tauto).
  destruct (Nat.eqb_spec c node) as [->|_]; [|reflexivity].
  exfalso. apply Hnot. now left.
Qed.

Lemma closed_count_never st cl node :
  closed_count never_equal st cl node = false.
Proof.
  unfold TimeVaryingAStar.closed_count, never_equal.
  induction cl as [|c cl IH]; simpl; auto.
Qed.

Lemma visit_neighbor_pointer fuel next stop s neighbor :
  (forall p, In p (closed s) -> (p < length (store s))%nat) ->
  visit_neighbor pointer_equal fuel next stop s neighbor
  = visit_neighbor never_equal fuel next stop s neighbor.
Proof.
  intro Hcl.
  unfold TimeVaryingAStar.visit_neighbor.
  rewrite SearchFacts.create_neighbor_eq.
  unfold TimeVaryingAStar.check_neighbor. simpl store. simpl closed.
  rewrite closed_count_never, closed_count_pointer; [reflexivity|].
  intro H. apply Hcl in H. lia.
Qed.

Lemma visit_all_pointer fuel next stop neighbors :
  forall s,
    (forall p, In p (closed s) -> (p < length (store s))%nat) ->
    visit_all pointer_equal fuel next stop s neighbors
    = visit_all never_equal fuel next stop s neighbors.
Proof.
  induction neighbors as [|neighbor rest IH]; intros s Hcl; [reflexivity|].
  simpl. rewrite visit_neighbor_pointer by exact Hcl.
  destruct (visit_neighbor never_equal fuel next stop s neighbor)
    as [s1|] eqn:E1; [|reflexivity].
  apply IH.
  destruct (SearchFacts.visit_neighbor_effect _ _ _ _ _ _ _ _ _ _ _ _ E1)
    as (m & Hst & Hc & _).
  intros p Hp. rewrite Hc in Hp. apply Hcl in Hp.
  rewrite Hst, length_app. lia.
Qed.

Lemma pass_pointer fuel stop budget k s :
  tidy_state s ->
  pass pointer_equal fuel stop budget k s
  = pass never_equal fuel stop budget k s.
Proof.
  intros (Hnd & Hop & Hcl & Hdis).
  unfold TimeVaryingAStar.pass.
  destruct (budget <? elapsed k); [reflexivity|].
  destruct (open s) as [|next rest] eqn:Ho; [reflexivity|].
  destruct (at_goal grid_resolution_ (point_ (get (store s) next)) stop);
    [reflexivity|].
  unfold TimeVaryingAStar.closed_insert.
  rewrite closed_count_never, closed_count_pointer
    by (apply Hdis; now left).
  destruct (Neighbors grid_resolution_ fuel (point_ (get (store s) next)));
    [|reflexivity].
  rewrite visit_all_pointer; [reflexivity|].
  simpl. intros p Hp. apply in_app_iff in Hp as [Hp|[<-|[]]].
  - now apply Hcl.
  - apply Hop. now left.
Qed.

Lemma main_loop_pointer fuel :
  forall stop budget k s,
    tidy_state s ->
    main_loop pointer_equal fuel stop budget k s
    = main_loop never_equal fuel stop budget k s.
Proof.
  induction fuel as [|fuel IH]; intros stop budget k s Htidy;
    [reflexivity|].
  rewrite !SearchFacts.main_loop_S, pass_pointer by exact Htidy.
  destruct (pass never_equal fuel stop budget k s) as [[result s'|s']|]
    eqn:E; try reflexivity.
  apply IH. eapply pass_tidy; eassumption.
Qed.

(** [X15]  Under pointer equality the closed list discards nothing.
    When the closed set compares its keys as pointers, [Plan] returns
    what it would return if the test [closed.count(neighbor_node) > 0]
    never held, and ends in the same state: every candidate is a node
    just created, which no pointer in the closed list equals, so no
    neighbour of an expanded node is skipped for being closed. *)
Theorem Plan_closed_by_pointer_discards_nothing
    (fuel : nat) (start stop : Vector3d) (start_time budget : float) :
  Plan pointer_equal fuel start stop start_time budget
  = Plan never_equal fuel start stop start_time budget.
Proof.
  unfold TimeVaryingAStar.Plan.
  apply main_loop_pointer.
  unfold tidy_state. simpl. repeat split.
  - constructor; [tauto|constructor].
  - intros p [<-|[]]. lia.
  - tauto.
  - tauto.
Qed.

End ClosedByPointer.

End SearchMore.

(* ------------------------------------------------------------------ *)
(** ** More on the RRT: the kd-tree across calls, and the guard on the
    nearest neighbour *)

Module RrtMore.

Import TimeVaryingRrt.
Local Open Scope float_scope.

Section Rrt.

Variable incoming_value_ outgoing_value_ : ValueFunctionId.
Variable IsValid : Vector3d -> ValueFunctionId -> ValueFunctionId -> bool.
Variable KnnSearch : list Node -> Vector3d -> nat -> list Node.
Variable BestPossibleTime : Vector3d -> Vector3d -> float.
Variable ENABLE_DEBUG_MESSAGES : bool.

(** The sampler and the clock, of one call and of a later one. *)
Variable Sample Sample' : nat -> Vector3d.
Variable elapsed elapsed' : nat -> float.

Local Notation valid p := (IsValid p incoming_value_ outgoing_value_).
Local Notation sampling_loop :=
  (sampling_loop Sample KnnSearch BestPossibleTime elapsed
                 ENABLE_DEBUG_MESSAGES).
Local Notation Plan :=
  (Plan incoming_value_ outgoing_value_ IsValid Sample KnnSearch
        BestPossibleTime elapsed ENABLE_DEBUG_MESSAGES).
Local Notation Plan' :=
  (TimeVaryingRrt.Plan incoming_value_ outgoing_value_ IsValid Sample'
        KnnSearch BestPossibleTime elapsed' ENABLE_DEBUG_MESSAGES).

Local Notation planted := (planted incoming_value_ outgoing_value_ IsValid).

Lemma Plan_kdtree sample clock fuel tree start stop start_time budget out :
  TimeVaryingRrt.Plan incoming_value_ outgoing_value_ IsValid sample
    KnnSearch BestPossibleTime clock ENABLE_DEBUG_MESSAGES
    fuel tree start stop start_time budget = Some out ->
  kdtree out = tree ++ planted start stop start_time.
Proof.
  unfold TimeVaryingRrt.Plan, TimeVaryingRrt.planted.
  destruct (valid start); simpl.
  - destruct (valid stop); simpl.
    + intro H. now apply RrtFacts.sampling_loop_outcome in H.
    + intro H. inversion H; subst. simpl. now rewrite app_nil_r.
  - intro H. inversion H; subst. simpl. now rewrite app_nil_r.
Qed.

(** [X13]  The kd-tree is never cleared: it outlives the call.  After
    two calls of [Plan] on the same planner, the tree holds what it
    held before the first, then the root of the first call, then the
    root of the second, a root being planted whenever both endpoints
    of the call are valid. *)
Theorem kdtree_keeps_former_roots
    (fuel fuel' : nat) (tree : list Node)
    (start stop start' stop' : Vector3d)
    (start_time budget start_time' budget' : float)
    (out out' : Outcome) :
  Plan fuel tree start stop start_time budget = Some out ->
  Plan' fuel' (kdtree out) start' stop' start_time' budget' = Some out' ->
  kdtree out'
  = tree ++ planted start stop start_time
         ++ planted start' stop' start_time'.
Proof.
  intros H H'.
  apply Plan_kdtree in H. apply Plan_kdtree in H'.
  now rewrite H', H, <- app_assoc.
Qed.

Lemma sampling_loop_guarded n :
  ENABLE_DEBUG_MESSAGES = true ->
  forall fuel stop budget k tree,
    (forall j, (j < n)%nat -> (elapsed (k + j) <? budget) = true) ->
    (elapsed (k + n) <? budget) = false ->
    (n <= fuel)%nat ->
    exists out,
      sampling_loop fuel stop budget k tree = Some out
      /\ result out = None
      /\ kdtree out = tree
      /\ ((log out = [] /\ samples out = (k + n)%nat
           /\ forall j, (k <= j < k + n)%nat ->
                length (KnnSearch tree (Sample j) kNumNeigbhbors)
                = kNumNeigbhbors)
          \/ (log out = [ERROR Messages.wrong_neighbors]
              /\ (k < samples out <= k + n)%nat
              /\ length (KnnSearch tree (Sample (samples out - 1))
                                   kNumNeigbhbors)
                 <> kNumNeigbhbors
              /\ forall j, (k <= j < samples out - 1)%nat ->
                   length (KnnSearch tree (Sample j) kNumNeigbhbors)
                   = kNumNeigbhbors)).
Proof.
  intro Hdebug.
  induction n as [|n IH]; intros fuel stop budget k tree Hin Hout Hfuel.
  - rewrite Nat.add_0_r in Hout.
    rewrite RrtFacts.sampling_loop_exit by exact Hout.
    eexists. split; [reflexivity|]. simpl.
    rewrite Nat.add_0_r. split; [reflexivity|]. split; [reflexivity|].
    left. split; [reflexivity|]. split; [reflexivity|].
    intros j Hj. lia.
  - destruct fuel as [|fuel]; [lia|].
    pose proof (Hin 0%nat ltac:(lia)) as H0. rewrite Nat.add_0_r in H0.
    simpl. rewrite H0, Hdebug. simpl andb.
    destruct (length (KnnSearch tree (Sample k) kNumNeigbhbors)
              =? kNumNeigbhbors)%nat eqn:E; simpl negb; cbv iota.
    + apply Nat.eqb_eq in E. pose proof E as Ek.
      destruct (KnnSearch tree (Sample k) kNumNeigbhbors)
        as [|nearest rest] eqn:Eknn; [discriminate|].
      destruct (IH fuel stop budget (S k) tree)
        as (out & Hrun & Hres & Htree & Hlog).
      * intros j Hj. replace (S k + j)%nat with (k + S j)%nat by lia.
        apply Hin. lia.
      * now replace (S k + n)%nat with (k + S n)%nat by lia.
      * lia.
      * exists out. simpl. rewrite Hdebug in Hrun.
        split; [exact Hrun|]. split; [exact Hres|].
        split; [exact Htree|].
        assert (Hone : forall j, j = k ->
                  length (KnnSearch tree (Sample j) kNumNeigbhbors)
                  = kNumNeigbhbors)
          by (intros j ->; rewrite Eknn; exact Ek).
        replace (k + S n)%nat with (S k + n)%nat by lia.
        destruct Hlog as [(Hlog & Hs & Hall)|(Hlog & Hs & Hlen & Hall)];
          [left|right].
        -- split; [exact Hlog|]. split; [exact Hs|].
           intros j Hj. destruct (Nat.eq_dec j k) as [Hjk|Hjk];
             [now apply Hone|apply Hall; lia].
        -- split; [exact Hlog|]. split; [lia|]. split; [exact Hlen|].
           intros j Hj. destruct (Nat.eq_dec j k) as [Hjk|Hjk];
             [now apply Hone|apply Hall; lia].
    + apply Nat.eqb_neq in E.
      eexists. split; [reflexivity|]. simpl.
      split; [reflexivity|]. split; [reflexivity|]. right.
      split; [reflexivity|]. split; [lia|].
      rewrite Nat.sub_0_r. split; [exact E|].
      intros j Hj. lia.
Qed.

(** [X14]  The guard on the nearest neighbour.  Compiled with
    [ENABLE_DEBUG_MESSAGES], [Plan] returns whatever the kd-tree
    answers: when both endpoints are valid and the clock reaches the
    budget at its [n]-th reading, the call returns the null pointer
    after at most [n] samples, with the start planted as a root, and
    either logs nothing, having drawn [n] samples that each found
    exactly one neighbour, or logs the one error at the first sample
    whose search did not answer with exactly one neighbour and stops
    there.  Compiled without, a search that answers with no neighbour
    at the first sample makes [Plan] read the first element of an
    empty vector: the call has no defined result. *)
Theorem Plan_guards_the_nearest_neighbor
    (tree : list Node) (start stop : Vector3d)
    (start_time budget : float) (n : nat) :
  valid start = true ->
  valid stop = true ->
  (ENABLE_DEBUG_MESSAGES = true ->
   (forall j, (j < n)%nat -> (elapsed j <? budget) = true) ->
   (elapsed n <? budget) = false ->
   forall fuel, (n <= fuel)%nat ->
   exists out,
     Plan fuel tree start stop start_time budget = Some out
     /\ result out = None
     /\ kdtree out = tree ++ [Node_Create start None start_time]
     /\ ((log out = [] /\ samples out = n
          /\ forall j, (j < n)%nat ->
               length (KnnSearch (kdtree out) (Sample j) kNumNeigbhbors)
               = kNumNeigbhbors)
         \/ (log out = [ERROR Messages.wrong_neighbors]
             /\ (0 < samples out <= n)%nat
             /\ length (KnnSearch (kdtree out) (Sample (samples out - 1))
                                  kNumNeigbhbors)
                <> kNumNeigbhbors
             /\ forall j, (j < samples out - 1)%nat ->
                  length (KnnSearch (kdtree out) (Sample j) kNumNeigbhbors)
                  = kNumNeigbhbors)))
  /\
  (ENABLE_DEBUG_MESSAGES = false ->
   (elapsed 0 <? budget) = true ->
   KnnSearch (tree ++ [Node_Create start None start_time]) (Sample 0)
             kNumNeigbhbors = [] ->
   forall fuel, Plan fuel tree start stop start_time budget = None).
Proof.
  intros Hstart Hstop. split.
  - intros Hdebug Hin Hout fuel Hfuel.
    unfold TimeVaryingRrt.Plan. rewrite Hstart, Hstop. simpl negb.
    cbv iota zeta.
    destruct (sampling_loop_guarded n Hdebug fuel stop budget 0%nat
                (tree ++ [Node_Create start None start_time]))
      as (out & Hrun & Hres & Htree & Hlog); auto.
    exists out. split; [exact Hrun|]. split; [exact Hres|].
    split; [exact Htree|]. rewrite Htree.
    destruct Hlog as [(Hlog & Hs & Hall)|(Hlog & Hs & Hlen & Hall)];
      [left|right].
    + split; [exact Hlog|]. split; [exact Hs|].
      intros j Hj. apply Hall. lia.
    + split; [exact Hlog|]. split; [exact Hs|]. split; [exact Hlen|].
      intros j Hj. apply Hall. lia.
  - intros Hdebug Hin Hknn fuel.
    unfold TimeVaryingRrt.Plan. rewrite Hstart, Hstop. simpl negb.
    cbv iota zeta.
    destruct fuel as [|fuel]; simpl; rewrite Hin; [reflexivity|].
    now rewrite Hdebug, Hknn.
Qed.

End Rrt.

End RrtMore.

(* ------------------------------------------------------------------ *)
(** ** More runs *)

Module MoreRuns.

Import TimeVaryingAStar Example.
Local Open Scope float_scope.

(** The search of the examples, in free space and at half speed from
    the origin to the goal two cells east, returns. *)
Lemma free_space_run :
  exists trajectory s,
    TimeVaryingAStar.Plan incoming outgoing 1 0.5 free_space
      half_speed coordinates frozen_clock same_pointer
      100 origin two_cells_east 0 10
    = Some (Some trajectory, s).
Proof. eexists. eexists. vm_compute. reflexivity. Qed.

(** [X1] at work, on that search. *)
Lemma trajectory_runs_from_start_to_stop_run :
  exists trajectory s (inner : list Node) (arrival : float),
    Example.PlanSlow frozen_clock same_pointer 100 origin two_cells_east 0 10
    = Some (Some trajectory, s)
    /\ times_ trajectory = 0 :: map time_ inner ++ [arrival]
    /\ states_ trajectory
       = coordinates (origin :: map point_ inner ++ [two_cells_east])
                     (0 :: map time_ inner ++ [arrival])
    /\ incoming_values_ trajectory
       = repeat incoming (length (states_ trajectory))
    /\ outgoing_values_ trajectory = incoming_values_ trajectory.
Proof.
  destruct free_space_run as (trajectory & s & E).
  destruct (SearchMore.trajectory_runs_from_start_to_stop
              incoming outgoing 1 0.5 free_space half_speed coordinates
              frozen_clock same_pointer 100 origin two_cells_east 0 10
              trajectory s E) as (inner & arrival & H).
  exists trajectory, s, inner, arrival. split; [exact E|exact H].
Defined.

(** [X2] at work, on the same search. *)
Lemma terminal_cost_is_path_length_run :
  exists trajectory s chain,
    Example.PlanSlow frozen_clock same_pointer 100 origin two_cells_east 0 10
    = Some (Some trajectory, s)
    /\ Chain (store s) (Some (length (store s) - 1)%nat) chain
    /\ states_ trajectory
       = coordinates (rev (map point_ chain)) (times_ trajectory)
    /\ cost_to_come_ (get (store s) (length (store s) - 1))
       = path_length (rev (map point_ chain))
    /\ priority_ (get (store s) (length (store s) - 1))
       = path_length (rev (map point_ chain)) + 0.
Proof.
  destruct free_space_run as (trajectory & s & E).
  destruct (SearchMore.terminal_cost_is_path_length
              incoming outgoing 1 0.5 free_space half_speed coordinates
              frozen_clock same_pointer 100 origin two_cells_east 0 10
              trajectory s E) as (chain & H).
  exists trajectory, s, chain. split; [exact E|exact H].
Defined.

(** The search of the examples where nothing is valid gives up. *)
Lemma blocked_run :
  exists s,
    TimeVaryingAStar.Plan incoming outgoing 1 0.5 blocked
      unit_speed coordinates frozen_clock same_pointer
      5 origin two_cells_east 0 10
    = Some (None, s).
Proof. eexists. vm_compute. reflexivity. Qed.

(** [X3] at work: the search where nothing is valid. *)
Lemma Plan_gives_up_on_budget_or_empty_open_run :
  exists s k,
    PlanBlocked frozen_clock same_pointer 5 origin two_cells_east 0 10
    = Some (None, s)
    /\ Reaches incoming outgoing 1 0.5 blocked unit_speed coordinates
               frozen_clock same_pointer origin two_cells_east 0 10 k s
    /\ (forall j, (j < k)%nat -> (10 <? frozen_clock j) = false)
    /\ ((10 <? frozen_clock k) = true
        \/ ((10 <? frozen_clock k) = false /\ open s = [])).
Proof.
  destruct blocked_run as (s & E).
  destruct (SearchMore.Plan_gives_up_on_budget_or_empty_open
              incoming outgoing 1 0.5 blocked unit_speed coordinates
              frozen_clock same_pointer 5 origin two_cells_east 0 10 s E)
    as (k & H).
  exists s, k. split; [exact E|exact H].
Defined.

(** A goal a quarter of a cell from the start, where nothing is
    valid: a trajectory is returned all the same. *)
Lemma blocked_goal_run :
  exists trajectory s,
    TimeVaryingAStar.Plan incoming outgoing 1 0.5 blocked
      unit_speed coordinates frozen_clock same_pointer
      5 origin near_origin 0 10
    = Some (Some trajectory, s).
Proof. eexists. eexists. vm_compute. reflexivity. Qed.

(** [X4] at work: the goal edge through positions that are all
    invalid. *)
Lemma goal_edge_is_not_checked_run :
  exists trajectory s k0 s0 next terminus,
    PlanBlocked frozen_clock same_pointer 5 origin near_origin 0 10
    = Some (Some trajectory, s)
    /\ Reaches incoming outgoing 1 0.5 blocked unit_speed coordinates
               frozen_clock same_pointer origin near_origin 0 10 k0 s0
    /\ hd_error (open s0) = Some next
    /\ at_goal 1 (point_ (get (store s0) next)) near_origin = true
    /\ queries s = queries s0
    /\ closed s = closed s0
    /\ open s = tl (open s0)
    /\ store s = store s0 ++ [terminus]
    /\ point_ terminus = near_origin
    /\ parent_ terminus = Some (goal_parent (store s0) next)
    /\ time_ terminus
       = time_ (get (store s0) (goal_parent (store s0) next))
         + unit_speed (point_ (get (store s0) (goal_parent (store s0) next)))
                      near_origin
    /\ collision_prob_ terminus = 0.
Proof.
  destruct blocked_goal_run as (trajectory & s & E).
  destruct (SearchMore.goal_edge_is_not_checked
              incoming outgoing 1 0.5 blocked unit_speed coordinates
              frozen_clock same_pointer 5 origin near_origin 0 10
              trajectory s E) as (k0 & s0 & next & terminus & H).
  exists trajectory, s, k0, s0, next, terminus. split; [exact E|exact H].
Defined.

(** [X5] at work, on the search in free space. *)
Lemma Plan_keeps_open_and_closed_apart_run :
  exists trajectory s,
    Example.PlanSlow frozen_clock same_pointer 100 origin two_cells_east 0 10
    = Some (Some trajectory, s)
    /\ NoDup (open s)
    /\ (forall p, In p (open s) ->
          (p < length (store s))%nat /\ ~ In p (closed s))
    /\ (forall p, In p (closed s) -> (p < length (store s))%nat).
Proof.
  destruct free_space_run as (trajectory & s & E).
  pose proof (SearchMore.Plan_keeps_open_and_closed_apart
                incoming outgoing 1 0.5 free_space half_speed coordinates
                frozen_clock same_pointer 100 origin two_cells_east 0 10
                (Some trajectory) s E) as H.
  exists trajectory, s. split; [exact E|exact H].
Defined.

(** [X6] at work, on the search in free space. *)
Lemma trajectory_edges_but_last_are_checked_run :
  exists trajectory s terminus ancestors,
    Example.PlanSlow frozen_clock same_pointer 100 origin two_cells_east 0 10
    = Some (Some trajectory, s)
    /\ Chain (store s) (Some (length (store s) - 1)%nat)
             (terminus :: ancestors)
    /\ trajectory
       = trajectory_through incoming coordinates (terminus :: ancestors)
    /\ checked_path incoming outgoing 0.5 free_space ancestors
    /\ point_ terminus = two_cells_east
    /\ collision_prob_ terminus = 0.
Proof.
  destruct free_space_run as (trajectory & s & E).
  destruct (SearchMore.trajectory_edges_but_last_are_checked
              incoming outgoing 1 0.5 free_space half_speed coordinates
              frozen_clock same_pointer 100 origin two_cells_east 0 10
              trajectory s E) as (terminus & ancestors & H).
  exists trajectory, s, terminus, ancestors. split; [exact E|exact H].
Defined.

(** The first pass of that search. *)
Lemma first_pass_run :
  exists s next rest,
    TimeVaryingAStar.pass incoming outgoing 1 0.5 free_space unit_speed
      coordinates frozen_clock same_pointer 100 two_cells_east 10 0
      (initial unit_speed origin two_cells_east 0)
    = Some (Continue s)
    /\ open s = next :: rest
    /\ rest <> [].
Proof.
  eexists. eexists. eexists.
  split; [vm_compute; reflexivity|].
  split; [vm_compute; reflexivity|discriminate].
Qed.

(** [X7] at work: the open set after the first pass of the search in
    free space. *)
Lemma Plan_pops_least_priority_run :
  exists s next rest,
    Reaches incoming outgoing 1 0.5 free_space unit_speed coordinates
            frozen_clock same_pointer origin two_cells_east 0 10 1 s
    /\ open s = next :: rest
    /\ rest <> []
    /\ forall p, In p rest ->
         (priority_ (get (store s) p) <? priority_ (get (store s) next))
         = false.
Proof.
  destruct first_pass_run as (s & next & rest & Hpass & Hopen & Hrest).
  assert (Hreach : Reaches incoming outgoing 1 0.5 free_space unit_speed
                     coordinates frozen_clock same_pointer
                     origin two_cells_east 0 10 1 s).
  { eapply Reaches_pass; [apply Reaches_initial|exact Hpass]. }
  exists s, next, rest.
  split; [exact Hreach|]. split; [exact Hopen|]. split; [exact Hrest|].
  exact (SearchMore.Plan_pops_least_priority
           incoming outgoing 1 0.5 free_space unit_speed coordinates
           frozen_clock same_pointer origin two_cells_east 0 10 1 s next rest
           Hreach Hopen).
Defined.

(** A collision check against the wall, from the origin one cell
    east. *)
Lemma wall_check_run :
  exists free m qs,
    TimeVaryingAStar.CollisionCheck incoming outgoing 0.25 wall
      10 origin one_cell_east 0 1 0
    = Some (free, m, qs)
    /\ free = false /\ m = 0.75 /\ length qs = 4%nat.
Proof.
  eexists. eexists. eexists.
  split; [vm_compute; reflexivity|]. repeat split.
Qed.

(** [X8] at work: the check against the wall stops at its fourth
    sample and leaves three quarters. *)
Lemma CollisionCheck_bounds_the_samples_run :
  exists free m qs,
    Example.CollisionCheck 10 origin one_cell_east 0 1 0
    = Some (free, m, qs)
    /\ free = false /\ m = 0.75 /\ length qs = 4%nat
    /\ (m = 0 \/ (0 <? m) = true)
    /\ Forall (fun x => (m <? sample_prob incoming outgoing wall x) = false)
              qs
    /\ free = forallb (sample_valid incoming outgoing wall) qs
    /\ forallb (sample_valid incoming outgoing wall) (removelast qs) = true.
Proof.
  destruct wall_check_run as (free & m & qs & E & Hfree & Hm & Hlen).
  pose proof (SearchMore.CollisionCheck_bounds_the_samples
                incoming outgoing 0.25 wall 10 origin one_cell_east 0 1 0
                free m qs E) as H.
  exists free, m, qs.
  split; [exact E|]. split; [exact Hfree|]. split; [exact Hm|].
  split; [exact Hlen|exact H].
Defined.

(** [X9] at work: the 27 neighbours of the origin on the grid of the
    examples, and the 18 of a point far east, where the loop along the
    first coordinate makes two rounds only. *)
Lemma Neighbors_is_the_grid_run :
  (Neighbors 1 3 origin
   = Some (grid (round_values 1 0 3) (round_values 1 0 3) (round_values 1 0 3))
   /\ length (grid (round_values 1 0 3) (round_values 1 0 3)
                   (round_values 1 0 3)) = 27%nat)
  /\
  (Neighbors 1 3 far_east
   = Some (grid (round_values 1 1073741824 2) (round_values 1 0 3)
                (round_values 1 0 3))
   /\ length (grid (round_values 1 1073741824 2) (round_values 1 0 3)
                   (round_values 1 0 3)) = 18%nat).
Proof.
  split.
  - apply (SearchMore.Neighbors_is_the_grid 1 3 origin 3 3 3);
      solve [vm_compute; reflexivity | simpl; lia].
  - apply (SearchMore.Neighbors_is_the_grid 1 3 far_east 2 3 3);
      solve [vm_compute; reflexivity | simpl; lia].
Defined.

(** [X10] at work: a grid of resolution zero. *)
Lemma Neighbors_never_returns_run :
  (vx origin - 0 <? vx origin + 0 + 1e-8) = true
  /\ vx origin - 0 + 0 = vx origin - 0
  /\ forall fuel, Neighbors 0 fuel origin = None.
Proof.
  split; [vm_compute; reflexivity|].
  split; [vm_compute; reflexivity|].
  apply (SearchMore.Neighbors_never_returns 0 origin);
    vm_compute; reflexivity.
Defined.

(** [X11] at work: a collision check of resolution zero, in free
    space. *)
Lemma CollisionCheck_never_returns_run :
  (0 <? 1) = true
  /\ 0 + segment_dt 0 origin one_cell_east 0 1 = 0
  /\ forall fuel m0,
       TimeVaryingAStar.CollisionCheck incoming outgoing 0 free_space
         fuel origin one_cell_east 0 1 m0 = None.
Proof.
  split; [vm_compute; reflexivity|].
  split; [vm_compute; reflexivity|].
  apply (SearchMore.CollisionCheck_never_returns
           incoming outgoing 0 free_space origin one_cell_east 0 1).
  - vm_compute; reflexivity.
  - vm_compute; reflexivity.
  - intro k. reflexivity.
Defined.

(** The neighbours of the origin are all reached later than it is
    left. *)
Lemma origin_neighbors_run :
  exists neighbors,
    Neighbors 1 4 origin = Some neighbors
    /\ length neighbors = 27%nat
    /\ forallb (fun neighbor =>
                  0 <? 0 + (if isApprox neighbor origin 1e-8
                            then kStayPutTime
                            else unit_speed origin neighbor))
               neighbors = true.
Proof.
  eexists. split; [vm_compute; reflexivity|].
  split; vm_compute; reflexivity.
Qed.

(** [X12] at work: from the origin, with nothing valid. *)
Lemma Plan_walled_in_run :
  exists s,
    PlanBlocked frozen_clock same_pointer 5 origin two_cells_east 0 10
    = Some (None, s)
    /\ open s = []
    /\ length (store s) = 28%nat
    /\ Forall (fun q => q = (origin, 0)) (queries s).
Proof.
  destruct origin_neighbors_run as (neighbors & Hn & Hlen & Hall).
  destruct (SearchMore.Plan_walled_in
              incoming outgoing 1 0.5 blocked unit_speed coordinates
              frozen_clock same_pointer 3 origin two_cells_east 0 10 neighbors)
    as (s & H).
  - intros p t. reflexivity.
  - exact Hn.
  - intros neighbor Hin. rewrite forallb_forall in Hall. exact (Hall _ Hin).
  - vm_compute. reflexivity.
  - vm_compute. reflexivity.
  - exists s. rewrite Hlen in H. exact H.
Defined.

(** Two calls of the RRT of the examples on one planner. *)
Lemma rrt_calls_run :
  exists out out',
    RrtPlan open_field 10 [] origin two_cells_east 0 0.003 = Some out
    /\ RrtPlan open_field 10 (TimeVaryingRrt.kdtree out)
               one_cell_east two_cells_east 5 0.003 = Some out'.
Proof.
  eexists. eexists. split; vm_compute; reflexivity.
Qed.

(** [X13] at work: the tree after the second call holds both
    roots. *)
Lemma kdtree_keeps_former_roots_run :
  exists out out',
    RrtPlan open_field 10 [] origin two_cells_east 0 0.003 = Some out
    /\ RrtPlan open_field 10 (TimeVaryingRrt.kdtree out)
               one_cell_east two_cells_east 5 0.003 = Some out'
    /\ TimeVaryingRrt.kdtree out'
       = [TimeVaryingRrt.Node_Create origin None 0;
          TimeVaryingRrt.Node_Create one_cell_east None 5].
Proof.
  destruct rrt_calls_run as (out & out' & E & E').
  exists out, out'. split; [exact E|]. split; [exact E'|].
  exact (RrtMore.kdtree_keeps_former_roots
           incoming outgoing open_field first_nodes unit_speed false
           draw_origin draw_origin running_clock running_clock
           10 10 [] origin two_cells_east one_cell_east two_cells_east
           0 0.003 5 0.003 out out' E E').
Defined.

Lemma running_clock_three :
  (forall j, (j < 3)%nat -> (running_clock j <? 0.003) = true)
  /\ (running_clock 3 <? 0.003) = false.
Proof.
  split; [|vm_compute; reflexivity].
  intros [|[|[|j]]] Hj; try lia; vm_compute; reflexivity.
Qed.

(** [X14] at work: with the debug messages, the call ends at the
    fourth reading of the clock or at a search gone wrong; without
    them, a kd-tree that finds no neighbour leaves the call
    undefined. *)
Lemma Plan_guards_the_nearest_neighbor_run :
  (exists out,
     RrtPlanDebug no_neighbors 3 [] origin two_cells_east 0 0.003 = Some out
     /\ TimeVaryingRrt.result out = None
     /\ TimeVaryingRrt.kdtree out
        = [TimeVaryingRrt.Node_Create origin None 0]
     /\ ((TimeVaryingRrt.log out = [] /\ TimeVaryingRrt.samples out = 3%nat
          /\ forall j, (j < 3)%nat ->
               length (no_neighbors (TimeVaryingRrt.kdtree out)
                         (draw_origin j) TimeVaryingRrt.kNumNeigbhbors)
               = TimeVaryingRrt.kNumNeigbhbors)
         \/ (TimeVaryingRrt.log out
             = [TimeVaryingRrt.ERROR
                  TimeVaryingRrt.Messages.wrong_neighbors]
             /\ (0 < TimeVaryingRrt.samples out <= 3)%nat
             /\ length (no_neighbors (TimeVaryingRrt.kdtree out)
                          (draw_origin (TimeVaryingRrt.samples out - 1))
                          TimeVaryingRrt.kNumNeigbhbors)
                <> TimeVaryingRrt.kNumNeigbhbors
             /\ forall j, (j < TimeVaryingRrt.samples out - 1)%nat ->
                  length (no_neighbors (TimeVaryingRrt.kdtree out)
                            (draw_origin j) TimeVaryingRrt.kNumNeigbhbors)
                  = TimeVaryingRrt.kNumNeigbhbors)))
  /\
  (forall fuel, RrtPlanLost fuel [] origin two_cells_east 0 0.003 = None).
Proof.
  destruct running_clock_three as [Hin Hout].
  split.
  - destruct (RrtMore.Plan_guards_the_nearest_neighbor
                incoming outgoing open_field no_neighbors unit_speed true
                draw_origin running_clock [] origin two_cells_east 0 0.003 3
                eq_refl eq_refl) as [H _].
    exact (H eq_refl Hin Hout 3%nat (le_n 3)).
  - destruct (RrtMore.Plan_guards_the_nearest_neighbor
                incoming outgoing open_field no_neighbors unit_speed false
                draw_origin running_clock [] origin two_cells_east 0 0.003 3
                eq_refl eq_refl) as [_ H].
    apply H; [reflexivity|vm_compute; reflexivity|reflexivity].
Defined.

End MoreRuns.
